(** * Threshold signatures (BLS and ECDSA) over Shamir secret sharing

    A shallow embedding of [BLS_Threshold_Signature.py] and
    [ECDSA_Threshold_Signature.py].  Python integers are [Z], [%] and [//]
    are [Z.modulo] and [Z.div] (both floor, sign of the divisor), lists are
    [list], a raised exception is the [Raise] outcome of [result].

    The curve libraries the two files import ([py_ecc.bn128], [ecdsa]) and
    [hashlib.sha256] are taken as section variables; the two modular
    inverses ([py_ecc.utils.prime_field_inv], [Crypto.Util.number.inverse])
    are transcribed and proved correct. *)

From Stdlib Require Import ZArith List Lia Bool Znumtheory Permutation.
From Stdlib Require Import Morphisms Setoid.
From Stdlib.Strings Require Import Byte.
Import ListNotations.

Local Open Scope Z_scope.

(** ** Outcomes of a Python call *)

(** The messages of the [ValueError]s raised in the two files and in
    [Crypto.Util.number.inverse]. *)
Inductive value_error : Type :=
| PartyIdOutOfRange (num_parties : Z)   (* get_private_share, get_public_key_share *)
| NeedPartialSignatures (threshold : Z) (* combine_signatures *)
| NeedShares (threshold : Z)            (* reconstruct_secret *)
| RValuesDiffer                         (* ECDSA combine_signatures *)
| NoInverse                             (* inverse: no inverse value can be computed *)
| NegativeModulus.                      (* inverse: modulus cannot be negative *)

Inductive exn : Type :=
| ValueError (e : value_error)
| ZeroDivisionError
| TypeError
| IndexError
| LibraryError.                         (* anything raised inside a pairing *)

Inductive result (A : Type) : Type :=
| Ok (a : A)
| Raise (e : exn).

Arguments Ok {A} a.
Arguments Raise {A} e.

Definition bind {A B : Type} (r : result A) (k : A -> result B) : result B :=
  match r with
  | Ok a => k a
  | Raise e => Raise e
  end.

Notation "x <- r ;; k" := (bind r (fun x => k))
  (at level 61, r at next level, right associativity).

(** [try: body except Exception: handler]. *)
Definition try_except {A : Type} (body : result A) (handler : exn -> result A)
  : result A :=
  match body with
  | Ok a => Ok a
  | Raise e => handler e
  end.

(** The error kinds of the specification, as the exceptions the code raises
    for them. *)
Definition InsufficientSigners (t : Z) : exn := ValueError (NeedPartialSignatures t).
Definition InconsistentNonce : exn := ValueError RValuesDiffer.
Definition UnknownParty (n : Z) : exn := ValueError (PartyIdOutOfRange n).

(** ** Python built-ins *)

Definition len {A : Type} (l : list A) : Z := Z.of_nat (length l).

(** [l[:k]]; a negative [k] counts from the end. *)
Definition slice_to {A : Type} (l : list A) (k : Z) : list A :=
  if k <? 0 then firstn (Z.to_nat (len l + k)) l else firstn (Z.to_nat k) l.

(** [range(lo, hi)]. *)
Definition range (lo hi : Z) : list Z :=
  map (fun k => lo + Z.of_nat k) (seq 0 (Z.to_nat (hi - lo))).

(** [pow(x, i, m)] for an index [i] and a positive modulus. *)
Definition pow_mod (x : Z) (i : nat) (m : Z) : Z := (x ^ Z.of_nat i) mod m.

(** [int.from_bytes(b, 'big')]. *)
Definition int_from_bytes_big (b : list byte) : Z :=
  fold_left (fun acc c => acc * 256 + Z.of_N (Byte.to_N c)) b 0.

(** [l[i]]; a negative [i] counts from the end, an index out of range
    raises [IndexError]. *)
Definition getitem {A : Type} (l : list A) (i : Z) : result A :=
  let j := if i <? 0 then len l + i else i in
  if j <? 0 then Raise IndexError
  else match nth_error l (Z.to_nat j) with
       | Some a => Ok a
       | None => Raise IndexError
       end.

(** [len(set(l))] for a list of integers. *)
Definition len_set (l : list Z) : Z := len (nodup Z.eq_dec l).

(** ** The modular inverses of the two libraries

    The BLS file calls [py_ecc.utils.prime_field_inv]:
<<
    def prime_field_inv(a, n):
        a %= n
        if a == 0:
            return 0
        lm, hm = 1, 0
        low, high = a % n, n
        while low > 1:
            r = high // low
            nm, new = hm - lm * r, high - low * r
            lm, low, hm, high = nm, new, lm, low
        return lm % n
>>
    and the ECDSA file [Crypto.Util.number.inverse]:
<<
    def inverse(u, v):
        if v == 0:
            raise ZeroDivisionError("Modulus cannot be zero")
        if v < 0:
            raise ValueError("Modulus cannot be negative")
        u3, v3 = u, v
        u1, v1 = 1, 0
        while v3 > 0:
            q = u3 // v3
            u1, v1 = v1, u1 - v1*q
            u3, v3 = v3, u3 - v3*q
        if u3 != 1:
            raise ValueError("No inverse value can be computed")
        while u1<0:
            u1 = u1 + v
        return u1
>>
    The first returns [0] for [0]; the second raises.  The [while] loops
    take fuel; [prime_field_inv_fuel] and [inverse_fuel] show that it never
    runs out. *)

Module PyEcc.

(** [py_ecc.bn128.curve_order]. *)
Definition curve_order : Z :=
  21888242871839275222246405745257275088548364400416034343698204186575808495617.

(** The [while low > 1] loop of [prime_field_inv]. *)
Fixpoint inv_loop (fuel : nat) (lm low hm high : Z) : Z :=
  match fuel with
  | O => lm
  | S fuel' =>
      if 1 <? low then
        let r := high / low in
        let nm := hm - lm * r in
        let new := high - low * r in
        inv_loop fuel' nm new lm low
      else lm
  end.

(** Each round of the loop at least halves [low * high], so twice the bit
    length of [n] is enough fuel. *)
Definition inv_fuel (n : Z) : nat := Z.to_nat (2 * Z.log2 n + 2).

(** [py_ecc.utils.prime_field_inv(a, n)]: extended Euclid, with
    [inv0(0) = 0]. *)
Definition prime_field_inv (a n : Z) : Z :=
  let a := a mod n in
  if a =? 0 then 0
  else inv_loop (inv_fuel n) 1 (a mod n) 0 n mod n.

End PyEcc.

Module Crypto.

(** The [while v3 > 0] loop of [inverse]; returns [(u1, u3)]. *)
Fixpoint euclid_loop (fuel : nat) (u1 v1 u3 v3 : Z) : Z * Z :=
  match fuel with
  | O => (u1, u3)
  | S fuel' =>
      if 0 <? v3 then
        let q := u3 / v3 in
        euclid_loop fuel' v1 (u1 - v1 * q) v3 (u3 - v3 * q)
      else (u1, u3)
  end.

(** The [while u1 < 0: u1 = u1 + v] loop; it adds [v] at most
    [- u1 / v + 1] times. *)
Fixpoint lift_loop (fuel : nat) (u1 v : Z) : Z :=
  match fuel with
  | O => u1
  | S fuel' => if u1 <? 0 then lift_loop fuel' (u1 + v) v else u1
  end.

(** One round brings [u3, v3] to [v, u mod v]; from there each round at
    least halves [u3 * v3]. *)
Definition euclid_fuel (v : Z) : nat := S (Z.to_nat (2 * Z.log2 v + 2)).

(** [Crypto.Util.number.inverse(u, v)]. *)
Definition inverse (u v : Z) : result Z :=
  if v =? 0 then Raise ZeroDivisionError
  else if v <? 0 then Raise (ValueError NegativeModulus)
  else
    let '(u1, u3) := euclid_loop (euclid_fuel v) 1 0 u v in
    if negb (u3 =? 1) then Raise (ValueError NoInverse)
    else Ok (lift_loop (Z.to_nat (- u1 / v + 1)) u1 v).

End Crypto.

(** ** Shamir secret sharing

    [class ShamirSecretSharing] has the same text in both files, up to the
    inverse it calls ([field_inv] below) and [reconstruct_secret], which only
    the ECDSA file has. *)

Module Shamir.

Record SecretShare : Type := mkShare { x : Z; y : Z }.

Section Sharing.

Variable prime : Z.
Variable field_inv : Z -> Z -> result Z.
Variable threshold : Z.
Variable num_parties : Z.

(** [draws k] is what the [k]-th call of [secrets.randbelow(self.prime)]
    returns. *)
Definition generate_polynomial (draws : nat -> Z) (secret : Z) : list Z :=
  secret :: map draws (seq 0 (Z.to_nat (threshold - 1))).

Fixpoint evaluate_loop (i : nat) (coefficients : list Z) (x result : Z) : Z :=
  match coefficients with
  | [] => result
  | coeff :: rest =>
      evaluate_loop (S i) rest x ((result + coeff * pow_mod x i prime) mod prime)
  end.

Definition evaluate_polynomial (coefficients : list Z) (x : Z) : Z :=
  evaluate_loop 0 coefficients x 0.

Definition create_shares (draws : nat -> Z) (secret : Z) : list SecretShare :=
  let coefficients := generate_polynomial draws secret in
  map (fun i => mkShare i (evaluate_polynomial coefficients i))
      (range 1 (num_parties + 1)).

(** The loop of [lagrange_coefficient] over [enumerate(shares)]; [j] is the
    index of the head of [shares]. *)
Fixpoint lagrange_loop (xi : Z) (i j : nat) (shares : list SecretShare)
  (numerator denominator : Z) : Z * Z :=
  match shares with
  | [] => (numerator, denominator)
  | share :: rest =>
      if Nat.eqb i j then lagrange_loop xi i (S j) rest numerator denominator
      else
        let xj := x share in
        lagrange_loop xi i (S j) rest
          ((numerator * (- xj)) mod prime)
          ((denominator * (xi - xj)) mod prime)
  end.

Definition lagrange_coefficient (shares : list SecretShare) (i : nat) : result Z :=
  share_i <- getitem shares (Z.of_nat i) ;;
  let xi := x share_i in
  let '(numerator, denominator) := lagrange_loop xi i 0 shares 1 1 in
  inv <- field_inv denominator prime ;;
  Ok ((numerator * inv) mod prime).

Fixpoint reconstruct_loop (selected_shares : list SecretShare) (i : nat)
  (rest : list SecretShare) (secret : Z) : result Z :=
  match rest with
  | [] => Ok secret
  | share :: rest' =>
      coeff <- lagrange_coefficient selected_shares i ;;
      reconstruct_loop selected_shares (S i) rest'
        ((secret + y share * coeff) mod prime)
  end.

Definition reconstruct_secret (shares : list SecretShare) : result Z :=
  if len shares <? threshold then Raise (ValueError (NeedShares threshold))
  else
    let selected_shares := slice_to shares threshold in
    reconstruct_loop selected_shares 0 selected_shares 0.

End Sharing.

End Shamir.

(** ** BLS threshold signatures ([BLS_Threshold_Signature.py]) *)

Module BLS.

Import Shamir.

Section Curve.

(** [py_ecc.bn128]: a point of G1 or G2 is [None] (the point at infinity) or
    a tuple of coordinates. *)
Variable affine : Type.
Variable affine2 : Type.
Variable FQ12 : Type.

Local Abbreviation point := (option affine).
Local Abbreviation point2 := (option affine2).

Variable add : point -> point -> point.
Variable multiply : point -> Z -> point.
Variable multiply2 : point2 -> Z -> point2.
Variable pairing : point2 -> point -> result FQ12.
Variable FQ12_eqb : FQ12 -> FQ12 -> bool.
Variable G1 : point.
Variable G2 : point2.
Variable curve_order : Z.

(** [hashlib.sha256(message).digest()]. *)
Variable sha256 : list byte -> list byte.

Record BLSPartialSignature : Type := mkPartial {
  signer_id : Z;
  signature : point
}.

Record BLSThresholdSignature : Type := mkContext {
  threshold : Z;
  num_parties : Z;
  master_private_key : Z;
  public_key : point2;
  private_shares : list SecretShare;
  public_key_shares : list (Z * point2)
}.

(** [self.sss], with [self.prime = curve_order] and [prime_field_inv]. *)
Definition lagrange_coefficient : list SecretShare -> nat -> result Z :=
  Shamir.lagrange_coefficient curve_order
    (fun a n => Ok (PyEcc.prime_field_inv a n)).

Definition hash_to_g1 (message : list byte) : point :=
  let hash_bytes := sha256 message in
  let scalar := int_from_bytes_big hash_bytes mod curve_order in
  multiply G1 scalar.

(** [__init__]: [sk] is what [secrets.randbelow(curve_order)] returns for
    the master key, [draws] the later calls made by [generate_polynomial]. *)
Definition init (threshold num_parties : Z) (sk : Z) (draws : nat -> Z)
  : BLSThresholdSignature :=
  let shares := create_shares curve_order threshold num_parties draws sk in
  mkContext threshold num_parties sk (multiply2 G2 sk) shares
    (map (fun share => (x share, multiply2 G2 (y share))) shares).

Definition get_private_share (self : BLSThresholdSignature) (party_id : Z)
  : result SecretShare :=
  if (party_id <? 1) || (num_parties self <? party_id)
  then Raise (UnknownParty (num_parties self))
  else getitem (private_shares self) (party_id - 1).

Definition get_public_key_share (self : BLSThresholdSignature) (party_id : Z)
  : result point2 :=
  if (party_id <? 1) || (num_parties self <? party_id)
  then Raise (UnknownParty (num_parties self))
  else
    entry <- getitem (public_key_shares self) (party_id - 1) ;;
    Ok (snd entry).

Definition create_partial_signature (self : BLSThresholdSignature)
  (party_id : Z) (message : list byte) : result BLSPartialSignature :=
  private_share <- get_private_share self party_id ;;
  let h := hash_to_g1 message in
  let partial_signature := multiply h (y private_share) in
  Ok (mkPartial party_id partial_signature).

(** The [try] block of [verify_partial_signature]. *)
Definition verify_partial_signature_try (self : BLSThresholdSignature)
  (partial_sig : BLSPartialSignature) (message : list byte) : result bool :=
  pk_share <- get_public_key_share self (signer_id partial_sig) ;;
  let h := hash_to_g1 message in
  lhs <- pairing G2 (signature partial_sig) ;;
  rhs <- pairing pk_share h ;;
  Ok (FQ12_eqb lhs rhs).

Definition verify_partial_signature (self : BLSThresholdSignature)
  (partial_sig : BLSPartialSignature) (message : list byte) : result bool :=
  try_except (verify_partial_signature_try self partial_sig message)
    (fun _ => Ok false).

(** The loop of [combine_signatures] over [enumerate(selected_sigs)];
    [combined_signature] starts as [None]. *)
Fixpoint combine_loop (shares : list SecretShare) (i : nat)
  (rest : list BLSPartialSignature) (combined_signature : point)
  : result point :=
  match rest with
  | [] => Ok combined_signature
  | sig :: rest' =>
      coeff <- lagrange_coefficient shares i ;;
      let weighted_sig := multiply (signature sig) coeff in
      let combined_signature :=
        match combined_signature with
        | None => weighted_sig
        | Some _ => add combined_signature weighted_sig
        end in
      combine_loop shares (S i) rest' combined_signature
  end.

Definition combine_signatures (self : BLSThresholdSignature)
  (partial_sigs : list BLSPartialSignature) : result point :=
  if len partial_sigs <? threshold self
  then Raise (InsufficientSigners (threshold self))
  else
    let selected_sigs := slice_to partial_sigs (threshold self) in
    let shares := map (fun sig => mkShare (signer_id sig) 0) selected_sigs in
    combine_loop shares 0 selected_sigs None.

(** The [try] block of [verify_signature]. *)
Definition verify_signature_try (self : BLSThresholdSignature)
  (signature : point) (message : list byte) : result bool :=
  let h := hash_to_g1 message in
  lhs <- pairing G2 signature ;;
  rhs <- pairing (public_key self) h ;;
  Ok (FQ12_eqb lhs rhs).

Definition verify_signature (self : BLSThresholdSignature)
  (signature : point) (message : list byte) : result bool :=
  try_except (verify_signature_try self signature message)
    (fun _ => Ok false).

(** The loop of [simulate_signing_process] over [signers]: each signer's
    partial signature is created, then verified (the outcome is only
    printed), and collected. *)
Fixpoint signing_loop (self : BLSThresholdSignature) (message : list byte)
  (signers : list Z) : result (list BLSPartialSignature) :=
  match signers with
  | [] => Ok []
  | signer_id :: rest =>
      partial_sig <- create_partial_signature self signer_id message ;;
      is_partial_valid <- verify_partial_signature self partial_sig message ;;
      partial_signatures <- signing_loop self message rest ;;
      Ok (partial_sig :: partial_signatures)
  end.

(** [simulate_signing_process], without what it prints: only
    [combine_signatures] is inside a [try]. *)
Definition simulate_signing_process (self : BLSThresholdSignature)
  (message : list byte) (signers : list Z) : result bool :=
  if len signers <? threshold self then Ok false
  else
    partial_signatures <- signing_loop self message signers ;;
    match combine_signatures self partial_signatures with
    | Raise _ => Ok false
    | Ok combined_signature => verify_signature self combined_signature message
    end.

End Curve.

End BLS.

(** ** ECDSA threshold signatures ([ECDSA_Threshold_Signature.py]) *)

Module ECDSA.

Import Shamir.

(** [SECP256k1.order], and the prime of the field of the curve
    [y^2 = x^3 + 7]. *)
Definition secp256k1_order : Z :=
  0xFFFFFFFFFFFFFFFFFFFFFFFFFFFFFFFEBAAEDCE6AF48A03BBFD25E8CD0364141.

Definition secp256k1_field : Z :=
  0xFFFFFFFFFFFFFFFFFFFFFFFFFFFFFFFFFFFFFFFFFFFFFFFFFFFFFFFEFFFFFC2F.

Section Curve.

(** [ecdsa.SECP256k1]: a point is [INFINITY] ([None] here, its [x()] is
    Python's [None]) or has affine coordinates. *)
Variable ec_affine : Type.

Local Abbreviation ec_point := (option ec_affine).

Variable affine_x : ec_affine -> Z.
Variable ec_add : ec_point -> ec_point -> ec_point.
Variable ec_mul : Z -> ec_point -> ec_point.
Variable generator : ec_point.
Variable order : Z.

(** [hashlib.sha256(message).digest()]. *)
Variable sha256 : list byte -> list byte.

Record PartialSignature : Type := mkPartial {
  signer_id : Z;
  r : Z;
  s : Z
}.

Record ThresholdSignature : Type := mkContext {
  threshold : Z;
  num_parties : Z;
  prime : Z;
  public_key_point : ec_point;     (* self.public_key.pubkey.point *)
  private_shares : list SecretShare
}.

(** [self.sss], with [Crypto.Util.number.inverse]. *)
Definition lagrange_coefficient (self : ThresholdSignature)
  : list SecretShare -> nat -> result Z :=
  Shamir.lagrange_coefficient (prime self) Crypto.inverse.

Definition reconstruct_secret (self : ThresholdSignature)
  : list SecretShare -> result Z :=
  Shamir.reconstruct_secret (prime self) Crypto.inverse (threshold self).

(** [__init__]: [private_key_int] is the secret multiplier of the generated
    [SigningKey], [draws] the calls of [secrets.randbelow] made by
    [generate_polynomial]. *)
Definition init (threshold num_parties : Z) (private_key_int : Z)
  (draws : nat -> Z) : ThresholdSignature :=
  mkContext threshold num_parties order (ec_mul private_key_int generator)
    (create_shares order threshold num_parties draws private_key_int).

Definition get_private_share (self : ThresholdSignature) (party_id : Z)
  : result SecretShare :=
  if (party_id <? 1) || (num_parties self <? party_id)
  then Raise (UnknownParty (num_parties self))
  else getitem (private_shares self) (party_id - 1).

(** [point.x() % self.prime]: [None % int] is a [TypeError]. *)
Definition x_mod (point : ec_point) (m : Z) : result Z :=
  match point with
  | Some a => Ok (affine_x a mod m)
  | None => Raise TypeError
  end.

(** [shared_k] is the attribute [self._shared_k] ([None] when unset); the
    second component of the outcome is its value afterwards.  [randbelow] is
    what [secrets.randbelow(self.prime - 1)] returns if it is called. *)
Definition create_partial_signature (self : ThresholdSignature)
  (shared_k : option Z) (randbelow : Z)
  (party_id : Z) (message : list byte) (k : option Z)
  : result PartialSignature * option Z :=
  match get_private_share self party_id with
  | Raise e => (Raise e, shared_k)
  | Ok private_share =>
      let message_hash := sha256 message in
      let hash_int := int_from_bytes_big message_hash mod prime self in
      let '(k, shared_k) :=
        match k with
        | Some k => (k, shared_k)
        | None =>
            match shared_k with
            | Some k => (k, shared_k)
            | None => let k := randbelow + 1 in (k, Some k)
            end
        end in
      let point := ec_mul k generator in
      (r <- x_mod point (prime self) ;;
       k_inv <- Crypto.inverse k (prime self) ;;
       let s_partial := (k_inv * (hash_int + r * y private_share)) mod prime self in
       Ok (mkPartial party_id r s_partial),
       shared_k)
  end.

Definition combine_signatures (self : ThresholdSignature)
  (partial_sigs : list PartialSignature) (message : list byte)
  : result (Z * Z) :=
  if len partial_sigs <? threshold self
  then Raise (InsufficientSigners (threshold self))
  else
    let r_values := map r partial_sigs in
    if negb (len_set r_values =? 1) then Raise InconsistentNonce
    else
      sig0 <- getitem partial_sigs 0 ;;
      let r := r sig0 in
      let s_shares :=
        map (fun sig => mkShare (signer_id sig) (s sig))
            (slice_to partial_sigs (threshold self)) in
      s_combined <- reconstruct_secret self s_shares ;;
      Ok (r, s_combined).

(** The [try] block of [verify_signature]. *)
Definition verify_signature_try (self : ThresholdSignature)
  (signature : Z * Z) (message : list byte) : result bool :=
  let '(r, s) := signature in
  if (r <=? 0) || (prime self <=? r) || (s <=? 0) || (prime self <=? s)
  then Ok false
  else
    let message_hash := sha256 message in
    let hash_int := int_from_bytes_big message_hash mod prime self in
    w <- Crypto.inverse s (prime self) ;;
    let u1 := (hash_int * w) mod prime self in
    let u2 := (r * w) mod prime self in
    let point1 := ec_mul u1 generator in
    let point2 := ec_mul u2 (public_key_point self) in
    let result_point := ec_add point1 point2 in
    x1 <- x_mod result_point (prime self) ;;
    Ok (r =? x1).

Definition verify_signature (self : ThresholdSignature)
  (signature : Z * Z) (message : list byte) : result bool :=
  try_except (verify_signature_try self signature message)
    (fun _ => Ok false).

(** The loop of [simulate_signing_process] over [signers], every call with
    [k = None]; the state is [self._shared_k]. *)
Fixpoint signing_loop (self : ThresholdSignature) (shared_k : option Z)
  (randbelow : Z) (message : list byte) (signers : list Z)
  : result (list PartialSignature) * option Z :=
  match signers with
  | [] => (Ok [], shared_k)
  | signer_id :: rest =>
      match create_partial_signature self shared_k randbelow signer_id message None with
      | (Raise e, shared_k) => (Raise e, shared_k)
      | (Ok partial_sig, shared_k) =>
          match signing_loop self shared_k randbelow message rest with
          | (Raise e, shared_k) => (Raise e, shared_k)
          | (Ok partial_signatures, shared_k) =>
              (Ok (partial_sig :: partial_signatures), shared_k)
          end
      end
  end.

(** [simulate_signing_process], without what it prints.  [_shared_k] is
    deleted once enough signers are given; [randbelow] is what the one call
    of [secrets.randbelow] of the round returns. *)
Definition simulate_signing_process (self : ThresholdSignature)
  (shared_k : option Z) (randbelow : Z) (message : list byte) (signers : list Z)
  : result bool * option Z :=
  if len signers <? threshold self then (Ok false, shared_k)
  else
    match signing_loop self None randbelow message signers with
    | (Raise e, shared_k) => (Raise e, shared_k)
    | (Ok partial_signatures, shared_k) =>
        match combine_signatures self partial_signatures message with
        | Raise _ => (Ok false, shared_k)
        | Ok combined_signature =>
            (verify_signature self combined_signature message, shared_k)
        end
    end.

End Curve.

End ECDSA.

(** ** Notions used to state and prove the properties *)

(** Congruence modulo [n]. *)
Definition cong (n a b : Z) : Prop := a mod n = b mod n.

(** The integers of [xs] are pairwise distinct modulo [n]. *)
Definition distinct_mod (n : Z) (xs : list Z) : Prop :=
  NoDup (map (fun x => x mod n) xs).

(** The value at [z] of the polynomial with coefficients [cs], lowest
    degree first. *)
Fixpoint peval (cs : list Z) (z : Z) : Z :=
  match cs with
  | [] => 0
  | c :: cs' => c + z * peval cs' z
  end.

(** The product of [f a] for [a] in [l]. *)
Fixpoint prodl {A : Type} (f : A -> Z) (l : list A) : Z :=
  match l with
  | [] => 1
  | a :: l' => f a * prodl f l'
  end.

(** The sum of [g pre a post] over the ways to split [rest] as
    [before ++ a :: post], with [pre] extended by [before]. *)
Fixpoint sum_splits {A : Type} (g : list A -> A -> list A -> Z)
  (pre rest : list A) : Z :=
  match rest with
  | [] => 0
  | a :: post => g pre a post + sum_splits g (pre ++ [a]) post
  end.

(** Coefficient lists: sum, multiple, product by [X - r], and the quotient
    of the division by [X - a]. *)
Fixpoint padd (a b : list Z) : list Z :=
  match a, b with
  | [], _ => b
  | _, [] => a
  | c :: a', d :: b' => (c + d) :: padd a' b'
  end.

Definition pscale (c : Z) (a : list Z) : list Z := map (Z.mul c) a.

Definition pmul_linear (r : Z) (a : list Z) : list Z :=
  padd (pscale (- r) a) (0 :: a).

Fixpoint pquot (cs : list Z) (a : Z) : list Z :=
  match cs with
  | [] => []
  | _ :: cs' =>
      match cs' with
      | [] => []
      | _ :: _ => peval cs' a :: pquot cs' a
      end
  end.

(** [f] is a polynomial function with fewer than [n + 1] coefficients. *)
Definition is_poly (n : nat) (f : Z -> Z) : Prop :=
  exists cs, (length cs <= n)%nat /\ forall z, f z = peval cs z.

(** Numerator and denominator of the Lagrange coefficient at zero of the
    share [a], the other shares being [pre ++ post]. *)
Definition basis_num (pre post : list Shamir.SecretShare) : Z :=
  prodl (fun b => - Shamir.x b) (pre ++ post).

Definition basis_den (a : Shamir.SecretShare)
  (pre post : list Shamir.SecretShare) : Z :=
  prodl (fun b => Shamir.x a - Shamir.x b) (pre ++ post).

(** The Lagrange coefficient the code computes for the share at index [i],
    and [0] where the computation raises. *)
Definition coefficient (prime : Z) (field_inv : Z -> Z -> result Z)
  (shares : list Shamir.SecretShare) (i : nat) : Z :=
  match Shamir.lagrange_coefficient prime field_inv shares i with
  | Ok c => c
  | Raise _ => 0
  end.

(** The inverse [field_inv] returns an inverse modulo [n] of everything that
    has one. *)
Definition inverts (n : Z) (field_inv : Z -> Z -> result Z) : Prop :=
  forall d, ~ (n | d) ->
    exists w, field_inv d n = Ok w /\ cong n (w * d) 1.

(** What the proofs use of [py_ecc]'s G1: [add] with [None] as the neutral
    element is commutative and associative, and [multiply] by a scalar that
    is not negative is the repeated sum in a group of the given order. *)
Record add_laws {affine : Type}
  (add : option affine -> option affine -> option affine) : Prop := {
  add_None_l : forall Q, add None Q = Q;
  add_comm : forall P Q, add P Q = add Q P;
  add_assoc : forall P Q R, add P (add Q R) = add (add P Q) R
}.

Record multiply_laws {affine : Type}
  (add : option affine -> option affine -> option affine)
  (multiply : option affine -> Z -> option affine) (order : Z) : Prop := {
  multiply_zero : forall P, multiply P 0 = None;
  multiply_add : forall P a b, 0 <= a -> 0 <= b ->
    multiply P (a + b) = add (multiply P a) (multiply P b);
  multiply_mul : forall P a b, 0 <= a -> 0 <= b ->
    multiply (multiply P a) b = multiply P (a * b);
  multiply_order : forall P, multiply P order = None
}.

(** The sum in the group of [g pre a post] over the splits of [rest]. *)
Fixpoint gsum_splits {affine A : Type}
  (add : option affine -> option affine -> option affine)
  (g : list A -> A -> list A -> option affine)
  (pre rest : list A) : option affine :=
  match rest with
  | [] => None
  | a :: post => add (g pre a post) (gsum_splits add g (pre ++ [a]) post)
  end.

(** The share [combine_signatures] builds from a partial signature: the
    signer's id and a dummy value. *)
Definition dummy_share {affine : Type}
  (sig : BLS.BLSPartialSignature affine) : Shamir.SecretShare :=
  Shamir.mkShare (BLS.signer_id affine sig) 0.

(** The weight [combine_signatures] gives to the share [a] among the
    shares [others], with [prime_field_inv] as the inverse. *)
Definition weight (p : Z) (a : Shamir.SecretShare)
  (others : list Shamir.SecretShare) : Z :=
  (prodl (fun b => - Shamir.x b) others
   * PyEcc.prime_field_inv (prodl (fun b => Shamir.x a - Shamir.x b) others) p)
  mod p.

(** The term of the partial signature [a] in the combination of [a] and
    the partial signatures [others]. *)
Definition weighted {affine : Type} (multiply : option affine -> Z -> option affine)
  (p : Z) (a : BLS.BLSPartialSignature affine)
  (others : list (BLS.BLSPartialSignature affine)) : option affine :=
  multiply (BLS.signature affine a)
    (weight p (dummy_share a) (map dummy_share others)).

(** What a verification reports for the outcome of its [try] block: the
    boolean it returned, or [false] when it raised. *)
Definition reported (outcome : result bool) : bool :=
  match outcome with
  | Ok b => b
  | Raise _ => false
  end.

(** ** Small instances

    A group of order 7 for G1 and G2, and the curve [y^2 = x^3 + 7] over the
    field of 13 elements, whose group also has order 7, for ECDSA; with
    3-of-5 contexts on them. *)

Module Toy.

(** The six points other than the point at infinity, named by their
    multiple of the generator. *)
Inductive affine : Type := P1 | P2 | P3 | P4 | P5 | P6.

Definition log (P : option affine) : Z :=
  match P with
  | None => 0
  | Some P1 => 1
  | Some P2 => 2
  | Some P3 => 3
  | Some P4 => 4
  | Some P5 => 5
  | Some P6 => 6
  end.

Definition exp (z : Z) : option affine :=
  match z mod 7 with
  | 1 => Some P1
  | 2 => Some P2
  | 3 => Some P3
  | 4 => Some P4
  | 5 => Some P5
  | 6 => Some P6
  | _ => None
  end.

Definition add (P Q : option affine) : option affine := exp (log P + log Q).

Definition multiply (P : option affine) (n : Z) : option affine :=
  exp (log P * n).

Definition G : option affine := Some P1.

Definition pairing (Q P : option affine) : result Z :=
  Ok ((log Q * log P) mod 7).

(** A stand-in for SHA-256. *)
Definition sha256 (message : list byte) : list byte := message.

(** The draws of the dealer: the polynomial is [sk + 2 x + 5 x^2]. *)
Definition draws (k : nat) : Z :=
  match k with
  | O => 2
  | _ => 5
  end.

Definition bls : BLS.BLSThresholdSignature affine :=
  BLS.init affine multiply G 7 3 5 3 draws.

Definition create_partial_signature
  : Z -> list byte -> result (BLS.BLSPartialSignature affine) :=
  BLS.create_partial_signature affine affine multiply G 7 sha256 bls.

Definition combine_signatures
  : list (BLS.BLSPartialSignature affine) -> result (option affine) :=
  BLS.combine_signatures affine affine add multiply 7 bls.

Definition message : list byte := [x48; x69].

(** The curve [y^2 = x^3 + 7] modulo 13. *)
Definition ec_inv (a : Z) : Z := (a ^ 11) mod 13.

Definition ec_add (P Q : option (Z * Z)) : option (Z * Z) :=
  match P, Q with
  | None, _ => Q
  | _, None => P
  | Some (x1, y1), Some (x2, y2) =>
      if x1 =? x2 then
        if (y1 + y2) mod 13 =? 0 then None
        else
          let l := (3 * x1 * x1 * ec_inv (2 * y1)) mod 13 in
          let x3 := (l * l - 2 * x1) mod 13 in
          Some (x3, (l * (x1 - x3) - y1) mod 13)
      else
        let l := ((y2 - y1) * ec_inv (x2 - x1)) mod 13 in
        let x3 := (l * l - x1 - x2) mod 13 in
        Some (x3, (l * (x1 - x3) - y1) mod 13)
  end.

Definition ec_mul (k : Z) (P : option (Z * Z)) : option (Z * Z) :=
  Nat.iter (Z.to_nat (k mod 7)) (ec_add P) None.

Definition generator : option (Z * Z) := Some (8, 5).

Definition ecdsa : ECDSA.ThresholdSignature (Z * Z) :=
  ECDSA.init (Z * Z) ec_mul generator 7 3 5 3 draws.

Definition ecdsa_create_partial_signature
  : option Z -> Z -> Z -> list byte -> option Z ->
    result ECDSA.PartialSignature * option Z :=
  ECDSA.create_partial_signature (Z * Z) fst ec_mul generator sha256 ecdsa.

Definition ecdsa_verify_signature : Z * Z -> list byte -> result bool :=
  ECDSA.verify_signature (Z * Z) fst ec_add ec_mul generator sha256 ecdsa.

End Toy.

(** ** Further notions: pairings, the group of the ECDSA curve *)

(** What the proofs use of [py_ecc]'s pairing: it returns a value, a scalar
    moves from its first argument to its second, and [==] on the values is
    reflexive. *)
Record pairing_laws {affine affine2 FQ12 : Type}
  (multiply : option affine -> Z -> option affine)
  (multiply2 : option affine2 -> Z -> option affine2)
  (pairing : option affine2 -> option affine -> result FQ12)
  (FQ12_eqb : FQ12 -> FQ12 -> bool) : Prop := {
  pairing_returns : forall Q P, exists e, pairing Q P = Ok e;
  pairing_bilinear : forall Q P a, 0 <= a ->
    pairing (multiply2 Q a) P = pairing Q (multiply P a);
  FQ12_eqb_refl : forall e, FQ12_eqb e e = true
}.

(** What the proofs use of [ecdsa]'s points: the multiples of a point by
    scalars that are not negative add up, compose, and only depend on the
    scalar modulo the order. *)
Record ec_laws {ec_affine : Type}
  (ec_add : option ec_affine -> option ec_affine -> option ec_affine)
  (ec_mul : Z -> option ec_affine -> option ec_affine) (order : Z) : Prop := {
  ec_mul_add : forall P a b, 0 <= a -> 0 <= b ->
    ec_add (ec_mul a P) (ec_mul b P) = ec_mul (a + b) P;
  ec_mul_mul : forall P a b, 0 <= a -> 0 <= b ->
    ec_mul a (ec_mul b P) = ec_mul (a * b) P;
  ec_mul_mod : forall P a, 0 <= a -> ec_mul (a mod order) P = ec_mul a P
}.

(** The group of order 7 of [Toy] as the points of [y^2 = x^3 + 7] modulo
    13: [Toy.P1] is [(8, 5)], and [affine_x] gives the x-coordinate of its
    multiples. *)
Module ToyCurve.

Definition affine_x (P : Toy.affine) : Z :=
  match P with
  | Toy.P1 => 8
  | Toy.P2 => 11
  | Toy.P3 => 7
  | Toy.P4 => 7
  | Toy.P5 => 11
  | Toy.P6 => 8
  end.

Definition ec_mul (k : Z) (P : option Toy.affine) : option Toy.affine :=
  Toy.multiply P k.

Definition ecdsa : ECDSA.ThresholdSignature Toy.affine :=
  ECDSA.init Toy.affine ec_mul Toy.G 7 3 5 3 Toy.draws.

Definition create_partial_signature
  : option Z -> Z -> Z -> list byte -> option Z ->
    result ECDSA.PartialSignature * option Z :=
  ECDSA.create_partial_signature Toy.affine affine_x ec_mul Toy.G Toy.sha256 ecdsa.

Definition verify_signature : Z * Z -> list byte -> result bool :=
  ECDSA.verify_signature Toy.affine affine_x Toy.add ec_mul Toy.G Toy.sha256 ecdsa.

Definition simulate_signing_process
  : option Z -> Z -> list byte -> list Z -> result bool * option Z :=
  ECDSA.simulate_signing_process Toy.affine affine_x Toy.add ec_mul Toy.G
    Toy.sha256 ecdsa.

End ToyCurve.

(** The BLS verifications and the signing round on [Toy]. *)
Module ToyBLS.

Definition verify_partial_signature
  : BLS.BLSPartialSignature Toy.affine -> list byte -> result bool :=
  BLS.verify_partial_signature Toy.affine Toy.affine Z Toy.multiply Toy.pairing
    Z.eqb Toy.G Toy.G 7 Toy.sha256 Toy.bls.

Definition verify_signature : option Toy.affine -> list byte -> result bool :=
  BLS.verify_signature Toy.affine Toy.affine Z Toy.multiply Toy.pairing
    Z.eqb Toy.G Toy.G 7 Toy.sha256 Toy.bls.

Definition simulate_signing_process : list byte -> list Z -> result bool :=
  BLS.simulate_signing_process Toy.affine Toy.affine Z Toy.add Toy.multiply
    Toy.pairing Z.eqb Toy.G Toy.G 7 Toy.sha256 Toy.bls.

End ToyBLS.

(** * Proofs *)

(** ** Congruences modulo [n] *)

#[global] Instance cong_equivalence (n : Z) : Equivalence (cong n).
Proof.
  unfold cong. split.
  - intros a. reflexivity.
  - intros a b H. symmetry. exact H.
  - intros a b c H1 H2. rewrite H1. exact H2.
Qed.

#[global] Instance cong_add (n : Z) : Proper (cong n ==> cong n ==> cong n) Z.add.
Proof.
  unfold cong. intros a a' Ha b b' Hb.
  rewrite (Zplus_mod a b), (Zplus_mod a' b'), Ha, Hb. reflexivity.
Qed.

#[global] Instance cong_sub (n : Z) : Proper (cong n ==> cong n ==> cong n) Z.sub.
Proof.
  unfold cong. intros a a' Ha b b' Hb.
  rewrite (Zminus_mod a b), (Zminus_mod a' b'), Ha, Hb. reflexivity.
Qed.

#[global] Instance cong_mul (n : Z) : Proper (cong n ==> cong n ==> cong n) Z.mul.
Proof.
  unfold cong. intros a a' Ha b b' Hb.
  rewrite (Zmult_mod a b), (Zmult_mod a' b'), Ha, Hb. reflexivity.
Qed.

#[global] Instance cong_opp (n : Z) : Proper (cong n ==> cong n) Z.opp.
Proof.
  intros a a' Ha. change (- a) with (0 - a). change (- a') with (0 - a').
  rewrite Ha. reflexivity.
Qed.

Lemma cong_mod (n a : Z) : cong n (a mod n) a.
Proof. unfold cong. apply Zmod_mod. Qed.

Lemma cong_divide (n a b : Z) : n <> 0 -> (cong n a b <-> (n | a - b)).
Proof.
  intros Hn. unfold cong. split; intros H.
  - apply Z.mod_divide; [exact Hn|].
    rewrite Zminus_mod, H, Z.sub_diag. apply Z.mod_0_l. exact Hn.
  - destruct H as [k Hk].
    replace a with (b + k * n) by lia.
    apply Z_mod_plus_full.
Qed.

Lemma cong_modulus (n : Z) : cong n n 0.
Proof. unfold cong. rewrite Z_mod_same_full. symmetry. apply Zmod_0_l. Qed.

(** ** The two modular inverses compute inverses *)

Section Inverses.

Lemma pow2_bound (n : Z) : 0 < n -> n * n < 2 ^ (2 * Z.log2 n + 2).
Proof.
  intros Hn.
  pose proof (Z.log2_spec n Hn) as [_ Hlt].
  pose proof (Z.log2_nonneg n) as Hl.
  replace (2 * Z.log2 n + 2) with (Z.succ (Z.log2 n) + Z.succ (Z.log2 n)) by lia.
  rewrite Z.pow_add_r by lia.
  nia.
Qed.

Lemma inv_loop_spec (a n : Z) :
  forall fuel lm low hm high,
    0 <= low < high -> 1 < high ->
    low * high < 2 ^ Z.of_nat fuel ->
    cong n (lm * a) low -> cong n (hm * a) high ->
    Z.gcd low high = 1 ->
    cong n (PyEcc.inv_loop fuel lm low hm high * a) 1.
Proof.
  induction fuel as [|fuel IH]; intros lm low hm high Hr Hh Hf Hlm Hhm Hg.
  - exfalso. change (2 ^ Z.of_nat 0) with 1 in Hf.
    assert (low = 0) by nia. subst low.
    rewrite Z.gcd_0_l in Hg. lia.
  - cbn [PyEcc.inv_loop].
    destruct (Z.ltb_spec 1 low) as [Hlow|Hlow].
    + pose proof (Z.mod_pos_bound high low ltac:(lia)) as Hm.
      pose proof (Z.div_mod high low ltac:(lia)) as Hd.
      assert (Hq : 1 <= high / low) by (apply Z.div_le_lower_bound; lia).
      assert (Hnew : high - low * (high / low) = high mod low) by lia.
      apply IH.
      * lia.
      * lia.
      * rewrite Nat2Z.inj_succ, Z.pow_succ_r in Hf by lia.
        rewrite Hnew. nia.
      * replace ((hm - lm * (high / low)) * a)
          with (hm * a - (lm * a) * (high / low)) by ring.
        rewrite Hhm, Hlm. apply eq_refl.
      * exact Hlm.
      * rewrite Hnew. rewrite Z.gcd_mod by lia. exact Hg.
    + assert (low = 0 \/ low = 1) as [->| ->] by lia.
      * rewrite Z.gcd_0_l in Hg. lia.
      * exact Hlm.
Qed.

(** The fuel of [prime_field_inv] never runs out: more of it changes
    nothing. *)
Lemma inv_loop_stable :
  forall fuel lm low hm high extra,
    0 <= low < high ->
    low * high < 2 ^ Z.of_nat fuel ->
    PyEcc.inv_loop (fuel + extra) lm low hm high
    = PyEcc.inv_loop fuel lm low hm high.
Proof.
  induction fuel as [|fuel IH]; intros lm low hm high extra Hr Hf.
  - change (2 ^ Z.of_nat 0) with 1 in Hf.
    assert (low = 0) by nia. subst low.
    destruct extra; reflexivity.
  - cbn [Nat.add PyEcc.inv_loop].
    destruct (Z.ltb_spec 1 low) as [Hlow|Hlow]; [|reflexivity].
    pose proof (Z.mod_pos_bound high low ltac:(lia)) as Hm.
    pose proof (Z.div_mod high low ltac:(lia)) as Hd.
    assert (Hq : 1 <= high / low) by (apply Z.div_le_lower_bound; lia).
    apply IH; [lia|].
    rewrite Nat2Z.inj_succ, Z.pow_succ_r in Hf by lia. nia.
Qed.

Lemma prime_field_inv_fuel (a n : Z) (extra : nat) :
  0 < n ->
  PyEcc.inv_loop (PyEcc.inv_fuel n + extra) 1 (a mod n) 0 n
  = PyEcc.inv_loop (PyEcc.inv_fuel n) 1 (a mod n) 0 n.
Proof.
  intros Hn. pose proof (Z.mod_pos_bound a n Hn) as Hb.
  apply inv_loop_stable; [lia|].
  unfold PyEcc.inv_fuel. rewrite Z2Nat.id by (pose proof (Z.log2_nonneg n); lia).
  pose proof (pow2_bound n Hn). nia.
Qed.

Lemma prime_field_inv_zero (a n : Z) :
  a mod n = 0 -> PyEcc.prime_field_inv a n = 0.
Proof.
  intros H. unfold PyEcc.prime_field_inv. cbv zeta. rewrite H. reflexivity.
Qed.

Lemma prime_field_inv_spec (a n : Z) :
  1 < n -> Z.gcd a n = 1 ->
  cong n (PyEcc.prime_field_inv a n * a) 1.
Proof.
  intros Hn Hg. unfold PyEcc.prime_field_inv. cbv zeta.
  pose proof (Z.mod_pos_bound a n ltac:(lia)) as Hb.
  assert (Hg' : Z.gcd (a mod n) n = 1).
  { rewrite Z.gcd_mod by lia. rewrite Z.gcd_comm. exact Hg. }
  destruct (Z.eqb_spec (a mod n) 0) as [H0|H0].
  - rewrite H0, Z.gcd_0_l in Hg'. lia.
  - rewrite Zmod_mod.
    assert (Hl : cong n (PyEcc.inv_loop (PyEcc.inv_fuel n) 1 (a mod n) 0 n * (a mod n)) 1).
    { apply inv_loop_spec.
      - lia.
      - lia.
      - unfold PyEcc.inv_fuel. rewrite Z2Nat.id by (pose proof (Z.log2_nonneg n); lia).
        pose proof (pow2_bound n ltac:(lia)). nia.
      - rewrite Z.mul_1_l. reflexivity.
      - rewrite Z.mul_0_l. symmetry. apply cong_modulus.
      - exact Hg'. }
    rewrite cong_mod. rewrite <- Hl at 2.
    apply cong_mul; [reflexivity|]. symmetry. apply cong_mod.
Qed.

Lemma prime_field_inv_range (a n : Z) :
  0 < n -> 0 <= PyEcc.prime_field_inv a n < n.
Proof.
  intros Hn. unfold PyEcc.prime_field_inv. cbv zeta.
  destruct (a mod n =? 0); [lia|].
  apply Z.mod_pos_bound. exact Hn.
Qed.

Lemma euclid_loop_spec (u v : Z) :
  forall fuel u1 v1 u3 v3,
    0 <= v3 < u3 ->
    u3 * v3 < 2 ^ Z.of_nat fuel ->
    cong v (u1 * u) u3 -> cong v (v1 * u) v3 ->
    cong v (fst (Crypto.euclid_loop fuel u1 v1 u3 v3) * u) (Z.gcd u3 v3) /\
    snd (Crypto.euclid_loop fuel u1 v1 u3 v3) = Z.gcd u3 v3.
Proof.
  induction fuel as [|fuel IH]; intros u1 v1 u3 v3 Hr Hf Hu Hv.
  - change (2 ^ Z.of_nat 0) with 1 in Hf.
    assert (v3 = 0) by nia. subst v3.
    rewrite Z.gcd_0_r, Z.abs_eq by lia. cbn. split; [exact Hu|reflexivity].
  - cbn [Crypto.euclid_loop].
    destruct (Z.ltb_spec 0 v3) as [Hpos|Hpos].
    + pose proof (Z.mod_pos_bound u3 v3 Hpos) as Hm.
      pose proof (Z.div_mod u3 v3 ltac:(lia)) as Hd.
      assert (Hq : 1 <= u3 / v3) by (apply Z.div_le_lower_bound; lia).
      assert (Hnew : u3 - v3 * (u3 / v3) = u3 mod v3) by lia.
      assert (Hgcd : Z.gcd v3 (u3 mod v3) = Z.gcd u3 v3).
      { rewrite Z.gcd_comm, Z.gcd_mod by lia. apply Z.gcd_comm. }
      rewrite <- Hgcd, <- Hnew. apply IH.
      * lia.
      * rewrite Nat2Z.inj_succ, Z.pow_succ_r in Hf by lia. nia.
      * exact Hv.
      * replace ((u1 - v1 * (u3 / v3)) * u)
          with (u1 * u - (v1 * u) * (u3 / v3)) by ring.
        rewrite Hu, Hv. apply eq_refl.
    + assert (v3 = 0) by lia. subst v3.
      rewrite Z.gcd_0_r, Z.abs_eq by lia. cbn. split; [exact Hu|reflexivity].
Qed.

(** Nor does the fuel of [inverse]. *)
Lemma euclid_loop_stable :
  forall fuel u1 v1 u3 v3 extra,
    0 <= v3 < u3 ->
    u3 * v3 < 2 ^ Z.of_nat fuel ->
    Crypto.euclid_loop (fuel + extra) u1 v1 u3 v3
    = Crypto.euclid_loop fuel u1 v1 u3 v3.
Proof.
  induction fuel as [|fuel IH]; intros u1 v1 u3 v3 extra Hr Hf.
  - change (2 ^ Z.of_nat 0) with 1 in Hf.
    assert (v3 = 0) by nia. subst v3.
    destruct extra; reflexivity.
  - cbn [Nat.add Crypto.euclid_loop].
    destruct (Z.ltb_spec 0 v3) as [Hpos|Hpos]; [|reflexivity].
    pose proof (Z.mod_pos_bound u3 v3 Hpos) as Hm.
    pose proof (Z.div_mod u3 v3 ltac:(lia)) as Hd.
    assert (Hq : 1 <= u3 / v3) by (apply Z.div_le_lower_bound; lia).
    apply IH; [lia|].
    rewrite Nat2Z.inj_succ, Z.pow_succ_r in Hf by lia. nia.
Qed.

Lemma inverse_fuel (u v : Z) (extra : nat) :
  0 < v ->
  Crypto.euclid_loop (Crypto.euclid_fuel v + extra) 1 0 u v
  = Crypto.euclid_loop (Crypto.euclid_fuel v) 1 0 u v.
Proof.
  intros Hv. unfold Crypto.euclid_fuel. cbn [Nat.add Crypto.euclid_loop].
  destruct (Z.ltb_spec 0 v) as [_|?]; [|lia].
  pose proof (Z.mod_pos_bound u v Hv) as Hm.
  pose proof (Z.div_mod u v ltac:(lia)) as Hd.
  apply euclid_loop_stable; [lia|].
  rewrite Z2Nat.id by (pose proof (Z.log2_nonneg v); lia).
  pose proof (pow2_bound v Hv). nia.
Qed.

Lemma lift_loop_spec (v : Z) :
  0 < v ->
  forall fuel u1, - u1 <= Z.of_nat fuel * v ->
    0 <= Crypto.lift_loop fuel u1 v /\ cong v (Crypto.lift_loop fuel u1 v) u1.
Proof.
  intros Hv. induction fuel as [|fuel IH]; intros u1 Hf.
  - cbn. split; [lia|reflexivity].
  - cbn [Crypto.lift_loop].
    destruct (Z.ltb_spec u1 0) as [Hneg|Hneg].
    + destruct (IH (u1 + v) ltac:(lia)) as [H1 H2].
      split; [exact H1|]. rewrite H2.
      unfold cong. rewrite <- (Z_mod_plus_full u1 1 v). f_equal. lia.
    + split; [lia|reflexivity].
Qed.

Lemma lift_fuel_enough (u1 v : Z) :
  0 < v -> - u1 <= Z.of_nat (Z.to_nat (- u1 / v + 1)) * v.
Proof.
  intros Hv.
  destruct (Z.le_gt_cases 0 u1) as [Hpos|Hneg].
  - pose proof (Nat2Z.is_nonneg (Z.to_nat (- u1 / v + 1))). nia.
  - pose proof (Z.div_mod (- u1) v ltac:(lia)) as Hd.
    pose proof (Z.mod_pos_bound (- u1) v Hv) as Hm.
    assert (Hq : 0 <= - u1 / v) by (apply Z.div_pos; lia).
    rewrite Z2Nat.id by lia. nia.
Qed.

Lemma inverse_spec (u v : Z) :
  1 < v -> Z.gcd u v = 1 ->
  exists w, Crypto.inverse u v = Ok w /\ 0 <= w /\ cong v (w * u) 1.
Proof.
  intros Hv Hg. unfold Crypto.inverse.
  destruct (Z.eqb_spec v 0) as [?|_]; [lia|].
  destruct (Z.ltb_spec v 0) as [?|_]; [lia|].
  unfold Crypto.euclid_fuel. cbn [Crypto.euclid_loop].
  destruct (Z.ltb_spec 0 v) as [_|?]; [|lia].
  pose proof (Z.mod_pos_bound u v ltac:(lia)) as Hm.
  pose proof (Z.div_mod u v ltac:(lia)) as Hd.
  assert (Hnew : u - v * (u / v) = u mod v) by lia.
  rewrite Hnew.
  destruct (euclid_loop_spec u v (Z.to_nat (2 * Z.log2 v + 2))
              0 (1 - 0 * (u / v)) v (u mod v)) as [H1 H2].
  - lia.
  - rewrite Z2Nat.id by (pose proof (Z.log2_nonneg v); lia).
    pose proof (pow2_bound v ltac:(lia)). nia.
  - rewrite Z.mul_0_l. symmetry. apply cong_modulus.
  - replace ((1 - 0 * (u / v)) * u) with u by ring.
    symmetry. apply cong_mod.
  - assert (Hgcd : Z.gcd v (u mod v) = 1).
    { rewrite Z.gcd_comm, Z.gcd_mod by lia. rewrite Z.gcd_comm. exact Hg. }
    rewrite Hgcd in H1, H2.
    destruct (Crypto.euclid_loop _ _ _ _ _) as [u1 u3]. cbn in H1, H2.
    subst u3. cbn.
    destruct (lift_loop_spec v ltac:(lia) (Z.to_nat (- u1 / v + 1)) u1
                (lift_fuel_enough u1 v ltac:(lia))) as [L1 L2].
    eexists. split; [reflexivity|]. split; [exact L1|].
    rewrite L2. exact H1.
Qed.

Lemma inverse_no_inverse (u v : Z) :
  1 < v -> u mod v = 0 -> Crypto.inverse u v = Raise (ValueError NoInverse).
Proof.
  intros Hv H0. unfold Crypto.inverse.
  destruct (Z.eqb_spec v 0) as [?|_]; [lia|].
  destruct (Z.ltb_spec v 0) as [?|_]; [lia|].
  unfold Crypto.euclid_fuel. cbn [Crypto.euclid_loop].
  destruct (Z.ltb_spec 0 v) as [_|?]; [|lia].
  pose proof (Z.div_mod u v ltac:(lia)) as Hd.
  assert (Hnew : u - v * (u / v) = 0) by lia.
  rewrite Hnew.
  destruct (Z.to_nat (2 * Z.log2 v + 2)) as [|fuel]; cbn.
  - destruct (Z.eqb_spec v 1); [lia|reflexivity].
  - destruct (Z.eqb_spec v 1); [lia|reflexivity].
Qed.

End Inverses.

(** ** Polynomials over the integers and their roots modulo a prime *)

Section Polynomials.

Lemma peval_padd (a b : list Z) (z : Z) :
  peval (padd a b) z = peval a z + peval b z.
Proof.
  revert b. induction a as [|c a IH]; intros [|d b]; cbn; try lia.
  rewrite IH. ring.
Qed.

Lemma length_padd (a b : list Z) :
  length (padd a b) = Nat.max (length a) (length b).
Proof.
  revert b. induction a as [|c a IH]; intros [|d b]; cbn; try reflexivity.
  rewrite IH. reflexivity.
Qed.

Lemma peval_pscale (c : Z) (a : list Z) (z : Z) :
  peval (pscale c a) z = c * peval a z.
Proof.
  induction a as [|d a IH]; cbn; [ring|].
  unfold pscale in IH. rewrite IH. ring.
Qed.

Lemma peval_pmul_linear (r : Z) (a : list Z) (z : Z) :
  peval (pmul_linear r a) z = (z - r) * peval a z.
Proof.
  unfold pmul_linear. rewrite peval_padd, peval_pscale. cbn. ring.
Qed.

Lemma length_pmul_linear (r : Z) (a : list Z) :
  length (pmul_linear r a) = S (length a).
Proof.
  unfold pmul_linear, pscale. rewrite length_padd, length_map. cbn. lia.
Qed.

Lemma peval_pquot (cs : list Z) (a z : Z) :
  peval cs z = (z - a) * peval (pquot cs a) z + peval cs a.
Proof.
  induction cs as [|c cs IH]; [cbn; ring|].
  destruct cs as [|d cs]; [cbn; ring|].
  change (pquot (c :: d :: cs) a) with (peval (d :: cs) a :: pquot (d :: cs) a).
  change (peval (c :: d :: cs) z) with (c + z * peval (d :: cs) z).
  change (peval (c :: d :: cs) a) with (c + a * peval (d :: cs) a).
  change (peval (?e :: ?q) z) with (e + z * peval q z).
  rewrite IH at 1.
  change (peval (peval (d :: cs) a :: pquot (d :: cs) a) z)
    with (peval (d :: cs) a + z * peval (pquot (d :: cs) a) z).
  ring.
Qed.

Lemma length_pquot (cs : list Z) (a : Z) :
  length (pquot cs a) = Nat.pred (length cs).
Proof.
  induction cs as [|c cs IH]; [reflexivity|].
  destruct cs as [|d cs]; [reflexivity|].
  change (pquot (c :: d :: cs) a) with (peval (d :: cs) a :: pquot (d :: cs) a).
  cbn [length]. rewrite IH. reflexivity.
Qed.

Lemma is_poly_weaken (n m : nat) (f : Z -> Z) :
  (n <= m)%nat -> is_poly n f -> is_poly m f.
Proof.
  intros Hnm (cs & Hl & Hf). exists cs. split; [lia|exact Hf].
Qed.

Lemma is_poly_ext (n : nat) (f g : Z -> Z) :
  (forall z, f z = g z) -> is_poly n f -> is_poly n g.
Proof.
  intros Hfg (cs & Hl & Hf). exists cs. split; [exact Hl|].
  intros z. rewrite <- Hfg. apply Hf.
Qed.

Lemma is_poly_zero (n : nat) : is_poly n (fun _ => 0).
Proof. exists []. split; [cbn; lia|reflexivity]. Qed.

Lemma is_poly_const (c : Z) : is_poly 1 (fun _ => c).
Proof. exists [c]. split; [reflexivity|]. intros z. cbn. ring. Qed.

Lemma is_poly_peval (cs : list Z) : is_poly (length cs) (peval cs).
Proof. exists cs. split; [lia|reflexivity]. Qed.

Lemma is_poly_add (n : nat) (f g : Z -> Z) :
  is_poly n f -> is_poly n g -> is_poly n (fun z => f z + g z).
Proof.
  intros (a & Ha & Hf) (b & Hb & Hg). exists (padd a b). split.
  - rewrite length_padd. lia.
  - intros z. rewrite peval_padd, Hf, Hg. reflexivity.
Qed.

Lemma is_poly_scale (n : nat) (c : Z) (f : Z -> Z) :
  is_poly n f -> is_poly n (fun z => c * f z).
Proof.
  intros (a & Ha & Hf). exists (pscale c a). split.
  - unfold pscale. rewrite length_map. exact Ha.
  - intros z. rewrite peval_pscale, Hf. reflexivity.
Qed.

Lemma is_poly_sub (n : nat) (f g : Z -> Z) :
  is_poly n f -> is_poly n g -> is_poly n (fun z => f z - g z).
Proof.
  intros Hf Hg.
  apply (is_poly_ext n (fun z => f z + (-1) * g z)); [intros z; ring|].
  apply is_poly_add; [exact Hf|]. apply is_poly_scale. exact Hg.
Qed.

Lemma is_poly_linear (n : nat) (r : Z) (f : Z -> Z) :
  is_poly n f -> is_poly (S n) (fun z => (z - r) * f z).
Proof.
  intros (a & Ha & Hf). exists (pmul_linear r a). split.
  - rewrite length_pmul_linear. lia.
  - intros z. rewrite peval_pmul_linear, Hf. reflexivity.
Qed.

Lemma is_poly_prodl {A : Type} (pos : A -> Z) (l : list A) :
  is_poly (S (length l)) (fun z => prodl (fun b => z - pos b) l).
Proof.
  induction l as [|a l IH]; cbn [prodl length].
  - apply is_poly_const.
  - apply is_poly_linear. exact IH.
Qed.

Lemma is_poly_sum_splits {A : Type} (g : list A -> A -> list A -> Z -> Z)
  (n : nat) :
  forall rest pre,
    (forall before a post, rest = before ++ a :: post ->
       is_poly n (g (pre ++ before) a post)) ->
    is_poly n (fun z => sum_splits (fun p a q => g p a q z) pre rest).
Proof.
  induction rest as [|a rest IH]; intros pre H; cbn [sum_splits].
  - apply is_poly_zero.
  - apply is_poly_add.
    + specialize (H [] a rest eq_refl). rewrite app_nil_r in H. exact H.
    + apply IH. intros before b post ->.
      rewrite <- app_assoc. apply (H (a :: before) b post). reflexivity.
Qed.

(** A polynomial with fewer coefficients than it has roots that are
    distinct modulo the prime [p] vanishes modulo [p] everywhere. *)
Lemma peval_roots (p : Z) :
  Z.prime p ->
  forall xs cs,
    (length cs <= length xs)%nat ->
    distinct_mod p xs ->
    (forall x, In x xs -> cong p (peval cs x) 0) ->
    forall z, cong p (peval cs z) 0.
Proof.
  intros Hp.
  assert (Hp0 : p <> 0) by (destruct Hp; lia).
  induction xs as [|a xs IH]; intros cs Hlen Hd Hroots z.
  - destruct cs; [reflexivity|cbn in Hlen; lia].
  - rewrite (peval_pquot cs a z).
    rewrite (Hroots a (or_introl eq_refl)), Z.add_0_r.
    inversion Hd as [|? ? Hnotin Hd']; subst.
    rewrite (IH (pquot cs a)); [rewrite Z.mul_0_r; reflexivity| | exact Hd' |].
    + rewrite length_pquot. cbn in Hlen. lia.
    + intros x Hx.
      assert (Hx0 : cong p ((x - a) * peval (pquot cs a) x) 0).
      { replace ((x - a) * peval (pquot cs a) x)
          with (peval cs x - peval cs a) by (rewrite (peval_pquot cs a x); ring).
        rewrite (Hroots x (or_intror Hx)), (Hroots a (or_introl eq_refl)).
        reflexivity. }
      apply cong_divide in Hx0; [|exact Hp0]. rewrite Z.sub_0_r in Hx0.
      apply Z.divide_prime_mul in Hx0; [|exact Hp].
      destruct Hx0 as [Hxa|Hq].
      * exfalso. apply Hnotin.
        apply cong_divide in Hxa; [|exact Hp0].
        unfold cong in Hxa. rewrite <- Hxa.
        apply (in_map (fun x => x mod p)). exact Hx.
      * apply cong_divide; [exact Hp0|]. rewrite Z.sub_0_r. exact Hq.
Qed.

Lemma is_poly_roots (p : Z) (xs : list Z) (f : Z -> Z) :
  Z.prime p ->
  is_poly (length xs) f ->
  distinct_mod p xs ->
  (forall x, In x xs -> cong p (f x) 0) ->
  forall z, cong p (f z) 0.
Proof.
  intros Hp (cs & Hlen & Hf) Hd Hroots z. rewrite Hf.
  apply (peval_roots p Hp xs cs Hlen Hd).
  intros x Hx. rewrite <- Hf. apply Hroots. exact Hx.
Qed.

End Polynomials.

(** ** Lagrange interpolation at zero modulo a prime *)

Section Interpolation.

Import Shamir.

Variable p : Z.
Hypothesis p_prime : Z.prime p.

Lemma prime_gt_1 : 1 < p.
Proof. destruct p_prime. assumption. Qed.

Lemma prime_divide_mul (a b : Z) : (p | a * b) -> (p | a) \/ (p | b).
Proof. apply Z.divide_prime_mul. exact p_prime. Qed.

Lemma not_divide_gcd (a : Z) : ~ (p | a) -> Z.gcd a p = 1.
Proof.
  intros H. rewrite Z.gcd_comm. apply Z.coprime_prime_l; assumption.
Qed.

Lemma prodl_zero {A : Type} (f : A -> Z) (l : list A) (a : A) :
  In a l -> f a = 0 -> prodl f l = 0.
Proof.
  induction l as [|b l IH]; intros Hin H0; [destruct Hin|].
  cbn. destruct Hin as [->|Hin].
  - rewrite H0. ring.
  - rewrite IH by assumption. ring.
Qed.

Lemma prodl_not_divide {A : Type} (f : A -> Z) (l : list A) :
  (forall a, In a l -> ~ (p | f a)) -> ~ (p | prodl f l).
Proof.
  induction l as [|a l IH]; intros H Hdiv.
  - cbn in Hdiv. pose proof prime_gt_1.
    apply Z.divide_1_r in Hdiv. lia.
  - cbn in Hdiv. apply prime_divide_mul in Hdiv. destruct Hdiv as [Hd|Hd].
    + exact (H a (or_introl eq_refl) Hd).
    + apply IH; [|exact Hd]. intros b Hb. apply H. right. exact Hb.
Qed.

Lemma sum_splits_cong {A : Type} (g h : list A -> A -> list A -> Z) :
  forall rest pre,
    (forall before a post, rest = before ++ a :: post ->
       cong p (g (pre ++ before) a post) (h (pre ++ before) a post)) ->
    cong p (sum_splits g pre rest) (sum_splits h pre rest).
Proof.
  induction rest as [|a rest IH]; intros pre H; cbn [sum_splits].
  - reflexivity.
  - apply cong_add.
    + specialize (H [] a rest eq_refl). rewrite app_nil_r in H. exact H.
    + apply IH. intros before b post ->.
      rewrite <- app_assoc. apply (H (a :: before) b post). reflexivity.
Qed.

Lemma sum_splits_vanish {A : Type} (g : list A -> A -> list A -> Z) :
  forall rest pre,
    (forall before a post, rest = before ++ a :: post ->
       g (pre ++ before) a post = 0) ->
    sum_splits g pre rest = 0.
Proof.
  induction rest as [|a rest IH]; intros pre H; cbn [sum_splits].
  - reflexivity.
  - rewrite IH.
    + specialize (H [] a rest eq_refl). rewrite app_nil_r in H. lia.
    + intros before b post ->.
      rewrite <- app_assoc. apply (H (a :: before) b post). reflexivity.
Qed.

(** When every term but the one of the split [r1 ++ a :: r2] is zero, the
    sum is that term. *)
Lemma sum_splits_pick {A : Type} (g : list A -> A -> list A -> Z) :
  forall r1 pre a r2,
    (forall before b post, r1 ++ a :: r2 = before ++ b :: post ->
       length before <> length r1 -> g (pre ++ before) b post = 0) ->
    sum_splits g pre (r1 ++ a :: r2) = g (pre ++ r1) a r2.
Proof.
  induction r1 as [|c r1 IH]; intros pre a r2 H.
  - cbn [app sum_splits]. rewrite app_nil_r. rewrite sum_splits_vanish; [lia|].
    intros before b post ->. rewrite <- app_assoc.
    apply (H (a :: before) b post); [reflexivity|cbn; lia].
  - cbn [app sum_splits].
    rewrite (IH (pre ++ [c]) a r2).
    + rewrite <- app_assoc. cbn [app].
      specialize (H [] c (r1 ++ a :: r2) eq_refl). rewrite app_nil_r in H.
      rewrite H by (cbn; lia). lia.
    + intros before b post Heq Hlen. rewrite <- app_assoc.
      apply (H (c :: before) b post).
      * cbn [app]. rewrite Heq. reflexivity.
      * cbn. lia.
Qed.

(** In a list split in two ways at different places, the element of one
    split is among the others of the second. *)
Lemma split_other {A : Type} (a b : A) :
  forall r1 r2 before post,
    r1 ++ a :: r2 = before ++ b :: post ->
    length before <> length r1 ->
    In a (before ++ post).
Proof.
  induction r1 as [|c r1 IH]; intros r2 before post Heq Hlen.
  - destruct before as [|c before]; [cbn in Hlen; lia|].
    cbn in Heq. injection Heq as -> _. left. reflexivity.
  - destruct before as [|c' before].
    + cbn in Heq. injection Heq as _ <-. cbn.
      apply in_or_app. right. left. reflexivity.
    + cbn in Heq. injection Heq as _ Heq. cbn [app]. right.
      apply (IH r2 before post Heq). cbn in Hlen. lia.
Qed.

Lemma distinct_split (ss pre post : list SecretShare) (a b : SecretShare) :
  distinct_mod p (map x ss) -> ss = pre ++ a :: post ->
  In b (pre ++ post) -> ~ (p | x a - x b).
Proof.
  unfold distinct_mod. intros Hd -> Hb Hdiv.
  rewrite !map_app in Hd. cbn [map] in Hd.
  apply NoDup_remove_2 in Hd. apply Hd.
  pose proof prime_gt_1.
  apply cong_divide in Hdiv; [|lia]. unfold cong in Hdiv. rewrite Hdiv.
  rewrite <- !map_app.
  apply (in_map (fun z => z mod p)), (in_map x). exact Hb.
Qed.

Lemma basis_den_invertible (ss pre post : list SecretShare) (a : SecretShare) :
  distinct_mod p (map x ss) -> ss = pre ++ a :: post ->
  Z.gcd (basis_den a pre post) p = 1.
Proof.
  intros Hd Hss. apply not_divide_gcd. unfold basis_den.
  apply prodl_not_divide. intros b Hb.
  apply (distinct_split ss pre post a b Hd Hss Hb).
Qed.

(** Weights [w] that are the Lagrange coefficients at zero of the positions
    of [ss] recover the constant term of a polynomial with at most as many
    coefficients as there are shares. *)
Theorem lagrange_at_zero (ss : list SecretShare) (cs : list Z)
  (w : list SecretShare -> SecretShare -> list SecretShare -> Z) :
  distinct_mod p (map x ss) ->
  (length cs <= length ss)%nat ->
  (forall b, In b ss -> cong p (y b) (peval cs (x b))) ->
  (forall pre a post, ss = pre ++ a :: post ->
     cong p (w pre a post * basis_den a pre post) (basis_num pre post)) ->
  cong p (sum_splits (fun pre a post => y a * w pre a post) [] ss) (peval cs 0).
Proof.
  intros Hd Hlen Hy Hw.
  pose proof prime_gt_1 as Hp1.
  set (d := fun pre a post => PyEcc.prime_field_inv (basis_den a pre post) p).
  assert (Hinv : forall pre a post, ss = pre ++ a :: post ->
            cong p (d pre a post * basis_den a pre post) 1).
  { intros pre a post Hss. apply prime_field_inv_spec; [exact Hp1|].
    apply (basis_den_invertible ss); assumption. }
  assert (Hwd : forall pre a post, ss = pre ++ a :: post ->
            cong p (w pre a post) (d pre a post * basis_num pre post)).
  { intros pre a post Hss.
    rewrite <- (Hw pre a post Hss).
    replace (d pre a post * (w pre a post * basis_den a pre post))
      with (w pre a post * (d pre a post * basis_den a pre post)) by ring.
    rewrite (Hinv pre a post Hss), Z.mul_1_r. reflexivity. }
  set (F := fun z =>
    sum_splits (fun pre a post =>
      (y a * d pre a post) * prodl (fun b => z - x b) (pre ++ post)) [] ss
    - peval cs z).
  assert (HF : forall z, cong p (F z) 0).
  { apply (is_poly_roots p (map x ss)); [exact p_prime| |exact Hd|].
    - rewrite length_map. apply is_poly_sub.
      + apply (is_poly_sum_splits
                 (fun pre a post z =>
                    (y a * d pre a post) * prodl (fun b => z - x b) (pre ++ post))).
        intros before a post Hss. apply is_poly_scale.
        apply (is_poly_weaken (S (length ([] ++ before ++ post)))).
        * rewrite Hss. cbn [app]. rewrite !length_app. cbn. lia.
        * apply (is_poly_prodl x).
      + apply (is_poly_weaken (length cs)); [exact Hlen|]. apply is_poly_peval.
    - intros x0 Hx0. apply in_map_iff in Hx0. destruct Hx0 as (a & <- & Ha).
      destruct (in_split a ss Ha) as (pre & post & Hss).
      unfold F. rewrite Hss at 1.
      rewrite (sum_splits_pick _ pre [] a post).
      + cbn [app].
        change (prodl (fun b => x a - x b) (pre ++ post)) with (basis_den a pre post).
        replace (y a * d pre a post * basis_den a pre post)
          with (y a * (d pre a post * basis_den a pre post)) by ring.
        rewrite (Hinv pre a post Hss), Z.mul_1_r.
        rewrite (Hy a Ha), Z.sub_diag. reflexivity.
      + intros before b post' Heq Hne. cbn [app].
        rewrite (prodl_zero _ _ a); [ring| |ring].
        apply (split_other a b pre post before post' Heq Hne). }
  specialize (HF 0). unfold F in HF.
  assert (Hgoal : cong p
    (sum_splits (fun pre a post => y a * w pre a post) [] ss)
    (sum_splits (fun pre a post =>
       (y a * d pre a post) * prodl (fun b => 0 - x b) (pre ++ post)) [] ss)).
  { apply sum_splits_cong. intros before a post Hss. cbn [app].
    rewrite (Hwd before a post Hss).
    unfold basis_num.
    change (prodl (fun b => 0 - x b) (before ++ post))
      with (prodl (fun b => - x b) (before ++ post)).
    replace (y a * d before a post * prodl (fun b => - x b) (before ++ post))
      with (y a * (d before a post * prodl (fun b => - x b) (before ++ post))) by ring.
    reflexivity. }
  rewrite Hgoal.
  apply cong_divide; [lia|]. apply cong_divide in HF; [|lia].
  rewrite Z.sub_0_r in HF. exact HF.
Qed.

End Interpolation.

(** ** The code of [ShamirSecretSharing] *)

Ltac cong_ring :=
  match goal with
  | |- cong ?n ?a ?b => apply (f_equal (fun t => t mod n)); ring
  end.

Section ShamirCode.

Import Shamir.

Variable p : Z.
Hypothesis p_prime : Z.prime p.

Variable field_inv : Z -> Z -> result Z.
Hypothesis field_inv_ok : inverts p field_inv.

Lemma prime_field_inv_inverts : inverts p (fun a n => Ok (PyEcc.prime_field_inv a n)).
Proof.
  intros d Hd. eexists. split; [reflexivity|].
  apply prime_field_inv_spec.
  - apply (prime_gt_1 p p_prime).
  - apply (not_divide_gcd p p_prime). exact Hd.
Qed.

Lemma inverse_inverts : inverts p Crypto.inverse.
Proof.
  intros d Hd.
  destruct (inverse_spec d p) as (w & Hw & _ & Hc).
  - apply (prime_gt_1 p p_prime).
  - apply (not_divide_gcd p p_prime). exact Hd.
  - exists w. split; assumption.
Qed.

Lemma evaluate_loop_spec (x : Z) :
  forall cs i res,
    cong p (evaluate_loop p i cs x res) (res + x ^ Z.of_nat i * peval cs x).
Proof.
  induction cs as [|c cs IH]; intros i res; cbn [evaluate_loop peval].
  - cong_ring.
  - rewrite IH. unfold pow_mod. rewrite !cong_mod.
    rewrite Nat2Z.inj_succ, Z.pow_succ_r by lia.
    cong_ring.
Qed.

Lemma evaluate_loop_range (x : Z) :
  forall cs i res, 0 <= res < p -> 0 <= evaluate_loop p i cs x res < p.
Proof.
  pose proof (prime_gt_1 p p_prime) as Hp.
  induction cs as [|c cs IH]; intros i res Hres; cbn [evaluate_loop].
  - exact Hres.
  - apply IH. apply Z.mod_pos_bound. lia.
Qed.

Lemma evaluate_polynomial_spec (cs : list Z) (x : Z) :
  evaluate_polynomial p cs x = peval cs x mod p.
Proof.
  pose proof (prime_gt_1 p p_prime) as Hp.
  unfold evaluate_polynomial.
  rewrite <- (Z.mod_small (evaluate_loop p 0 cs x 0) p)
    by (apply evaluate_loop_range; lia).
  pose proof (evaluate_loop_spec x cs 0%nat 0) as H.
  unfold cong in H. rewrite H. f_equal.
  change (Z.of_nat 0) with 0. rewrite Z.pow_0_r. ring.
Qed.

Lemma lagrange_loop_skip (xi : Z) (i : nat) :
  forall rest j numerator denominator,
    (i < j)%nat ->
    cong p (fst (lagrange_loop p xi i j rest numerator denominator))
           (numerator * prodl (fun b => - x b) rest) /\
    cong p (snd (lagrange_loop p xi i j rest numerator denominator))
           (denominator * prodl (fun b => xi - x b) rest).
Proof.
  induction rest as [|c rest IH]; intros j num den Hij; cbn [lagrange_loop prodl].
  - cbn [fst snd]. split; cong_ring.
  - destruct (Nat.eqb_spec i j) as [?|_]; [lia|].
    destruct (IH (S j) ((num * - x c) mod p) ((den * (xi - x c)) mod p)
                ltac:(lia)) as [H1 H2].
    rewrite H1, H2, !cong_mod. split; cong_ring.
Qed.

Lemma lagrange_loop_split (xi : Z) (i : nat) :
  forall pre j a post numerator denominator,
    i = (j + length pre)%nat ->
    cong p (fst (lagrange_loop p xi i j (pre ++ a :: post) numerator denominator))
           (numerator * prodl (fun b => - x b) (pre ++ post)) /\
    cong p (snd (lagrange_loop p xi i j (pre ++ a :: post) numerator denominator))
           (denominator * prodl (fun b => xi - x b) (pre ++ post)).
Proof.
  induction pre as [|c pre IH]; intros j a post num den Hi;
    cbn [app lagrange_loop prodl].
  - destruct (Nat.eqb_spec i j) as [_|?]; [|cbn [length] in Hi; lia].
    apply lagrange_loop_skip. cbn [length] in Hi. lia.
  - destruct (Nat.eqb_spec i j) as [?|_]; [cbn [length] in Hi; lia|].
    destruct (IH (S j) a post ((num * - x c) mod p) ((den * (xi - x c)) mod p))
      as [H1 H2]; [cbn [length] in Hi; lia|].
    rewrite H1, H2, !cong_mod. split; cong_ring.
Qed.

Lemma getitem_split {A : Type} (pre post : list A) (a : A) :
  getitem (pre ++ a :: post) (Z.of_nat (length pre)) = Ok a.
Proof.
  unfold getitem.
  destruct (Z.ltb_spec (Z.of_nat (length pre)) 0) as [?|_]; [lia|].
  destruct (Z.ltb_spec (Z.of_nat (length pre)) 0) as [?|_]; [lia|].
  rewrite Nat2Z.id, nth_error_app2, Nat.sub_diag by lia. reflexivity.
Qed.

Lemma cong_not_divide (a b : Z) : cong p a b -> ~ (p | b) -> ~ (p | a).
Proof.
  pose proof (prime_gt_1 p p_prime) as Hp.
  intros Hab Hb Ha. apply Hb.
  apply Z.mod_divide; [lia|]. unfold cong in Hab. rewrite <- Hab.
  apply Z.mod_divide; [lia|exact Ha].
Qed.

(** [lagrange_coefficient] returns the Lagrange coefficient at zero. *)
Lemma lagrange_coefficient_spec (pre post : list SecretShare) (a : SecretShare) :
  distinct_mod p (map x (pre ++ a :: post)) ->
  exists c,
    lagrange_coefficient p field_inv (pre ++ a :: post) (length pre) = Ok c /\
    0 <= c < p /\
    cong p (c * basis_den a pre post) (basis_num pre post).
Proof.
  intros Hd. pose proof (prime_gt_1 p p_prime) as Hp.
  unfold lagrange_coefficient. rewrite getitem_split. cbn [bind].
  destruct (lagrange_loop_split (x a) (length pre) pre 0 a post 1 1 eq_refl)
    as [Hn Hden].
  destruct (lagrange_loop p (x a) (length pre) 0 (pre ++ a :: post) 1 1)
    as [num den]. cbn [fst snd] in Hn, Hden.
  rewrite Z.mul_1_l in Hn, Hden.
  fold (basis_num pre post) in Hn. fold (basis_den a pre post) in Hden.
  destruct (field_inv_ok den) as (w & Hw & Hinv).
  { apply (cong_not_divide _ _ Hden). unfold basis_den.
    apply (prodl_not_divide p p_prime). intros b Hb.
    apply (distinct_split p p_prime _ pre post a b Hd eq_refl Hb). }
  rewrite Hw. cbn [bind]. eexists. split; [reflexivity|]. split.
  - apply Z.mod_pos_bound. lia.
  - rewrite cong_mod, <- Hden, <- Hn.
    replace (num * w * den) with (num * (w * den)) by ring.
    rewrite Hinv. cong_ring.
Qed.

Lemma coefficient_spec (pre post : list SecretShare) (a : SecretShare) :
  distinct_mod p (map x (pre ++ a :: post)) ->
  lagrange_coefficient p field_inv (pre ++ a :: post) (length pre)
    = Ok (coefficient p field_inv (pre ++ a :: post) (length pre)) /\
  0 <= coefficient p field_inv (pre ++ a :: post) (length pre) < p /\
  cong p (coefficient p field_inv (pre ++ a :: post) (length pre)
            * basis_den a pre post)
         (basis_num pre post).
Proof.
  intros Hd. destruct (lagrange_coefficient_spec pre post a Hd) as (c & Hc & Hr & Hb).
  unfold coefficient. rewrite Hc. auto.
Qed.

Lemma reconstruct_loop_spec :
  forall rest pre secret,
    distinct_mod p (map x (pre ++ rest)) ->
    0 <= secret < p ->
    exists v,
      reconstruct_loop p field_inv (pre ++ rest) (length pre) rest secret = Ok v /\
      0 <= v < p /\
      cong p v
        (secret + sum_splits
           (fun q a r => y a * coefficient p field_inv (q ++ a :: r) (length q))
           pre rest).
Proof.
  pose proof (prime_gt_1 p p_prime) as Hp.
  induction rest as [|a rest IH]; intros pre secret Hd Hs;
    cbn [reconstruct_loop sum_splits].
  - exists secret. split; [reflexivity|]. split; [exact Hs|]. cong_ring.
  - destruct (coefficient_spec pre rest a Hd) as (Hc & _ & _).
    rewrite Hc. cbn [bind].
    set (c := coefficient p field_inv (pre ++ a :: rest) (length pre)).
    destruct (IH (pre ++ [a]) ((secret + y a * c) mod p)) as (v & Hv & Hr & Hcong).
    + rewrite <- app_assoc. exact Hd.
    + apply Z.mod_pos_bound. lia.
    + rewrite <- app_assoc in Hv. cbn [app] in Hv.
      rewrite length_app in Hv. cbn [length] in Hv.
      rewrite Nat.add_1_r in Hv.
      exists v. split; [exact Hv|]. split; [exact Hr|].
      rewrite Hcong, cong_mod. cong_ring.
Qed.

(** Reconstruction from shares of a polynomial, at positions distinct
    modulo [p], gives its constant term. *)
Lemma reconstruct_shares (shares : list SecretShare) (cs : list Z) :
  distinct_mod p (map x shares) ->
  (length cs <= length shares)%nat ->
  (forall b, In b shares -> cong p (y b) (peval cs (x b))) ->
  reconstruct_loop p field_inv shares 0 shares 0 = Ok (peval cs 0 mod p).
Proof.
  intros Hd Hlen Hy. pose proof (prime_gt_1 p p_prime) as Hp.
  destruct (reconstruct_loop_spec shares [] 0 Hd ltac:(lia)) as (v & Hv & Hr & Hc).
  cbn [app length] in Hv. rewrite Hv. f_equal.
  rewrite <- (Z.mod_small v p Hr).
  rewrite Z.add_0_l in Hc.
  assert (H : cong p v (peval cs 0)); [|exact H].
  rewrite Hc.
  apply (lagrange_at_zero p p_prime shares cs
           (fun q a r => coefficient p field_inv (q ++ a :: r) (length q)));
    try assumption.
  intros pre a post Hss. apply coefficient_spec. rewrite <- Hss. exact Hd.
Qed.

End ShamirCode.

(** ** The combination of BLS partial signatures *)

Section BLSCombine.

Import Shamir.

Variable affine : Type.
Variable add : option affine -> option affine -> option affine.
Variable multiply : option affine -> Z -> option affine.
Variable p : Z.

Local Abbreviation partial := (BLS.BLSPartialSignature affine).
Local Abbreviation sid := (BLS.signer_id affine).
Local Abbreviation sg := (BLS.signature affine).
Local Abbreviation pfi := (fun a n : Z => Ok (PyEcc.prime_field_inv a n)).

Lemma pfi_mod (a : Z) : PyEcc.prime_field_inv (a mod p) p = PyEcc.prime_field_inv a p.
Proof. unfold PyEcc.prime_field_inv. cbv zeta. rewrite !Zmod_mod. reflexivity. Qed.

Lemma pfi_cong (a b : Z) :
  cong p a b -> PyEcc.prime_field_inv a p = PyEcc.prime_field_inv b p.
Proof.
  intros H. rewrite <- (pfi_mod a), <- (pfi_mod b). unfold cong in H.
  rewrite H. reflexivity.
Qed.

(** With [prime_field_inv], [lagrange_coefficient] never raises on an index
    of the list, whatever the positions are. *)
Lemma bls_coefficient_closed (pre post : list SecretShare) (a : SecretShare) :
  lagrange_coefficient p pfi (pre ++ a :: post) (length pre)
  = Ok ((basis_num pre post
          * PyEcc.prime_field_inv (basis_den a pre post) p) mod p).
Proof.
  unfold lagrange_coefficient. rewrite getitem_split. cbn [bind].
  destruct (lagrange_loop_split p (x a) (length pre) pre 0 a post 1 1 eq_refl)
    as [Hn Hd].
  destruct (lagrange_loop p (x a) (length pre) 0 (pre ++ a :: post) 1 1)
    as [num den]. cbn [fst snd] in Hn, Hd. cbn [bind].
  rewrite Z.mul_1_l in Hn, Hd.
  fold (basis_num pre post) in Hn. fold (basis_den a pre post) in Hd.
  rewrite (pfi_cong den _ Hd). f_equal.
  assert (H : cong p (num * PyEcc.prime_field_inv (basis_den a pre post) p)
                (basis_num pre post
                 * PyEcc.prime_field_inv (basis_den a pre post) p));
    [|exact H].
  rewrite Hn. reflexivity.
Qed.

Lemma bls_coefficient_weight (pre post : list SecretShare) (a : SecretShare) :
  BLS.lagrange_coefficient p (pre ++ a :: post) (length pre)
  = Ok (weight p a (pre ++ post)).
Proof. apply bls_coefficient_closed. Qed.

Lemma bls_coefficient_dummy (pre post : list partial) (a : partial) :
  BLS.lagrange_coefficient p (map dummy_share (pre ++ a :: post)) (length pre)
  = Ok (weight p (dummy_share a) (map dummy_share (pre ++ post))).
Proof.
  rewrite !map_app. cbn [map].
  rewrite <- (length_map dummy_share pre).
  apply bls_coefficient_weight.
Qed.

Lemma combine_loop_total :
  forall rest pre combined,
    exists sigma,
      BLS.combine_loop affine add multiply p
        (map dummy_share (pre ++ rest)) (length pre) rest combined
      = Ok sigma.
Proof.
  induction rest as [|a rest IH]; intros pre combined; cbn [BLS.combine_loop].
  - eexists. reflexivity.
  - rewrite bls_coefficient_dummy. cbn [bind].
    replace (pre ++ a :: rest) with ((pre ++ [a]) ++ rest)
      by (rewrite <- app_assoc; reflexivity).
    replace (S (length pre)) with (length (pre ++ [a]))
      by (rewrite length_app; cbn; lia).
    apply IH.
Qed.

Hypothesis add_ok : add_laws add.

Lemma add_None_r (P : option affine) : add P None = P.
Proof. rewrite (add_comm add add_ok). apply (add_None_l add add_ok). Qed.

Local Abbreviation weighted_sig := (weighted multiply p).

Lemma combine_loop_spec :
  forall rest pre combined,
    BLS.combine_loop affine add multiply p
      (map dummy_share (pre ++ rest)) (length pre) rest combined
    = Ok (add combined
            (gsum_splits add (fun q a r => weighted_sig a (q ++ r)) pre rest)).
Proof.
  induction rest as [|a rest IH]; intros pre combined;
    cbn [BLS.combine_loop gsum_splits].
  - rewrite add_None_r. reflexivity.
  - rewrite bls_coefficient_dummy. cbn [bind].
    change (multiply (BLS.signature affine a)
              (weight p (dummy_share a) (map dummy_share (pre ++ rest))))
      with (weighted_sig a (pre ++ rest)).
    assert (Hacc : match combined with
                   | Some _ => add combined (weighted_sig a (pre ++ rest))
                   | None => weighted_sig a (pre ++ rest)
                   end = add combined (weighted_sig a (pre ++ rest))).
    { destruct combined; [reflexivity|].
      rewrite (add_None_l add add_ok). reflexivity. }
    rewrite Hacc.
    replace (pre ++ a :: rest) with ((pre ++ [a]) ++ rest)
      by (rewrite <- app_assoc; reflexivity).
    replace (S (length pre)) with (length (pre ++ [a]))
      by (rewrite length_app; cbn; lia).
    rewrite IH. rewrite (add_assoc add add_ok). reflexivity.
Qed.

Lemma slice_to_firstn {A : Type} (l : list A) (t : Z) :
  0 <= t -> slice_to l t = firstn (Z.to_nat t) l.
Proof.
  intros Ht. unfold slice_to.
  destruct (Z.ltb_spec t 0); [lia|reflexivity].
Qed.

Lemma slice_to_all {A : Type} (l : list A) : slice_to l (len l) = l.
Proof.
  unfold len. rewrite slice_to_firstn by lia.
  rewrite Nat2Z.id. apply firstn_all.
Qed.

Lemma slice_to_len {A : Type} (l : list A) (t : Z) :
  len l = t -> slice_to l t = l.
Proof. intros <-. apply slice_to_all. Qed.

Lemma len_slice_to {A : Type} (l : list A) (t : Z) :
  0 <= t <= len l -> len (slice_to l t) = t.
Proof.
  intros Ht. rewrite slice_to_firstn by lia. unfold len in *.
  rewrite length_firstn. lia.
Qed.

Lemma combine_signatures_spec {affine2 : Type}
  (self : BLS.BLSThresholdSignature affine2) (partial_sigs : list partial) :
  0 <= BLS.threshold affine2 self <= len partial_sigs ->
  BLS.combine_signatures affine affine2 add multiply p self partial_sigs
  = Ok (gsum_splits add (fun q a r => weighted_sig a (q ++ r)) []
          (slice_to partial_sigs (BLS.threshold affine2 self))).
Proof.
  intros Ht. unfold BLS.combine_signatures.
  destruct (Z.ltb_spec (len partial_sigs) (BLS.threshold affine2 self)); [lia|].
  pose proof (combine_loop_spec
                (slice_to partial_sigs (BLS.threshold affine2 self)) [] None) as Hl.
  rewrite (add_None_l add add_ok) in Hl. exact Hl.
Qed.

Lemma weight_duplicate (a : SecretShare) (others : list SecretShare) :
  (exists b, In b others /\ x b = x a) -> weight p a others = 0.
Proof.
  intros (b & Hb & Hx). unfold weight.
  rewrite (prodl_zero (fun c => x a - x c) others b Hb) by lia.
  rewrite prime_field_inv_zero by apply Zmod_0_l.
  rewrite Z.mul_0_r. apply Zmod_0_l.
Qed.

Lemma prodl_perm {A : Type} (f : A -> Z) (l l' : list A) :
  Permutation l l' -> prodl f l = prodl f l'.
Proof.
  induction 1 as [|a l l' _ IH|a b l|l l' l'' _ IH1 _ IH2]; cbn [prodl].
  - reflexivity.
  - rewrite IH. reflexivity.
  - ring.
  - rewrite IH1. exact IH2.
Qed.

Lemma weighted_perm (a : partial) (others others' : list partial) :
  Permutation others others' -> weighted_sig a others = weighted_sig a others'.
Proof.
  intros H. unfold weighted, weight.
  rewrite (prodl_perm _ _ _ (Permutation_map dummy_share H)).
  rewrite (prodl_perm (fun b => x (dummy_share a) - x b) _ _
             (Permutation_map dummy_share H)).
  reflexivity.
Qed.

Lemma gsum_splits_pre_perm :
  forall rest pre pre',
    Permutation pre pre' ->
    gsum_splits add (fun q a r => weighted_sig a (q ++ r)) pre rest
    = gsum_splits add (fun q a r => weighted_sig a (q ++ r)) pre' rest.
Proof.
  induction rest as [|a rest IH]; intros pre pre' H; cbn [gsum_splits].
  - reflexivity.
  - rewrite (weighted_perm a (pre ++ rest) (pre' ++ rest))
      by (apply Permutation_app_tail; exact H).
    rewrite (IH (pre ++ [a]) (pre' ++ [a]))
      by (apply Permutation_app_tail; exact H).
    reflexivity.
Qed.

(** The sum of the weighted partial signatures does not depend on their
    order. *)
Lemma gsum_splits_perm (l l' : list partial) :
  Permutation l l' ->
  forall pre,
    gsum_splits add (fun q a r => weighted_sig a (q ++ r)) pre l
    = gsum_splits add (fun q a r => weighted_sig a (q ++ r)) pre l'.
Proof.
  induction 1 as [|a l l' Hl IH|a b l|l l' l'' _ IH1 _ IH2]; intros pre.
  - reflexivity.
  - cbn [gsum_splits].
    rewrite (weighted_perm a (pre ++ l) (pre ++ l'))
      by (apply Permutation_app_head; exact Hl).
    rewrite IH. reflexivity.
  - cbn [gsum_splits].
    rewrite (weighted_perm b (pre ++ a :: l) ((pre ++ [a]) ++ l))
      by (rewrite <- app_assoc; reflexivity).
    rewrite (weighted_perm a (pre ++ b :: l) ((pre ++ [b]) ++ l))
      by (rewrite <- app_assoc; reflexivity).
    rewrite (gsum_splits_pre_perm l ((pre ++ [b]) ++ [a]) ((pre ++ [a]) ++ [b])).
    + rewrite !(add_assoc add add_ok).
      f_equal. apply (add_comm add add_ok).
    + rewrite <- !app_assoc. apply Permutation_app_head. cbn. apply perm_swap.
  - rewrite IH1. apply IH2.
Qed.

End BLSCombine.

(** ** The small instances satisfy what is assumed of the libraries *)

Section ToyFacts.

Lemma prime_7 : Z.prime 7.
Proof.
  split; [lia|]. intros n Hn Hdiv.
  apply Z.mod_divide in Hdiv; [|lia].
  assert (Hc : n = 2 \/ n = 3 \/ n = 4 \/ n = 5 \/ n = 6) by lia.
  destruct Hc as [->|[->|[->|[->| ->]]]]; discriminate Hdiv.
Qed.

Lemma toy_exp_log (P : option Toy.affine) : Toy.exp (Toy.log P) = P.
Proof. destruct P as [[]|]; reflexivity. Qed.

Lemma toy_log_exp (z : Z) : Toy.log (Toy.exp z) = z mod 7.
Proof.
  unfold Toy.exp. pose proof (Z.mod_pos_bound z 7 ltac:(lia)) as Hb.
  remember (z mod 7) as r eqn:Hr. clear Hr.
  assert (Hc : r = 0 \/ r = 1 \/ r = 2 \/ r = 3 \/ r = 4 \/ r = 5 \/ r = 6) by lia.
  destruct Hc as [->|[->|[->|[->|[->|[->| ->]]]]]]; reflexivity.
Qed.

Lemma toy_exp_mod (z : Z) : Toy.exp (z mod 7) = Toy.exp z.
Proof. unfold Toy.exp. rewrite Zmod_mod. reflexivity. Qed.

Lemma toy_exp_cong (a b : Z) : cong 7 a b -> Toy.exp a = Toy.exp b.
Proof.
  intros H. rewrite <- (toy_exp_mod a), <- (toy_exp_mod b).
  unfold cong in H. rewrite H. reflexivity.
Qed.

Lemma toy_add_laws : add_laws Toy.add.
Proof.
  split; unfold Toy.add.
  - intros Q. cbn [Toy.log]. rewrite Z.add_0_l. apply toy_exp_log.
  - intros P Q. f_equal. ring.
  - intros P Q R. rewrite !toy_log_exp. apply toy_exp_cong.
    rewrite !cong_mod. cong_ring.
Qed.

Lemma toy_multiply_laws : multiply_laws Toy.add Toy.multiply 7.
Proof.
  split; unfold Toy.add, Toy.multiply.
  - intros P. rewrite Z.mul_0_r. reflexivity.
  - intros P a b _ _. rewrite !toy_log_exp. apply toy_exp_cong.
    rewrite !cong_mod. cong_ring.
  - intros P a b _ _. rewrite !toy_log_exp. apply toy_exp_cong.
    rewrite !cong_mod. cong_ring.
  - intros P. change None with (Toy.exp 0). apply toy_exp_cong. unfold cong.
    rewrite Z_mod_mult. reflexivity.
Qed.

End ToyFacts.

(** ** The scenarios of the two [main] functions on the small instances *)

Section Scenarios.

Example prime_field_inv_3_7 : PyEcc.prime_field_inv 3 7 = 5.
Proof. reflexivity. Qed.

Example prime_field_inv_0_7 : PyEcc.prime_field_inv 0 7 = 0.
Proof. reflexivity. Qed.

Example inverse_3_7 : Crypto.inverse 3 7 = Ok 5.
Proof. reflexivity. Qed.

Example inverse_0_7 : Crypto.inverse 0 7 = Raise (ValueError NoInverse).
Proof. reflexivity. Qed.

(** The two inverses and the reconstruction run at the size of the real
    moduli. *)
Example prime_field_inv_16 :
  (16 * PyEcc.prime_field_inv 16 PyEcc.curve_order) mod PyEcc.curve_order = 1.
Proof. vm_compute. reflexivity. Qed.

Example reconstruct_secp256k1 :
  Shamir.reconstruct_secret ECDSA.secp256k1_order Crypto.inverse 3
    (map (fun z => Shamir.mkShare z
            (Shamir.evaluate_polynomial ECDSA.secp256k1_order
               [0x1F2E3D4C5B6A79880123456789ABCDEF0FEDCBA9876543211122334455667788;
                0xA5A5A5A5A5A5A5A5A5A5A5A5A5A5A5A5A5A5A5A5A5A5A5A5A5A5A5A5A5A5A5A5;
                0x0123456789ABCDEF0123456789ABCDEF0123456789ABCDEF0123456789ABCDEF]
               z))
       [2; 4; 5])
  = Ok 0x1F2E3D4C5B6A79880123456789ABCDEF0FEDCBA9876543211122334455667788.
Proof. vm_compute. reflexivity. Qed.

(** SECP256k1 has a point whose x-coordinate is the order of its group,
    hence [0] modulo the order. *)
Example secp256k1_point_of_zero_r :
  let x := ECDSA.secp256k1_order in
  let y := 0x98F66641CB0AE1776B463EBDEE3D77FE2658F021DB48E2C8AC7AB4C92F83621E in
  (y * y) mod ECDSA.secp256k1_field = (x * x * x + 7) mod ECDSA.secp256k1_field /\
  0 < x < ECDSA.secp256k1_field /\
  x mod ECDSA.secp256k1_order = 0.
Proof. vm_compute. repeat split. Qed.

Example toy_private_shares :
  map Shamir.y (BLS.private_shares Toy.affine Toy.bls) = [3; 6; 5; 0; 5].
Proof. reflexivity. Qed.

(** Signers 1, 3, 5 and signers 2, 4, 5 give the same aggregate, three
    times the hash point. *)
Example toy_quorum_1_3_5 :
  Toy.combine_signatures
    [BLS.mkPartial Toy.affine 1 (Some Toy.P3);
     BLS.mkPartial Toy.affine 3 (Some Toy.P5);
     BLS.mkPartial Toy.affine 5 (Some Toy.P5)]
  = Ok (Some Toy.P3).
Proof. reflexivity. Qed.

Example toy_quorum_2_4_5 :
  Toy.combine_signatures
    [BLS.mkPartial Toy.affine 2 (Some Toy.P6);
     BLS.mkPartial Toy.affine 4 None;
     BLS.mkPartial Toy.affine 5 (Some Toy.P5)]
  = Ok (Some Toy.P3).
Proof. reflexivity. Qed.

Example toy_quorum_1_2 :
  Toy.combine_signatures
    [BLS.mkPartial Toy.affine 1 (Some Toy.P3);
     BLS.mkPartial Toy.affine 2 (Some Toy.P6)]
  = Raise (InsufficientSigners 3).
Proof. reflexivity. Qed.

(** An ECDSA round of signers 1, 3, 5 with the nonce 2. *)
Example toy_ecdsa_round :
  ECDSA.combine_signatures (Z * Z) Toy.ecdsa
    [ECDSA.mkPartial 1 4 3; ECDSA.mkPartial 3 4 0; ECDSA.mkPartial 5 4 0]
    Toy.message
  = Ok (4, 3) /\
  Toy.ecdsa_verify_signature (4, 3) Toy.message = Ok true.
Proof. split; reflexivity. Qed.

End Scenarios.

(** ** The aggregate of the partial signatures of a committee *)

Section BLSUniqueness.

Import Shamir.

Variable affine : Type.
Variable affine2 : Type.
Variable add : option affine -> option affine -> option affine.
Variable multiply : option affine -> Z -> option affine.
Variable multiply2 : option affine2 -> Z -> option affine2.
Variable G1 : option affine.
Variable G2 : option affine2.
Variable p : Z.
Variable sha256 : list byte -> list byte.

Hypothesis p_prime : Z.prime p.
Hypothesis add_ok : add_laws add.
Hypothesis multiply_ok : multiply_laws add multiply p.

Lemma multiply_None (q : Z) : 0 <= q -> multiply None q = None.
Proof.
  intros Hq.
  rewrite <- (multiply_zero add multiply p multiply_ok None) at 1.
  rewrite (multiply_mul add multiply p multiply_ok) by lia.
  apply (multiply_zero add multiply p multiply_ok).
Qed.

Lemma multiply_mod (P : option affine) (a : Z) :
  0 <= a -> multiply P (a mod p) = multiply P a.
Proof.
  intros Ha. pose proof (prime_gt_1 p p_prime) as Hp.
  pose proof (Z.mod_pos_bound a p ltac:(lia)) as Hm.
  assert (Hq : 0 <= a / p) by (apply Z.div_pos; lia).
  rewrite (Z.div_mod a p) at 2 by lia.
  rewrite (multiply_add add multiply p multiply_ok) by nia.
  rewrite <- (multiply_mul add multiply p multiply_ok) by lia.
  rewrite (multiply_order add multiply p multiply_ok).
  rewrite multiply_None by lia.
  rewrite (add_None_l add add_ok). reflexivity.
Qed.

Lemma prodl_map {A B : Type} (f : B -> Z) (g : A -> B) (l : list A) :
  prodl f (map g l) = prodl (fun a => f (g a)) l.
Proof.
  induction l as [|a l IH]; cbn [map prodl]; [reflexivity|].
  rewrite IH. reflexivity.
Qed.

(** The weight only depends on the positions. *)
Lemma weight_positions (a a' : SecretShare) (others others' : list SecretShare) :
  x a = x a' -> map x others = map x others' ->
  weight p a others = weight p a' others'.
Proof.
  intros Ha Ho. unfold weight.
  rewrite <- (prodl_map (fun z => - z) x others).
  rewrite <- (prodl_map (fun z => x a - z) x others).
  rewrite Ho, Ha.
  rewrite (prodl_map (fun z => - z) x others').
  rewrite (prodl_map (fun z => x a' - z) x others').
  reflexivity.
Qed.

Lemma weight_range (a : SecretShare) (others : list SecretShare) :
  0 <= weight p a others < p.
Proof.
  pose proof (prime_gt_1 p p_prime). unfold weight.
  apply Z.mod_pos_bound. lia.
Qed.

Lemma weight_spec (pre post : list SecretShare) (a : SecretShare) :
  distinct_mod p (map x (pre ++ a :: post)) ->
  cong p (weight p a (pre ++ post) * basis_den a pre post) (basis_num pre post).
Proof.
  intros Hd. pose proof (prime_gt_1 p p_prime) as Hp.
  unfold weight. fold (basis_num pre post). fold (basis_den a pre post).
  rewrite cong_mod.
  replace (basis_num pre post * PyEcc.prime_field_inv (basis_den a pre post) p
           * basis_den a pre post)
    with (basis_num pre post
          * (PyEcc.prime_field_inv (basis_den a pre post) p * basis_den a pre post))
    by ring.
  rewrite prime_field_inv_spec.
  - cong_ring.
  - exact Hp.
  - apply (basis_den_invertible p p_prime (pre ++ a :: post)); [exact Hd|reflexivity].
Qed.

Variable threshold : Z.
Variable num_parties : Z.
Variable sk : Z.
Variable draws : nat -> Z.

Local Abbreviation self :=
  (BLS.init affine2 multiply2 G2 p threshold num_parties sk draws).
Local Abbreviation coefficients :=
  (generate_polynomial threshold draws sk).
Local Abbreviation hash_to_g1 := (BLS.hash_to_g1 affine multiply G1 p sha256).
Local Abbreviation create_partial_signature :=
  (BLS.create_partial_signature affine affine2 multiply G1 p sha256 self).
Local Abbreviation combine_signatures :=
  (BLS.combine_signatures affine affine2 add multiply p self).

(** The share of a party and the partial signature it produces. *)
Local Abbreviation share_of :=
  (fun id : Z => mkShare id (evaluate_polynomial p coefficients id)).
Local Abbreviation partial_of :=
  (fun (h : option affine) (id : Z) =>
     BLS.mkPartial affine id (multiply h (evaluate_polynomial p coefficients id))).

Lemma getitem_range (lo hi i : Z) :
  0 <= i < hi - lo -> getitem (range lo hi) i = Ok (lo + i).
Proof.
  intros Hi. unfold getitem, range.
  destruct (Z.ltb_spec i 0); [lia|].
  destruct (Z.ltb_spec i 0); [lia|].
  rewrite nth_error_map, nth_error_seq.
  destruct (Nat.ltb_spec (Z.to_nat i) (Z.to_nat (hi - lo))); [|lia].
  cbn. f_equal. lia.
Qed.

Lemma getitem_map {A B : Type} (f : A -> B) (l : list A) (i : Z) (a : A) :
  getitem l i = Ok a -> getitem (map f l) i = Ok (f a).
Proof.
  unfold getitem, len. rewrite length_map.
  destruct (_ <? 0); [discriminate|].
  rewrite nth_error_map.
  destruct (nth_error l _); [|discriminate].
  intros [= ->]. reflexivity.
Qed.

Lemma get_private_share_init (party_id : Z) :
  1 <= party_id <= num_parties ->
  BLS.get_private_share affine2 self party_id = Ok (share_of party_id).
Proof.
  intros Hid. unfold BLS.get_private_share, BLS.init.
  cbn [BLS.num_parties BLS.private_shares].
  destruct (Z.ltb_spec party_id 1); [lia|].
  destruct (Z.ltb_spec num_parties party_id); [lia|].
  cbn [orb]. unfold create_shares.
  rewrite (getitem_map _ _ _ (1 + (party_id - 1))).
  - f_equal. f_equal; [lia|f_equal; lia].
  - apply getitem_range. lia.
Qed.

Lemma create_partial_signature_init (party_id : Z) (message : list byte) :
  1 <= party_id <= num_parties ->
  create_partial_signature party_id message
  = Ok (partial_of (hash_to_g1 message) party_id).
Proof.
  intros Hid. unfold BLS.create_partial_signature.
  rewrite get_private_share_init by exact Hid. reflexivity.
Qed.

Lemma evaluate_polynomial_range (cs : list Z) (z : Z) :
  0 <= evaluate_polynomial p cs z < p.
Proof.
  pose proof (prime_gt_1 p p_prime).
  rewrite (evaluate_polynomial_spec p p_prime). apply Z.mod_pos_bound. lia.
Qed.

Lemma distinct_mod_range (n : Z) (l : list Z) :
  NoDup l -> (forall z, In z l -> 0 <= z < n) -> distinct_mod n l.
Proof.
  intros Hnd Hr. unfold distinct_mod.
  rewrite (map_ext_in _ (fun z => z)), map_id; [exact Hnd|].
  intros z Hz. apply Z.mod_small. apply Hr. exact Hz.
Qed.

(** The weighted partial signatures of a committee add up to a multiple of
    the hash point: the one by the sum of the weighted shares. *)
Lemma weighted_sum (h : option affine) :
  forall rest pre,
    gsum_splits add (fun q a r => weighted multiply p a (q ++ r))
      (map (partial_of h) pre) (map (partial_of h) rest)
    = multiply h
        (sum_splits (fun q a r => y a * weight p a (q ++ r))
           (map share_of pre) (map share_of rest))
    /\ 0 <= sum_splits (fun q a r => y a * weight p a (q ++ r))
              (map share_of pre) (map share_of rest).
Proof.
  induction rest as [|id rest IH]; intros pre; cbn [map gsum_splits sum_splits].
  - split; [|lia]. symmetry. apply (multiply_zero add multiply p multiply_ok).
  - destruct (IH (pre ++ [id])) as [IH1 IH2].
    rewrite !map_app in IH1, IH2. cbn [map] in IH1, IH2.
    rewrite IH1.
    pose proof (evaluate_polynomial_range coefficients id) as Hy.
    pose proof (weight_range (share_of id) (map share_of pre ++ map share_of rest))
      as Hw.
    cbn [y].
    split; [|nia].
    rewrite (multiply_add add multiply p multiply_ok) by nia.
    f_equal.
    + unfold weighted. cbn [BLS.signature].
      rewrite (multiply_mul add multiply p multiply_ok);
        [|lia|apply weight_range].
      f_equal. f_equal.
      apply weight_positions; [reflexivity|].
      rewrite <- !map_app, !map_map. reflexivity.
    + rewrite map_app. reflexivity.
Qed.

Lemma produced_partials (message : list byte) (signers : list Z)
  (partial_sigs : list (BLS.BLSPartialSignature affine)) :
  (forall id, In id signers -> 1 <= id <= num_parties) ->
  Forall2 (fun id sig => create_partial_signature id message = Ok sig)
    signers partial_sigs ->
  partial_sigs = map (partial_of (hash_to_g1 message)) signers.
Proof.
  intros Hids H. induction H as [|id sig signers partial_sigs Hc _ IH].
  - reflexivity.
  - rewrite create_partial_signature_init in Hc
      by (apply Hids; left; reflexivity).
    injection Hc as <-. cbn [map]. f_equal.
    apply IH. intros id' Hid'. apply Hids. right. exact Hid'.
Qed.

Lemma partials_produced (message : list byte) (signers : list Z) :
  (forall id, In id signers -> 1 <= id <= num_parties) ->
  Forall2 (fun id sig => create_partial_signature id message = Ok sig)
    signers (map (partial_of (hash_to_g1 message)) signers).
Proof.
  induction signers as [|id signers IH]; intros Hids; cbn [map].
  - constructor.
  - constructor.
    + apply create_partial_signature_init. apply Hids. left. reflexivity.
    + apply IH. intros id' Hid'. apply Hids. right. exact Hid'.
Qed.

(** C1 (BLS uniqueness).  In a context set up for [1 <= threshold <=
    num_parties < p] with master key [sk], for every message and every
    committee of [threshold] pairwise distinct party ids in
    [1..num_parties], [create_partial_signature] produces a partial
    signature for each member, and [combine_signatures] returns on them
    [multiply (hash_to_g1 message) sk]: the same element for every such
    committee. *)
Theorem bls_aggregate_unique :
  1 <= threshold <= num_parties -> num_parties < p -> 0 <= sk < p ->
  forall (message : list byte) (signers : list Z),
    len signers = threshold ->
    NoDup signers ->
    (forall id, In id signers -> 1 <= id <= num_parties) ->
    (exists partial_sigs,
       Forall2 (fun id sig => create_partial_signature id message = Ok sig)
         signers partial_sigs) /\
    (forall partial_sigs,
       Forall2 (fun id sig => create_partial_signature id message = Ok sig)
         signers partial_sigs ->
       combine_signatures partial_sigs
       = Ok (multiply (hash_to_g1 message) (BLS.master_private_key affine2 self))).
Proof.
  intros Ht Hn Hsk message signers Hlen Hnd Hids.
  pose proof (prime_gt_1 p p_prime) as Hp.
  split.
  { eexists. apply partials_produced. exact Hids. }
  intros partial_sigs Hprod.
  rewrite (produced_partials message signers partial_sigs Hids Hprod).
  set (h := hash_to_g1 message).
  rewrite (combine_signatures_spec affine add multiply p add_ok).
  2:{ cbn [BLS.threshold BLS.init]. unfold len in *. rewrite length_map. lia. }
  cbn [BLS.threshold BLS.master_private_key BLS.init].
  rewrite slice_to_len
    by (unfold len in *; rewrite length_map; exact Hlen).
  f_equal.
  destruct (weighted_sum h signers []) as [Hsum Hpos].
  cbn [map] in Hsum, Hpos. rewrite Hsum.
  rewrite <- multiply_mod by exact Hpos.
  transitivity (multiply h (sk mod p));
    [|rewrite (Z.mod_small sk p Hsk); reflexivity].
  f_equal.
  assert (Hl : cong p
            (sum_splits (fun q a r => y a * weight p a (q ++ r)) []
               (map share_of signers))
            (peval coefficients 0)).
  { apply (lagrange_at_zero p p_prime).
    - rewrite map_map. cbn [x]. rewrite map_id.
      apply distinct_mod_range; [exact Hnd|].
      intros z Hz. specialize (Hids z Hz). lia.
    - unfold generate_polynomial. cbn [length].
      rewrite !length_map, length_seq. unfold len in Hlen. lia.
    - intros b Hb. apply in_map_iff in Hb. destruct Hb as (id & <- & _).
      cbn [x y]. rewrite (evaluate_polynomial_spec p p_prime).
      apply cong_mod.
    - intros pre a post Hss. apply weight_spec. rewrite <- Hss.
      rewrite map_map. cbn [x]. rewrite map_id.
      apply distinct_mod_range; [exact Hnd|].
      intros z Hz. specialize (Hids z Hz). lia. }
  unfold cong in Hl. rewrite Hl. f_equal.
  unfold generate_polynomial. cbn [peval]. ring.
Qed.

End BLSUniqueness.

(** ** Properties of the BLS combination *)

Section BLSClaims.

Variable affine : Type.
Variable affine2 : Type.
Variable add : option affine -> option affine -> option affine.
Variable multiply : option affine -> Z -> option affine.
Variable p : Z.

Local Abbreviation combine_signatures :=
  (BLS.combine_signatures affine affine2 add multiply p).
Local Abbreviation threshold := (BLS.threshold affine2).
Local Abbreviation signer_id := (BLS.signer_id affine).

(** C9.  With [add] commutative and associative on G1 and [None] its
    neutral element, for every list of at least [threshold] partial
    signatures, [combine_signatures] gives the same result on the list and on
    its first [threshold] entries, and the same again on any reordering of
    these entries.  (That the signer ids are pairwise distinct is not needed
    for it.) *)
Theorem bls_combine_selected_set
  (self : BLS.BLSThresholdSignature affine2)
  (partial_sigs : list (BLS.BLSPartialSignature affine)) :
  add_laws add ->
  0 <= threshold self <= len partial_sigs ->
  combine_signatures self partial_sigs
  = combine_signatures self (slice_to partial_sigs (threshold self)) /\
  forall reordered,
    Permutation (slice_to partial_sigs (threshold self)) reordered ->
    combine_signatures self reordered = combine_signatures self partial_sigs.
Proof.
  intros add_ok Ht.
  pose proof (len_slice_to partial_sigs (threshold self) Ht) as Hlen.
  rewrite (combine_signatures_spec affine add multiply p add_ok self partial_sigs Ht).
  split.
  - rewrite (combine_signatures_spec affine add multiply p add_ok) by lia.
    rewrite (slice_to_len (slice_to partial_sigs (threshold self))) by exact Hlen.
    reflexivity.
  - intros reordered Hperm.
    assert (Hlen' : len reordered = threshold self).
    { unfold len in *. rewrite <- (Permutation_length Hperm). exact Hlen. }
    rewrite (combine_signatures_spec affine add multiply p add_ok) by lia.
    rewrite (slice_to_len reordered) by exact Hlen'.
    f_equal. symmetry.
    apply (gsum_splits_perm affine add multiply p add_ok). exact Hperm.
Qed.

(** What [combine_signatures] does with a repeated signer, on every input:
    for a list of at least [threshold] partial signatures it returns a group
    element and raises nothing, and a partial signature among the first
    [threshold] whose signer id occurs there a second time gets the Lagrange
    coefficient [0], since [prime_field_inv] maps the zero denominator to
    [0].  The copy of [lagrange_coefficient] in the ECDSA file raises there
    ([reconstruct_secret_duplicate_positions]). *)
Theorem bls_combine_duplicate_signers
  (self : BLS.BLSThresholdSignature affine2)
  (partial_sigs : list (BLS.BLSPartialSignature affine)) :
  0 <= threshold self <= len partial_sigs ->
  (exists sigma, combine_signatures self partial_sigs = Ok sigma) /\
  forall pre a post,
    slice_to partial_sigs (threshold self) = pre ++ a :: post ->
    (exists b, In b (pre ++ post) /\ signer_id b = signer_id a) ->
    BLS.lagrange_coefficient p
      (map dummy_share (slice_to partial_sigs (threshold self))) (length pre)
    = Ok 0.
Proof.
  intros Ht. split.
  - unfold BLS.combine_signatures.
    destruct (Z.ltb_spec (len partial_sigs) (threshold self)); [lia|].
    apply (combine_loop_total affine add multiply p
             (slice_to partial_sigs (threshold self)) [] None).
  - intros pre a post Hsel (b & Hb & Hid).
    rewrite Hsel, bls_coefficient_dummy. f_equal.
    apply weight_duplicate. exists (dummy_share b). split.
    + apply in_map. exact Hb.
    + unfold dummy_share. cbn [Shamir.x]. exact Hid.
Qed.

End BLSClaims.

Lemma bls_aggregate_unique_witness :
  (exists partial_sigs,
     Forall2 (fun id sig => Toy.create_partial_signature id Toy.message = Ok sig)
       [1; 3; 5] partial_sigs) /\
  (forall partial_sigs,
     Forall2 (fun id sig => Toy.create_partial_signature id Toy.message = Ok sig)
       [1; 3; 5] partial_sigs ->
     Toy.combine_signatures partial_sigs
     = Ok (Toy.multiply
             (BLS.hash_to_g1 Toy.affine Toy.multiply Toy.G 7 Toy.sha256 Toy.message)
             3)).
Proof.
  apply (bls_aggregate_unique Toy.affine Toy.affine Toy.add Toy.multiply
           Toy.multiply Toy.G Toy.G 7 Toy.sha256
           prime_7 toy_add_laws toy_multiply_laws 3 5 3 Toy.draws).
  - lia.
  - lia.
  - lia.
  - reflexivity.
  - repeat constructor; cbn; intuition lia.
  - intros id [<-|[<-|[<-|[]]]]; lia.
Defined.

Lemma bls_combine_selected_set_witness :
  let partial_sigs :=
    [BLS.mkPartial Toy.affine 1 (Some Toy.P3);
     BLS.mkPartial Toy.affine 3 (Some Toy.P5);
     BLS.mkPartial Toy.affine 5 (Some Toy.P5);
     BLS.mkPartial Toy.affine 2 (Some Toy.P6)] in
  Toy.combine_signatures partial_sigs
  = Toy.combine_signatures (slice_to partial_sigs 3) /\
  forall reordered,
    Permutation (slice_to partial_sigs 3) reordered ->
    Toy.combine_signatures reordered = Toy.combine_signatures partial_sigs.
Proof.
  apply (bls_combine_selected_set Toy.affine Toy.affine Toy.add Toy.multiply 7
           Toy.bls).
  - exact toy_add_laws.
  - cbn. lia.
Defined.

Lemma bls_combine_duplicate_signers_witness :
  let partial_sigs :=
    [BLS.mkPartial Toy.affine 1 (Some Toy.P3);
     BLS.mkPartial Toy.affine 1 (Some Toy.P3);
     BLS.mkPartial Toy.affine 5 (Some Toy.P5)] in
  (exists sigma, Toy.combine_signatures partial_sigs = Ok sigma) /\
  forall pre a post,
    slice_to partial_sigs 3 = pre ++ a :: post ->
    (exists b, In b (pre ++ post) /\
               BLS.signer_id Toy.affine b = BLS.signer_id Toy.affine a) ->
    BLS.lagrange_coefficient 7 (map dummy_share (slice_to partial_sigs 3))
      (length pre)
    = Ok 0.
Proof.
  apply (bls_combine_duplicate_signers Toy.affine Toy.affine Toy.add
           Toy.multiply 7 Toy.bls).
  cbn. lia.
Defined.

(** C3 (duplicate signer ids are to be refused) fails on the code, which
    misses what its sibling does.  In the 3-of-5 toy context, the partial
    signatures of the signers 1, 1, 5 on one message are combined without an
    error: [lagrange_coefficient] gives the repeated signer the coefficient
    [0] where the copy of the ECDSA file, which differs by the imported
    inverse only, raises the [ValueError] of [inverse]; the point returned is
    not the signature of the master key, and [verify_signature] refuses it.
    With the order of BN128 the coefficients of the positions 1, 1, 5 are
    computed without an error too. *)
Lemma bls_combine_duplicate_signers_divergence :
  let partial_sigs :=
    [BLS.mkPartial Toy.affine 1 (Some Toy.P3);
     BLS.mkPartial Toy.affine 1 (Some Toy.P3);
     BLS.mkPartial Toy.affine 5 (Some Toy.P5)] in
  let positions :=
    [Shamir.mkShare 1 0; Shamir.mkShare 1 0; Shamir.mkShare 5 0] in
  map (fun id => Toy.create_partial_signature id Toy.message) [1; 1; 5]
  = map Ok partial_sigs /\
  Toy.combine_signatures partial_sigs = Ok (Some Toy.P6) /\
  ToyBLS.verify_signature (Some Toy.P6) Toy.message = Ok false /\
  ToyBLS.verify_signature
    (Toy.multiply
       (BLS.hash_to_g1 Toy.affine Toy.multiply Toy.G 7 Toy.sha256 Toy.message)
       3)
    Toy.message
  = Ok true /\
  map (BLS.lagrange_coefficient 7 positions) [0%nat; 1%nat; 2%nat]
  = [Ok 0; Ok 0; Ok 4] /\
  map (Shamir.lagrange_coefficient 7 Crypto.inverse positions)
      [0%nat; 1%nat; 2%nat]
  = [Raise (ValueError NoInverse); Raise (ValueError NoInverse); Ok 4] /\
  map (BLS.lagrange_coefficient PyEcc.curve_order positions)
      [0%nat; 1%nat; 2%nat]
  = [Ok 0; Ok 0;
     Ok 20520227692349320520856005386178695395514091625390032197217066424914820464641].
Proof. repeat split; vm_compute; reflexivity. Qed.

(** ** Properties of the Shamir reconstruction and of threshold ECDSA *)

Section ShamirClaims.

Import Shamir.

Variable p : Z.

(** C2 (Lagrange round trip).  For a prime [p], coefficients
    [a0 :: higher] in [[0, p)] and as many pairwise distinct positions in
    [[1, p)], [reconstruct_secret] returns [a0] on the shares
    [(x, evaluate_polynomial coefficients x)]. *)
Theorem shamir_reconstruct_roundtrip (a0 : Z) (higher xs : list Z) :
  Z.prime p ->
  (forall c, In c (a0 :: higher) -> 0 <= c < p) ->
  length xs = length (a0 :: higher) ->
  NoDup xs ->
  (forall z, In z xs -> 1 <= z < p) ->
  reconstruct_secret p Crypto.inverse (len (a0 :: higher))
    (map (fun z => mkShare z (evaluate_polynomial p (a0 :: higher) z)) xs)
  = Ok a0.
Proof.
  intros p_prime Hcs Hlen Hnd Hxs.
  set (cs := a0 :: higher) in *.
  set (shares := map (fun z => mkShare z (evaluate_polynomial p cs z)) xs).
  assert (Hl : len shares = len cs).
  { unfold len, shares. rewrite length_map, Hlen. reflexivity. }
  unfold reconstruct_secret.
  destruct (Z.ltb_spec (len shares) (len cs)); [lia|].
  rewrite (slice_to_len shares (len cs) Hl).
  rewrite (reconstruct_shares p p_prime Crypto.inverse
             (inverse_inverts p p_prime) shares cs).
  - f_equal. unfold cs. cbn [peval]. rewrite Z.mul_0_l, Z.add_0_r.
    apply Z.mod_small. apply Hcs. left. reflexivity.
  - unfold shares. rewrite map_map. cbn [x]. rewrite map_id.
    apply distinct_mod_range; [exact Hnd|].
    intros z Hz. specialize (Hxs z Hz). lia.
  - unfold len in Hl. lia.
  - intros b Hb. apply in_map_iff in Hb. destruct Hb as (z & <- & _).
    cbn [x y]. rewrite (evaluate_polynomial_spec p p_prime). apply cong_mod.
Qed.

End ShamirClaims.

Lemma shamir_reconstruct_roundtrip_witness :
  Shamir.reconstruct_secret 7 Crypto.inverse 3
    (map (fun z => Shamir.mkShare z (Shamir.evaluate_polynomial 7 [3; 2; 5] z))
       [1; 3; 5])
  = Ok 3.
Proof.
  apply (shamir_reconstruct_roundtrip 7 3 [2; 5] [1; 3; 5] prime_7).
  - intros c [<-|[<-|[<-|[]]]]; lia.
  - reflexivity.
  - repeat constructor; cbn; intuition lia.
  - intros z [<-|[<-|[<-|[]]]]; lia.
Defined.

Section ECDSAClaims.

Import Shamir.

Variable ec_affine : Type.
Variable affine_x : ec_affine -> Z.
Variable ec_add : option ec_affine -> option ec_affine -> option ec_affine.
Variable ec_mul : Z -> option ec_affine -> option ec_affine.
Variable generator : option ec_affine.
Variable sha256 : list byte -> list byte.

Local Abbreviation create_partial_signature :=
  (ECDSA.create_partial_signature ec_affine affine_x ec_mul generator sha256).
Local Abbreviation combine_signatures := (ECDSA.combine_signatures ec_affine).
Local Abbreviation verify_signature :=
  (ECDSA.verify_signature ec_affine affine_x ec_add ec_mul generator sha256).
Local Abbreviation threshold := (ECDSA.threshold ec_affine).
Local Abbreviation prime := (ECDSA.prime ec_affine).

Lemma ecdsa_get_private_share_init
  (p t num_parties private_key_int : Z) (draws : nat -> Z) (party_id : Z) :
  1 <= party_id <= num_parties ->
  ECDSA.get_private_share ec_affine
    (ECDSA.init ec_affine ec_mul generator p t num_parties private_key_int draws)
    party_id
  = Ok (mkShare party_id
          (evaluate_polynomial p (generate_polynomial t draws private_key_int)
             party_id)).
Proof.
  intros Hid. unfold ECDSA.get_private_share, ECDSA.init.
  cbn [ECDSA.num_parties ECDSA.private_shares].
  destruct (Z.ltb_spec party_id 1); [lia|].
  destruct (Z.ltb_spec num_parties party_id); [lia|].
  cbn [orb]. unfold create_shares.
  rewrite (getitem_map _ _ _ (1 + (party_id - 1))).
  - f_equal. f_equal; [lia|f_equal; lia].
  - apply getitem_range. lia.
Qed.

Lemma prime_small_gcd (p a : Z) : Z.prime p -> 1 <= a < p -> Z.gcd a p = 1.
Proof.
  intros Hp Ha. rewrite Z.gcd_comm. apply Z.coprime_prime_small; assumption.
Qed.

(** C4, as the code has it.  In a context set up over a group of prime
    order [p], for every party id in [1..num_parties], message and nonce [k]
    in [[1, p)] such that the x-coordinate of [k * generator] is [0] modulo
    [p], [create_partial_signature] raises nothing: it returns the partial
    signature with [r = 0] and [s = k_inv * e mod p], and leaves
    [_shared_k] as it was. *)
Theorem ecdsa_partial_signature_zero_r
  (p t num_parties private_key_int : Z) (draws : nat -> Z)
  (shared_k : option Z) (randbelow party_id : Z) (message : list byte)
  (k : Z) (point : ec_affine) :
  Z.prime p ->
  1 <= party_id <= num_parties ->
  1 <= k < p ->
  ec_mul k generator = Some point ->
  affine_x point mod p = 0 ->
  exists k_inv,
    cong p (k_inv * k) 1 /\
    create_partial_signature
      (ECDSA.init ec_affine ec_mul generator p t num_parties private_key_int draws)
      shared_k randbelow party_id message (Some k)
    = (Ok (ECDSA.mkPartial party_id 0
             ((k_inv * (int_from_bytes_big (sha256 message) mod p)) mod p)),
       shared_k).
Proof.
  intros p_prime Hid Hk Hpoint Hx.
  destruct (inverse_spec k p (prime_gt_1 p p_prime) (prime_small_gcd p k p_prime Hk))
    as (k_inv & Hinv & _ & Hcong).
  exists k_inv. split; [exact Hcong|].
  unfold ECDSA.create_partial_signature.
  rewrite ecdsa_get_private_share_init by exact Hid.
  cbn [ECDSA.prime ECDSA.init]. rewrite Hpoint. cbn [ECDSA.x_mod bind].
  rewrite Hx, Hinv. cbn [bind].
  rewrite Z.mul_0_l, Z.add_0_r. reflexivity.
Qed.

Lemma nodup_singleton (l : list Z) (a b : Z) :
  In a l -> In b l -> len_set l = 1 -> a = b.
Proof.
  unfold len_set, len. intros Ha Hb Hlen.
  apply (nodup_In Z.eq_dec) in Ha, Hb.
  destruct (nodup Z.eq_dec l) as [|c [|d rest]]; cbn in Hlen; try lia.
  destruct Ha as [<-|[]]. destruct Hb as [<-|[]]. reflexivity.
Qed.

(** C6 (nonce consistency).  On at least [threshold] partial signatures two
    of which have different [r], [combine_signatures] raises the error of
    inconsistent nonces; and when it returns [(r, s)], every partial
    signature it was given has that [r]. *)
Theorem ecdsa_combine_inconsistent_nonce
  (self : ECDSA.ThresholdSignature ec_affine)
  (partial_sigs : list ECDSA.PartialSignature) (message : list byte) :
  threshold self <= len partial_sigs ->
  ((exists a b, In a partial_sigs /\ In b partial_sigs /\ ECDSA.r a <> ECDSA.r b) ->
   combine_signatures self partial_sigs message = Raise InconsistentNonce) /\
  (forall r s,
     combine_signatures self partial_sigs message = Ok (r, s) ->
     forall a, In a partial_sigs -> ECDSA.r a = r).
Proof.
  intros Ht. unfold ECDSA.combine_signatures.
  destruct (Z.ltb_spec (len partial_sigs) (threshold self)); [lia|].
  destruct (Z.eqb_spec (len_set (map ECDSA.r partial_sigs)) 1) as [Hone|Hmany];
    cbn [negb].
  - split.
    + intros (a & b & Ha & Hb & Hab). exfalso. apply Hab.
      apply (nodup_singleton (map ECDSA.r partial_sigs)); [| |exact Hone].
      * apply in_map. exact Ha.
      * apply in_map. exact Hb.
    + intros r s Hres a Ha.
      destruct partial_sigs as [|sig0 rest]; [destruct Ha|].
      cbn [getitem] in Hres. unfold getitem in Hres. cbn in Hres.
      destruct (ECDSA.reconstruct_secret _ _ _); [|discriminate Hres].
      injection Hres as <- _.
      apply (nodup_singleton (map ECDSA.r (sig0 :: rest))); [| |exact Hone].
      * apply in_map. exact Ha.
      * left. reflexivity.
  - split; [reflexivity|]. intros r s Hres. discriminate Hres.
Qed.

(** C7 (verification).  With a prime modulus, [verify_signature] returns
    [False] when [r] or [s] is outside [[1, p)]; otherwise, with [w] the
    inverse of [s] and [P = u1 * G + u2 * Q] for [u1 = e * w mod p] and
    [u2 = r * w mod p], it returns [True] exactly when [P] is not the point
    at infinity and its x-coordinate is [r] modulo [p]. *)
Theorem ecdsa_verify_signature_spec
  (self : ECDSA.ThresholdSignature ec_affine) (r s : Z) (message : list byte) :
  Z.prime (prime self) ->
  ((r <= 0 \/ prime self <= r \/ s <= 0 \/ prime self <= s) ->
   verify_signature self (r, s) message = Ok false) /\
  (0 < r < prime self -> 0 < s < prime self ->
   exists w b,
     cong (prime self) (w * s) 1 /\
     verify_signature self (r, s) message = Ok b /\
     (b = true <->
      exists a,
        ec_add
          (ec_mul ((int_from_bytes_big (sha256 message) mod prime self * w)
                   mod prime self) generator)
          (ec_mul ((r * w) mod prime self) (ECDSA.public_key_point ec_affine self))
        = Some a /\
        affine_x a mod prime self = r)).
Proof.
  intros p_prime. unfold ECDSA.verify_signature, ECDSA.verify_signature_try.
  split.
  - intros Hout.
    assert (Hc : (r <=? 0) || (prime self <=? r) || (s <=? 0) || (prime self <=? s)
                 = true).
    { destruct (Z.leb_spec r 0), (Z.leb_spec (prime self) r),
        (Z.leb_spec s 0), (Z.leb_spec (prime self) s); cbn; try reflexivity; lia. }
    rewrite Hc. reflexivity.
  - intros Hr Hs.
    assert (Hc : (r <=? 0) || (prime self <=? r) || (s <=? 0) || (prime self <=? s)
                 = false).
    { destruct (Z.leb_spec r 0), (Z.leb_spec (prime self) r),
        (Z.leb_spec s 0), (Z.leb_spec (prime self) s); cbn; try reflexivity; lia. }
    rewrite Hc.
    destruct (inverse_spec s (prime self) (prime_gt_1 _ p_prime)
                (prime_small_gcd _ s p_prime ltac:(lia)))
      as (w & Hinv & _ & Hcong).
    rewrite Hinv. cbn [bind]. exists w.
    destruct (ec_add _ _) as [a|]; cbn [ECDSA.x_mod bind try_except].
    + eexists. split; [exact Hcong|]. split; [reflexivity|].
      rewrite Z.eqb_eq. split.
      * intros ->. exists a. split; reflexivity.
      * intros (a' & [= <-] & Hx). symmetry. exact Hx.
    + exists false. split; [exact Hcong|]. split; [reflexivity|].
      split; [discriminate|]. intros (a' & Ha' & _). discriminate Ha'.
Qed.

(** C10.  [combine_signatures] does not use its message. *)
Theorem ecdsa_combine_ignores_message
  (self : ECDSA.ThresholdSignature ec_affine)
  (partial_sigs : list ECDSA.PartialSignature) (m1 m2 : list byte) :
  combine_signatures self partial_sigs m1 = combine_signatures self partial_sigs m2.
Proof. reflexivity. Qed.

End ECDSAClaims.

Lemma ecdsa_partial_signature_zero_r_witness :
  exists k_inv,
    cong 7 (k_inv * 3) 1 /\
    Toy.ecdsa_create_partial_signature None 0 1 Toy.message (Some 3)
    = (Ok (ECDSA.mkPartial 1 0
             ((k_inv * (int_from_bytes_big (Toy.sha256 Toy.message) mod 7)) mod 7)),
       None).
Proof.
  apply (ecdsa_partial_signature_zero_r (Z * Z) fst Toy.ec_mul Toy.generator
           Toy.sha256 7 3 5 3 Toy.draws None 0 1 Toy.message 3 (7, 8) prime_7).
  - lia.
  - lia.
  - reflexivity.
  - reflexivity.
Defined.

(** C4 as stated fails: on the curve [y^2 = x^3 + 7] modulo 13, whose group
    has order 7, three times the generator [(8, 5)] is [(7, 8)], of
    x-coordinate [0] modulo 7, and [create_partial_signature] returns a
    partial signature with [r = 0] for the nonce [3]. *)
Lemma ecdsa_partial_signature_zero_r_counterexample :
  Toy.ec_mul 3 Toy.generator = Some (7, 8) /\
  Toy.ecdsa_create_partial_signature None 0 1 Toy.message (Some 3)
  = (Ok (ECDSA.mkPartial 1 0 5), None).
Proof. split; reflexivity. Qed.

Lemma ecdsa_combine_inconsistent_nonce_witness :
  let partial_sigs :=
    [ECDSA.mkPartial 1 4 3; ECDSA.mkPartial 3 2 1; ECDSA.mkPartial 5 4 0] in
  ((exists a b, In a partial_sigs /\ In b partial_sigs /\ ECDSA.r a <> ECDSA.r b) ->
   ECDSA.combine_signatures (Z * Z) Toy.ecdsa partial_sigs Toy.message
   = Raise InconsistentNonce) /\
  (forall r s,
     ECDSA.combine_signatures (Z * Z) Toy.ecdsa partial_sigs Toy.message = Ok (r, s) ->
     forall a, In a partial_sigs -> ECDSA.r a = r).
Proof.
  apply (ecdsa_combine_inconsistent_nonce (Z * Z) Toy.ecdsa).
  cbn. lia.
Defined.

Lemma ecdsa_verify_signature_spec_witness :
  ((4 <= 0 \/ 7 <= 4 \/ 3 <= 0 \/ 7 <= 3) ->
   Toy.ecdsa_verify_signature (4, 3) Toy.message = Ok false) /\
  (0 < 4 < 7 -> 0 < 3 < 7 ->
   exists w b,
     cong 7 (w * 3) 1 /\
     Toy.ecdsa_verify_signature (4, 3) Toy.message = Ok b /\
     (b = true <->
      exists a,
        Toy.ec_add
          (Toy.ec_mul ((int_from_bytes_big (Toy.sha256 Toy.message) mod 7 * w) mod 7)
             Toy.generator)
          (Toy.ec_mul ((4 * w) mod 7) (ECDSA.public_key_point (Z * Z) Toy.ecdsa))
        = Some a /\
        fst a mod 7 = 4)).
Proof.
  apply (ecdsa_verify_signature_spec (Z * Z) fst Toy.ec_add Toy.ec_mul
           Toy.generator Toy.sha256 Toy.ecdsa 4 3 Toy.message).
  exact prime_7.
Defined.

(** ** Properties shared by the two schemes *)

Section BothSchemes.

Variable affine : Type.
Variable affine2 : Type.
Variable FQ12 : Type.
Variable add : option affine -> option affine -> option affine.
Variable multiply : option affine -> Z -> option affine.
Variable pairing : option affine2 -> option affine -> result FQ12.
Variable FQ12_eqb : FQ12 -> FQ12 -> bool.
Variable G1 : option affine.
Variable G2 : option affine2.
Variable curve_order : Z.
Variable ec_affine : Type.
Variable affine_x : ec_affine -> Z.
Variable ec_add : option ec_affine -> option ec_affine -> option ec_affine.
Variable ec_mul : Z -> option ec_affine -> option ec_affine.
Variable generator : option ec_affine.
Variable sha256 : list byte -> list byte.

(** C5 (threshold soundness).  On fewer than [threshold] partial
    signatures, the BLS and the ECDSA [combine_signatures] both raise the
    error of insufficient signers. *)
Theorem combine_insufficient_signers
  (bls : BLS.BLSThresholdSignature affine2)
  (bls_partial_sigs : list (BLS.BLSPartialSignature affine))
  (ecdsa : ECDSA.ThresholdSignature ec_affine)
  (ecdsa_partial_sigs : list ECDSA.PartialSignature) (message : list byte) :
  len bls_partial_sigs < BLS.threshold affine2 bls ->
  len ecdsa_partial_sigs < ECDSA.threshold ec_affine ecdsa ->
  BLS.combine_signatures affine affine2 add multiply curve_order bls bls_partial_sigs
  = Raise (InsufficientSigners (BLS.threshold affine2 bls)) /\
  ECDSA.combine_signatures ec_affine ecdsa ecdsa_partial_sigs message
  = Raise (InsufficientSigners (ECDSA.threshold ec_affine ecdsa)).
Proof.
  intros Hb He. unfold BLS.combine_signatures, ECDSA.combine_signatures.
  destruct (Z.ltb_spec (len bls_partial_sigs) (BLS.threshold affine2 bls)); [|lia].
  destruct (Z.ltb_spec (len ecdsa_partial_sigs) (ECDSA.threshold ec_affine ecdsa));
    [|lia].
  split; reflexivity.
Qed.

(** C8.  The three verifications return a boolean on every input: the one
    their [try] block returns, and [False] when anything in the block
    raises. *)
Theorem verification_never_raises
  (bls : BLS.BLSThresholdSignature affine2)
  (signature : option affine) (partial_sig : BLS.BLSPartialSignature affine)
  (ecdsa : ECDSA.ThresholdSignature ec_affine) (rs : Z * Z)
  (message : list byte) :
  BLS.verify_signature affine affine2 FQ12 multiply pairing FQ12_eqb G1 G2
    curve_order sha256 bls signature message
  = Ok (reported
          (BLS.verify_signature_try affine affine2 FQ12 multiply pairing FQ12_eqb
             G1 G2 curve_order sha256 bls signature message)) /\
  BLS.verify_partial_signature affine affine2 FQ12 multiply pairing FQ12_eqb G1 G2
    curve_order sha256 bls partial_sig message
  = Ok (reported
          (BLS.verify_partial_signature_try affine affine2 FQ12 multiply pairing
             FQ12_eqb G1 G2 curve_order sha256 bls partial_sig message)) /\
  ECDSA.verify_signature ec_affine affine_x ec_add ec_mul generator sha256
    ecdsa rs message
  = Ok (reported
          (ECDSA.verify_signature_try ec_affine affine_x ec_add ec_mul generator
             sha256 ecdsa rs message)).
Proof.
  unfold BLS.verify_signature, BLS.verify_partial_signature, ECDSA.verify_signature.
  repeat split.
  - destruct (BLS.verify_signature_try _ _ _ _ _ _ _ _ _ _ _ _ _); reflexivity.
  - destruct (BLS.verify_partial_signature_try _ _ _ _ _ _ _ _ _ _ _ _ _); reflexivity.
  - destruct (ECDSA.verify_signature_try _ _ _ _ _ _ _ _ _); reflexivity.
Qed.

End BothSchemes.

Lemma combine_insufficient_signers_witness :
  Toy.combine_signatures
    [BLS.mkPartial Toy.affine 1 (Some Toy.P3);
     BLS.mkPartial Toy.affine 2 (Some Toy.P6)]
  = Raise (InsufficientSigners 3) /\
  ECDSA.combine_signatures (Z * Z) Toy.ecdsa
    [ECDSA.mkPartial 1 4 3; ECDSA.mkPartial 2 4 1] Toy.message
  = Raise (InsufficientSigners 3).
Proof.
  apply (combine_insufficient_signers Toy.affine Toy.affine Toy.add Toy.multiply
           7 (Z * Z) Toy.bls
           [BLS.mkPartial Toy.affine 1 (Some Toy.P3);
            BLS.mkPartial Toy.affine 2 (Some Toy.P6)]
           Toy.ecdsa [ECDSA.mkPartial 1 4 3; ECDSA.mkPartial 2 4 1] Toy.message).
  - cbn. lia.
  - cbn. lia.
Defined.

(** * Further properties of the code *)

(** ** The small instances satisfy the laws of pairings and of curves *)

Section ToyLaws.

Lemma toy_pairing_laws :
  pairing_laws Toy.multiply Toy.multiply Toy.pairing Z.eqb.
Proof.
  split.
  - intros Q P. eexists. reflexivity.
  - intros Q P a _. unfold Toy.pairing, Toy.multiply. f_equal.
    rewrite !toy_log_exp.
    assert (H : cong 7 (((Toy.log Q * a) mod 7) * Toy.log P)
                  (Toy.log Q * ((Toy.log P * a) mod 7))); [|exact H].
    rewrite !cong_mod. cong_ring.
  - intros e. apply Z.eqb_refl.
Qed.

Lemma toy_ec_laws : ec_laws Toy.add ToyCurve.ec_mul 7.
Proof.
  split; unfold ToyCurve.ec_mul, Toy.add, Toy.multiply.
  - intros P a b _ _. rewrite !toy_log_exp. apply toy_exp_cong.
    rewrite !cong_mod. cong_ring.
  - intros P a b _ _. rewrite !toy_log_exp. apply toy_exp_cong.
    rewrite !cong_mod. cong_ring.
  - intros P a _. apply toy_exp_cong. rewrite cong_mod. reflexivity.
Qed.

End ToyLaws.

(** ** Dealing and reconstruction *)

Section ShamirExtras.

Import Shamir.

Lemma evaluate_loop_bounds (prime z : Z) :
  0 < prime ->
  forall cs i res,
    0 <= res < prime -> 0 <= evaluate_loop prime i cs z res < prime.
Proof.
  intros Hp. induction cs as [|c cs IH]; intros i res Hres; cbn [evaluate_loop].
  - exact Hres.
  - apply IH. apply Z.mod_pos_bound. exact Hp.
Qed.

Lemma len_range (lo hi : Z) : len (range lo hi) = Z.max 0 (hi - lo).
Proof.
  unfold len, range. rewrite length_map, length_seq. lia.
Qed.

(** X1.  [create_shares] returns one share for each of the positions
    [1, 2, ..., num_parties], in this order, with a value in [[0, prime)]. *)
Theorem create_shares_positions
  (prime threshold num_parties : Z) (draws : nat -> Z) (secret : Z) :
  0 < prime ->
  map x (create_shares prime threshold num_parties draws secret)
  = range 1 (num_parties + 1) /\
  len (create_shares prime threshold num_parties draws secret)
  = Z.max 0 num_parties /\
  forall b, In b (create_shares prime threshold num_parties draws secret) ->
            0 <= y b < prime.
Proof.
  intros Hp. unfold create_shares. repeat split.
  - rewrite map_map. cbn [x]. apply map_id.
  - unfold len. rewrite length_map. fold (len (range 1 (num_parties + 1))).
    rewrite len_range. f_equal. lia.
  - apply in_map_iff in H. destruct H as (i & <- & _). cbn [y].
    apply evaluate_loop_bounds; lia.
  - apply in_map_iff in H. destruct H as (i & <- & _). cbn [y].
    apply evaluate_loop_bounds; lia.
Qed.

(** X2.  A threshold of one or less is not refused: the polynomial is then
    the constant [secret], and every party's share is the secret itself
    (modulo [prime]). *)
Theorem create_shares_constant_polynomial
  (prime threshold num_parties : Z) (draws : nat -> Z) (secret : Z) :
  0 < prime ->
  threshold <= 1 ->
  generate_polynomial threshold draws secret = [secret] /\
  forall b, In b (create_shares prime threshold num_parties draws secret) ->
            y b = secret mod prime.
Proof.
  intros Hp Ht.
  assert (Hg : generate_polynomial threshold draws secret = [secret]).
  { unfold generate_polynomial.
    replace (Z.to_nat (threshold - 1)) with 0%nat by lia. reflexivity. }
  split; [exact Hg|].
  intros b Hb. unfold create_shares in Hb. rewrite Hg in Hb.
  apply in_map_iff in Hb. destruct Hb as (i & <- & _). cbn [y].
  unfold evaluate_polynomial. cbn [evaluate_loop]. unfold pow_mod.
  change (Z.of_nat 0) with 0. rewrite Z.pow_0_r, Z.add_0_l.
  rewrite Zmult_mod_idemp_r, Z.mul_1_r. reflexivity.
Qed.

Lemma selected_shares (prime threshold num_parties : Z) (draws : nat -> Z)
  (secret : Z) (ids : list Z) (selected : list SecretShare) :
  (forall id, In id ids -> 1 <= id <= num_parties) ->
  Forall2 (fun id share =>
             getitem (create_shares prime threshold num_parties draws secret)
               (id - 1) = Ok share)
    ids selected ->
  selected
  = map (fun id => mkShare id
                     (evaluate_polynomial prime
                        (generate_polynomial threshold draws secret) id))
      ids.
Proof.
  intros Hids H. induction H as [|id share ids selected Hg _ IH].
  - reflexivity.
  - cbn [map]. f_equal.
    + unfold create_shares in Hg.
      rewrite (getitem_map _ _ _ (1 + (id - 1))) in Hg.
      * replace (1 + (id - 1)) with id in Hg by lia.
        injection Hg as <-. reflexivity.
      * apply getitem_range. specialize (Hids id (or_introl eq_refl)). lia.
    + apply IH. intros id' Hid'. apply Hids. right. exact Hid'.
Qed.

Lemma NoDup_firstn {A : Type} (k : nat) (l : list A) :
  NoDup l -> NoDup (firstn k l).
Proof.
  intros H. rewrite <- (firstn_skipn k l) in H.
  apply NoDup_app_remove_r in H. exact H.
Qed.

Lemma In_firstn {A : Type} (k : nat) (l : list A) (a : A) :
  In a (firstn k l) -> In a l.
Proof.
  intros H. rewrite <- (firstn_skipn k l). apply in_or_app. left. exact H.
Qed.

(** X3.  Dealing and reconstruction round trip: in a [threshold]-of-
    [num_parties] sharing modulo a prime above [num_parties], the shares of
    any [threshold] or more distinct parties, taken in any order from what
    [create_shares] returned, give the secret back through
    [reconstruct_secret]. *)
Theorem shares_reconstruct_secret
  (p threshold num_parties : Z) (draws : nat -> Z) (secret : Z)
  (ids : list Z) (selected : list SecretShare) :
  Z.prime p ->
  1 <= threshold <= num_parties -> num_parties < p ->
  0 <= secret < p ->
  NoDup ids ->
  (forall id, In id ids -> 1 <= id <= num_parties) ->
  threshold <= len ids ->
  Forall2 (fun id share =>
             getitem (create_shares p threshold num_parties draws secret)
               (id - 1) = Ok share)
    ids selected ->
  reconstruct_secret p Crypto.inverse threshold selected = Ok secret.
Proof.
  intros p_prime Ht Hn Hs Hnd Hids Hlen Hsel.
  rewrite (selected_shares p threshold num_parties draws secret ids selected
             Hids Hsel).
  set (cs := generate_polynomial threshold draws secret).
  set (share_of := fun id => mkShare id (evaluate_polynomial p cs id)).
  unfold reconstruct_secret.
  assert (Hl : len (map share_of ids) = len ids)
    by (unfold len; rewrite length_map; reflexivity).
  destruct (Z.ltb_spec (len (map share_of ids)) threshold); [lia|].
  rewrite slice_to_firstn by lia. rewrite firstn_map.
  set (first := firstn (Z.to_nat threshold) ids).
  rewrite (reconstruct_shares p p_prime Crypto.inverse
             (inverse_inverts p p_prime) (map share_of first) cs).
  - f_equal. unfold cs, generate_polynomial. cbn [peval].
    rewrite Z.mul_0_l, Z.add_0_r. apply Z.mod_small. exact Hs.
  - rewrite map_map. cbn [x]. rewrite map_id.
    apply distinct_mod_range; [apply NoDup_firstn; exact Hnd|].
    intros z Hz. apply In_firstn in Hz. specialize (Hids z Hz). lia.
  - unfold cs, generate_polynomial, first. cbn [length].
    rewrite !length_map, length_seq, length_firstn. unfold len in Hlen. lia.
  - intros b Hb. apply in_map_iff in Hb. destruct Hb as (z & <- & _).
    unfold share_of. cbn [x y].
    rewrite (evaluate_polynomial_spec p p_prime). apply cong_mod.
Qed.

Lemma inverse_outcomes (u v : Z) :
  1 < v ->
  (exists w, Crypto.inverse u v = Ok w)
  \/ Crypto.inverse u v = Raise (ValueError NoInverse).
Proof.
  intros Hv. unfold Crypto.inverse.
  destruct (Z.eqb_spec v 0); [lia|].
  destruct (Z.ltb_spec v 0); [lia|].
  destruct (Crypto.euclid_loop _ _ _ _ _) as [u1 u3].
  destruct (negb (u3 =? 1)).
  - right. reflexivity.
  - left. eexists. reflexivity.
Qed.

Lemma lagrange_coefficient_outcomes (p : Z) (pre post : list SecretShare)
  (a : SecretShare) :
  1 < p ->
  (exists c, lagrange_coefficient p Crypto.inverse (pre ++ a :: post) (length pre)
             = Ok c)
  \/ lagrange_coefficient p Crypto.inverse (pre ++ a :: post) (length pre)
     = Raise (ValueError NoInverse).
Proof.
  intros Hp. unfold lagrange_coefficient. rewrite getitem_split. cbn [bind].
  destruct (lagrange_loop p (x a) (length pre) 0 (pre ++ a :: post) 1 1)
    as [num den].
  destruct (inverse_outcomes den p Hp) as [(w & ->)| ->]; cbn [bind].
  - left. eexists. reflexivity.
  - right. reflexivity.
Qed.

(** With [inverse], the coefficient of a share whose position another share
    has too is not computed. *)
Lemma lagrange_coefficient_duplicate (p : Z) (pre post : list SecretShare)
  (a : SecretShare) :
  1 < p ->
  (exists b, In b (pre ++ post) /\ x b = x a) ->
  lagrange_coefficient p Crypto.inverse (pre ++ a :: post) (length pre)
  = Raise (ValueError NoInverse).
Proof.
  intros Hp (b & Hb & Hx). unfold lagrange_coefficient.
  rewrite getitem_split. cbn [bind].
  destruct (lagrange_loop_split p (x a) (length pre) pre 0 a post 1 1 eq_refl)
    as [_ Hden].
  destruct (lagrange_loop p (x a) (length pre) 0 (pre ++ a :: post) 1 1)
    as [num den]. cbn [snd] in Hden.
  rewrite (prodl_zero (fun c => x a - x c) (pre ++ post) b Hb) in Hden by lia.
  rewrite Z.mul_0_r in Hden. unfold cong in Hden. rewrite Z.mod_0_l in Hden by lia.
  rewrite (inverse_no_inverse den p Hp Hden). reflexivity.
Qed.

Lemma reconstruct_loop_duplicate (p : Z) :
  1 < p ->
  forall r1 pre a r2 secret,
    (exists b, In b (pre ++ r1 ++ r2) /\ x b = x a) ->
    reconstruct_loop p Crypto.inverse (pre ++ r1 ++ a :: r2) (length pre)
      (r1 ++ a :: r2) secret
    = Raise (ValueError NoInverse).
Proof.
  intros Hp. induction r1 as [|c r1 IH]; intros pre a r2 secret Hdup;
    cbn [app reconstruct_loop].
  - rewrite (lagrange_coefficient_duplicate p pre r2 a Hp Hdup). reflexivity.
  - destruct (lagrange_coefficient_outcomes p pre (r1 ++ a :: r2) c Hp)
      as [(w & ->)| ->]; cbn [bind]; [|reflexivity].
    replace (pre ++ c :: r1 ++ a :: r2) with ((pre ++ [c]) ++ r1 ++ a :: r2)
      by (rewrite <- app_assoc; reflexivity).
    replace (S (length pre)) with (length (pre ++ [c]))
      by (rewrite length_app; cbn; lia).
    apply IH. destruct Hdup as (b & Hb & Hx). exists b. split; [|exact Hx].
    rewrite <- app_assoc. exact Hb.
Qed.

(** X4.  With [Crypto.Util.number.inverse], a position that occurs twice
    among the first [threshold] shares makes [reconstruct_secret] raise the
    [ValueError] of [inverse]: no value is returned. *)
Theorem reconstruct_secret_duplicate_positions
  (p threshold : Z) (shares before between after : list SecretShare)
  (a b : SecretShare) :
  1 < p ->
  0 <= threshold <= len shares ->
  slice_to shares threshold = before ++ a :: between ++ b :: after ->
  x a = x b ->
  reconstruct_secret p Crypto.inverse threshold shares
  = Raise (ValueError NoInverse).
Proof.
  intros Hp Ht Hsel Hx. unfold reconstruct_secret.
  destruct (Z.ltb_spec (len shares) threshold); [lia|].
  rewrite Hsel.
  apply (reconstruct_loop_duplicate p Hp before [] a (between ++ b :: after) 0).
  exists b. split; [|symmetry; exact Hx].
  cbn [app]. apply in_or_app. right. apply in_or_app. right. left. reflexivity.
Qed.

End ShamirExtras.

(** ** The BLS keys, verifications and signing round *)

Section BLSExtras.

Import Shamir.

Variable affine : Type.
Variable affine2 : Type.
Variable FQ12 : Type.
Variable add : option affine -> option affine -> option affine.
Variable multiply : option affine -> Z -> option affine.
Variable multiply2 : option affine2 -> Z -> option affine2.
Variable pairing : option affine2 -> option affine -> result FQ12.
Variable FQ12_eqb : FQ12 -> FQ12 -> bool.
Variable G1 : option affine.
Variable G2 : option affine2.
Variable p : Z.
Variable sha256 : list byte -> list byte.
Variable threshold : Z.
Variable num_parties : Z.
Variable sk : Z.
Variable draws : nat -> Z.

Local Abbreviation self :=
  (BLS.init affine2 multiply2 G2 p threshold num_parties sk draws).
Local Abbreviation hash_to_g1 := (BLS.hash_to_g1 affine multiply G1 p sha256).
Local Abbreviation get_private_share := (BLS.get_private_share affine2).
Local Abbreviation get_public_key_share := (BLS.get_public_key_share affine2).
Local Abbreviation create_partial_signature :=
  (BLS.create_partial_signature affine affine2 multiply G1 p sha256).
Local Abbreviation verify_partial_signature :=
  (BLS.verify_partial_signature affine affine2 FQ12 multiply pairing FQ12_eqb
     G1 G2 p sha256).
Local Abbreviation combine_signatures :=
  (BLS.combine_signatures affine affine2 add multiply p).
Local Abbreviation verify_signature :=
  (BLS.verify_signature affine affine2 FQ12 multiply pairing FQ12_eqb
     G1 G2 p sha256).
Local Abbreviation simulate_signing_process :=
  (BLS.simulate_signing_process affine affine2 FQ12 add multiply pairing
     FQ12_eqb G1 G2 p sha256).
Local Abbreviation signing_loop :=
  (BLS.signing_loop affine affine2 FQ12 multiply pairing FQ12_eqb
     G1 G2 p sha256).

(** The value of the share of a party, and its partial signature. *)
Local Abbreviation share_value :=
  (fun id : Z =>
     evaluate_polynomial p (generate_polynomial threshold draws sk) id).
Local Abbreviation partial_of :=
  (fun (h : option affine) (id : Z) =>
     BLS.mkPartial affine id (multiply h (share_value id))).

Lemma get_public_key_share_init (party_id : Z) :
  1 <= party_id <= num_parties ->
  get_public_key_share self party_id = Ok (multiply2 G2 (share_value party_id)).
Proof.
  intros Hid. unfold BLS.get_public_key_share, BLS.init.
  cbn [BLS.num_parties BLS.public_key_shares].
  destruct (Z.ltb_spec party_id 1); [lia|].
  destruct (Z.ltb_spec num_parties party_id); [lia|].
  cbn [orb]. unfold create_shares.
  assert (Hs : getitem
                 (map (fun i => mkShare i (share_value i))
                    (range 1 (num_parties + 1)))
                 (party_id - 1)
               = Ok (mkShare party_id (share_value party_id))).
  { rewrite (getitem_map _ _ _ (1 + (party_id - 1)))
      by (apply getitem_range; lia).
    replace (1 + (party_id - 1)) with party_id by lia. reflexivity. }
  rewrite (getitem_map _ _ _ _ Hs). reflexivity.
Qed.

(** X5.  In the context [__init__] builds, a party id in
    [1..num_parties] looks up that party's share [(id, f(id))] and its
    public key share [multiply(G2, f(id))]; any other id raises the
    [ValueError] of unknown parties, in both lookups. *)
Theorem bls_key_share_lookup (party_id : Z) :
  (1 <= party_id <= num_parties ->
   get_private_share self party_id
   = Ok (mkShare party_id (share_value party_id)) /\
   get_public_key_share self party_id
   = Ok (multiply2 G2 (share_value party_id))) /\
  (party_id < 1 \/ num_parties < party_id ->
   get_private_share self party_id = Raise (UnknownParty num_parties) /\
   get_public_key_share self party_id = Raise (UnknownParty num_parties)).
Proof.
  split.
  - intros Hid. split.
    + apply get_private_share_init. exact Hid.
    + apply get_public_key_share_init. exact Hid.
  - intros Hout. unfold BLS.get_private_share, BLS.get_public_key_share.
    cbn [BLS.num_parties BLS.init].
    assert (Hc : (party_id <? 1) || (num_parties <? party_id) = true).
    { destruct (Z.ltb_spec party_id 1), (Z.ltb_spec num_parties party_id);
        cbn; try reflexivity; lia. }
    rewrite Hc. split; reflexivity.
Qed.

Lemma share_value_nonneg (id : Z) : 0 < p -> 0 <= share_value id.
Proof.
  intros Hp. unfold evaluate_polynomial.
  apply (evaluate_loop_bounds p id Hp). lia.
Qed.

Lemma verify_partial_produced (h_message : list byte) (party_id : Z) :
  0 < p ->
  pairing_laws multiply multiply2 pairing FQ12_eqb ->
  1 <= party_id <= num_parties ->
  verify_partial_signature self (partial_of (hash_to_g1 h_message) party_id)
    h_message
  = Ok true.
Proof.
  intros Hp Hpair Hid.
  unfold BLS.verify_partial_signature, BLS.verify_partial_signature_try.
  cbn [BLS.signer_id BLS.signature].
  rewrite get_public_key_share_init by exact Hid. cbn [bind].
  rewrite (pairing_bilinear _ _ _ _ Hpair) by (apply share_value_nonneg; exact Hp).
  destruct (pairing_returns _ _ _ _ Hpair G2
              (multiply (hash_to_g1 h_message) (share_value party_id)))
    as (e & ->).
  cbn [bind try_except]. rewrite (FQ12_eqb_refl _ _ _ _ Hpair). reflexivity.
Qed.

(** X6.  Partial verifiability: with a bilinear pairing, the partial
    signature a party in [1..num_parties] creates on a message is accepted
    by [verify_partial_signature] for that message. *)
Theorem bls_partial_signature_verifies (message : list byte) (party_id : Z) :
  0 < p ->
  pairing_laws multiply multiply2 pairing FQ12_eqb ->
  1 <= party_id <= num_parties ->
  exists partial_sig,
    create_partial_signature self party_id message = Ok partial_sig /\
    verify_partial_signature self partial_sig message = Ok true.
Proof.
  intros Hp Hpair Hid. eexists. split.
  - apply create_partial_signature_init. exact Hid.
  - apply verify_partial_produced; assumption.
Qed.

(** X7.  A partial signature whose signer id is not in [1..num_parties] is
    reported invalid by [verify_partial_signature], whatever its point and
    the context: the [ValueError] of the lookup does not escape. *)
Theorem bls_verify_partial_unknown_signer
  (context : BLS.BLSThresholdSignature affine2)
  (partial_sig : BLS.BLSPartialSignature affine) (message : list byte) :
  BLS.signer_id affine partial_sig < 1
  \/ BLS.num_parties affine2 context < BLS.signer_id affine partial_sig ->
  verify_partial_signature context partial_sig message = Ok false.
Proof.
  intros Hout.
  unfold BLS.verify_partial_signature, BLS.verify_partial_signature_try,
    BLS.get_public_key_share.
  assert (Hc : (BLS.signer_id affine partial_sig <? 1)
               || (BLS.num_parties affine2 context
                   <? BLS.signer_id affine partial_sig) = true).
  { destruct (Z.ltb_spec (BLS.signer_id affine partial_sig) 1),
      (Z.ltb_spec (BLS.num_parties affine2 context)
         (BLS.signer_id affine partial_sig));
      cbn; try reflexivity; lia. }
  rewrite Hc. reflexivity.
Qed.

Lemma verify_partial_total
  (context : BLS.BLSThresholdSignature affine2)
  (partial_sig : BLS.BLSPartialSignature affine) (message : list byte) :
  exists b, verify_partial_signature context partial_sig message = Ok b.
Proof.
  unfold BLS.verify_partial_signature.
  destruct (BLS.verify_partial_signature_try _ _ _ _ _ _ _ _ _ _ _ _ _);
    eexists; reflexivity.
Qed.

Lemma signing_loop_valid (message : list byte) (signers : list Z) :
  (forall id, In id signers -> 1 <= id <= num_parties) ->
  signing_loop self message signers
  = Ok (map (partial_of (hash_to_g1 message)) signers).
Proof.
  induction signers as [|id signers IH]; intros Hids; cbn [BLS.signing_loop map].
  - reflexivity.
  - rewrite create_partial_signature_init by (apply Hids; left; reflexivity).
    cbn [bind].
    destruct (verify_partial_total self
                (partial_of (hash_to_g1 message) id) message) as (b & ->).
    cbn [bind]. rewrite IH; [reflexivity|].
    intros id' Hid'. apply Hids. right. exact Hid'.
Qed.

Lemma signing_loop_unknown (message : list byte) (signers : list Z) :
  (exists id, In id signers /\ (id < 1 \/ num_parties < id)) ->
  signing_loop self message signers = Raise (UnknownParty num_parties).
Proof.
  induction signers as [|id signers IH]; intros (bad & Hin & Hbad).
  - destruct Hin.
  - cbn [BLS.signing_loop].
    destruct (Z_le_gt_dec 1 id) as [H1|H1];
      [destruct (Z_le_gt_dec id num_parties) as [H2|H2]|].
    + rewrite create_partial_signature_init by lia. cbn [bind].
      destruct (verify_partial_total self
                  (partial_of (hash_to_g1 message) id) message) as (b & ->).
      cbn [bind]. rewrite IH; [reflexivity|].
      destruct Hin as [->|Hin]; [lia|]. exists bad. split; assumption.
    + unfold BLS.create_partial_signature, BLS.get_private_share.
      cbn [BLS.num_parties BLS.init].
      destruct (Z.ltb_spec id 1); [lia|].
      destruct (Z.ltb_spec num_parties id); [|lia]. reflexivity.
    + unfold BLS.create_partial_signature, BLS.get_private_share.
      cbn [BLS.num_parties BLS.init].
      destruct (Z.ltb_spec id 1); [|lia]. reflexivity.
Qed.

Hypothesis p_prime : Z.prime p.
Hypothesis add_ok : add_laws add.
Hypothesis multiply_ok : multiply_laws add multiply p.

(** The aggregate of a committee of at least [threshold] parties. *)
Lemma combine_committee (h : option affine) (signers : list Z) :
  1 <= threshold <= num_parties -> num_parties < p -> 0 <= sk < p ->
  NoDup signers ->
  (forall id, In id signers -> 1 <= id <= num_parties) ->
  threshold <= len signers ->
  combine_signatures self (map (partial_of h) signers) = Ok (multiply h sk).
Proof.
  intros Ht Hn Hsk Hnd Hids Hlen.
  pose proof (prime_gt_1 p p_prime) as Hp.
  rewrite (combine_signatures_spec affine add multiply p add_ok).
  2:{ cbn [BLS.threshold BLS.init]. unfold len in *. rewrite length_map. lia. }
  cbn [BLS.threshold BLS.init].
  rewrite slice_to_firstn by lia. rewrite firstn_map.
  set (first := firstn (Z.to_nat threshold) signers).
  assert (Hnd' : NoDup first) by (apply NoDup_firstn; exact Hnd).
  assert (Hids' : forall id, In id first -> 1 <= id <= num_parties).
  { intros id Hid. apply Hids. apply (In_firstn _ _ _ Hid). }
  assert (Hlen' : length first = Z.to_nat threshold).
  { unfold first. rewrite length_firstn. unfold len in Hlen. lia. }
  f_equal.
  destruct (weighted_sum affine add multiply p p_prime multiply_ok
              threshold sk draws h first []) as [Hsum Hpos].
  cbn [map] in Hsum, Hpos. rewrite Hsum.
  rewrite <- (multiply_mod affine add multiply p p_prime add_ok multiply_ok)
    by exact Hpos.
  transitivity (multiply h (sk mod p));
    [|rewrite (Z.mod_small sk p Hsk); reflexivity].
  f_equal.
  assert (Hl : cong p
            (sum_splits (fun q a r => y a * weight p a (q ++ r)) []
               (map (fun id => mkShare id (share_value id)) first))
            (peval (generate_polynomial threshold draws sk) 0)).
  { apply (lagrange_at_zero p p_prime).
    - rewrite map_map. cbn [x]. rewrite map_id.
      apply distinct_mod_range; [exact Hnd'|].
      intros z Hz. specialize (Hids' z Hz). lia.
    - unfold generate_polynomial. cbn [length].
      rewrite !length_map, length_seq. lia.
    - intros b Hb. apply in_map_iff in Hb. destruct Hb as (id & <- & _).
      cbn [x y]. rewrite (evaluate_polynomial_spec p p_prime).
      apply cong_mod.
    - intros pre a post Hss. apply (weight_spec p p_prime). rewrite <- Hss.
      rewrite map_map. cbn [x]. rewrite map_id.
      apply distinct_mod_range; [exact Hnd'|].
      intros z Hz. specialize (Hids' z Hz). lia. }
  unfold cong in Hl. rewrite Hl. f_equal.
  unfold generate_polynomial. cbn [peval]. ring.
Qed.

Hypothesis pairing_ok : pairing_laws multiply multiply2 pairing FQ12_eqb.

Lemma verify_master_signature (message : list byte) :
  0 <= sk ->
  verify_signature self (multiply (hash_to_g1 message) sk) message = Ok true.
Proof.
  intros Hsk. unfold BLS.verify_signature, BLS.verify_signature_try.
  cbn [BLS.public_key BLS.init].
  rewrite (pairing_bilinear _ _ _ _ pairing_ok) by exact Hsk.
  destruct (pairing_returns _ _ _ _ pairing_ok G2
              (multiply (hash_to_g1 message) sk)) as (e & ->).
  cbn [bind try_except]. rewrite (FQ12_eqb_refl _ _ _ _ pairing_ok). reflexivity.
Qed.

(** X8.  Completeness of the aggregate: in a context set up for
    [1 <= threshold <= num_parties < p], with G1 a group of prime order [p]
    and a bilinear pairing, the partial signatures of [threshold] or more
    distinct parties combine to a signature that [verify_signature] accepts
    for the message. *)
Theorem bls_aggregate_verifies (message : list byte) (signers : list Z)
  (partial_sigs : list (BLS.BLSPartialSignature affine)) :
  1 <= threshold <= num_parties -> num_parties < p -> 0 <= sk < p ->
  NoDup signers ->
  (forall id, In id signers -> 1 <= id <= num_parties) ->
  threshold <= len signers ->
  Forall2 (fun id sig => create_partial_signature self id message = Ok sig)
    signers partial_sigs ->
  exists sigma,
    combine_signatures self partial_sigs = Ok sigma /\
    verify_signature self sigma message = Ok true.
Proof.
  intros Ht Hn Hsk Hnd Hids Hlen Hprod.
  rewrite (produced_partials affine affine2 multiply multiply2 G1 G2 p sha256
             threshold num_parties sk draws message signers partial_sigs
             Hids Hprod).
  exists (multiply (hash_to_g1 message) sk). split.
  - apply combine_committee; assumption.
  - apply verify_master_signature. lia.
Qed.

(** X9.  A signing round of [threshold] or more distinct parties of
    [1..num_parties] succeeds: [simulate_signing_process] returns [True]. *)
Theorem bls_simulate_signing_process_succeeds
  (message : list byte) (signers : list Z) :
  1 <= threshold <= num_parties -> num_parties < p -> 0 <= sk < p ->
  NoDup signers ->
  (forall id, In id signers -> 1 <= id <= num_parties) ->
  threshold <= len signers ->
  simulate_signing_process self message signers = Ok true.
Proof.
  intros Ht Hn Hsk Hnd Hids Hlen. unfold BLS.simulate_signing_process.
  cbn [BLS.threshold BLS.init].
  destruct (Z.ltb_spec (len signers) threshold); [lia|].
  rewrite signing_loop_valid by exact Hids. cbn [bind].
  rewrite combine_committee by assumption.
  apply verify_master_signature. lia.
Qed.

End BLSExtras.

Section BLSRoundFailures.

Variable affine : Type.
Variable affine2 : Type.
Variable FQ12 : Type.
Variable add : option affine -> option affine -> option affine.
Variable multiply : option affine -> Z -> option affine.
Variable multiply2 : option affine2 -> Z -> option affine2.
Variable pairing : option affine2 -> option affine -> result FQ12.
Variable FQ12_eqb : FQ12 -> FQ12 -> bool.
Variable G1 : option affine.
Variable G2 : option affine2.
Variable p : Z.
Variable sha256 : list byte -> list byte.

Local Abbreviation simulate_signing_process :=
  (BLS.simulate_signing_process affine affine2 FQ12 add multiply pairing
     FQ12_eqb G1 G2 p sha256).

(** X10.  How a BLS signing round fails: with fewer signers than the
    threshold [simulate_signing_process] returns [False]; with enough
    signers, one of which is not in [1..num_parties], the [ValueError] of
    [create_partial_signature] escapes it. *)
Theorem bls_simulate_signing_process_failures
  (threshold num_parties sk : Z) (draws : nat -> Z)
  (message : list byte) (signers : list Z) :
  (len signers < threshold ->
   simulate_signing_process
     (BLS.init affine2 multiply2 G2 p threshold num_parties sk draws)
     message signers
   = Ok false) /\
  (threshold <= len signers ->
   (exists id, In id signers /\ (id < 1 \/ num_parties < id)) ->
   simulate_signing_process
     (BLS.init affine2 multiply2 G2 p threshold num_parties sk draws)
     message signers
   = Raise (UnknownParty num_parties)).
Proof.
  unfold BLS.simulate_signing_process. cbn [BLS.threshold BLS.init]. split.
  - intros Hlen. destruct (Z.ltb_spec (len signers) threshold); [|lia].
    reflexivity.
  - intros Hlen Hbad. destruct (Z.ltb_spec (len signers) threshold); [lia|].
    rewrite (signing_loop_unknown affine affine2 FQ12 multiply multiply2
               pairing FQ12_eqb G1 G2 p sha256 threshold num_parties sk draws
               message signers Hbad).
    reflexivity.
Qed.

End BLSRoundFailures.

(** ** The ECDSA signing round *)

Section ECDSARound.

Import Shamir.

Variable ec_affine : Type.
Variable affine_x : ec_affine -> Z.
Variable ec_add : option ec_affine -> option ec_affine -> option ec_affine.
Variable ec_mul : Z -> option ec_affine -> option ec_affine.
Variable generator : option ec_affine.
Variable sha256 : list byte -> list byte.

Local Abbreviation create_partial_signature :=
  (ECDSA.create_partial_signature ec_affine affine_x ec_mul generator sha256).
Local Abbreviation combine_signatures := (ECDSA.combine_signatures ec_affine).
Local Abbreviation verify_signature :=
  (ECDSA.verify_signature ec_affine affine_x ec_add ec_mul generator sha256).
Local Abbreviation signing_loop :=
  (ECDSA.signing_loop ec_affine affine_x ec_mul generator sha256).
Local Abbreviation simulate_signing_process :=
  (ECDSA.simulate_signing_process ec_affine affine_x ec_add ec_mul generator
     sha256).
Local Abbreviation x_mod := (ECDSA.x_mod ec_affine affine_x).
Local Abbreviation prime := (ECDSA.prime ec_affine).
Local Abbreviation get_private_share := (ECDSA.get_private_share ec_affine).

(** The nonce a call with [k = None] uses. *)
Local Abbreviation nonce :=
  (fun (shared_k : option Z) (randbelow : Z) =>
     match shared_k with
     | Some k => k
     | None => randbelow + 1
     end).

Lemma create_cached_outcome
  (self : ECDSA.ThresholdSignature ec_affine) (shared_k : option Z)
  (randbelow party_id : Z) (message : list byte)
  (sig : ECDSA.PartialSignature) (shared_k' : option Z) :
  create_partial_signature self shared_k randbelow party_id message None
  = (Ok sig, shared_k') ->
  shared_k' = Some (nonce shared_k randbelow) /\
  exists share k_inv,
    get_private_share self party_id = Ok share /\
    x_mod (ec_mul (nonce shared_k randbelow) generator) (prime self)
    = Ok (ECDSA.r sig) /\
    ECDSA.s sig
    = (k_inv * (int_from_bytes_big (sha256 message) mod prime self
                + ECDSA.r sig * y share)) mod prime self.
Proof.
  unfold ECDSA.create_partial_signature.
  destruct (get_private_share self party_id) as [share|e]; [|discriminate].
  destruct shared_k as [k|]; cbn beta iota.
  - destruct (x_mod (ec_mul k generator) (prime self)) as [r|e]; cbn [bind];
      [|discriminate].
    destruct (Crypto.inverse k (prime self)) as [k_inv|e]; cbn [bind];
      [|discriminate].
    intros [= <- <-]. split; [reflexivity|].
    exists share, k_inv. cbn [ECDSA.r ECDSA.s]. auto.
  - destruct (x_mod (ec_mul (randbelow + 1) generator) (prime self)) as [r|e];
      cbn [bind]; [|discriminate].
    destruct (Crypto.inverse (randbelow + 1) (prime self)) as [k_inv|e];
      cbn [bind]; [|discriminate].
    intros [= <- <-]. split; [reflexivity|].
    exists share, k_inv. cbn [ECDSA.r ECDSA.s]. auto.
Qed.

(** X11.  The nonce of a round is reused, not drawn again: when two calls
    of [create_partial_signature] with [k = None] follow each other for one
    party, the first with [_shared_k] unset, both partial signatures have
    the same [r], also on two different messages and whatever
    [secrets.randbelow] would return; and the party's share [y] then
    satisfies [r * y * (s2 - s1) = s1 * e2 - s2 * e1] modulo the prime. *)
Theorem ecdsa_reused_nonce_reveals_share
  (self : ECDSA.ThresholdSignature ec_affine)
  (randbelow1 randbelow2 party_id : Z) (message1 message2 : list byte)
  (sig1 sig2 : ECDSA.PartialSignature) (shared_k1 shared_k2 : option Z) :
  create_partial_signature self None randbelow1 party_id message1 None
  = (Ok sig1, shared_k1) ->
  create_partial_signature self shared_k1 randbelow2 party_id message2 None
  = (Ok sig2, shared_k2) ->
  shared_k1 = Some (randbelow1 + 1) /\
  shared_k2 = shared_k1 /\
  ECDSA.r sig1 = ECDSA.r sig2 /\
  exists share,
    get_private_share self party_id = Ok share /\
    cong (prime self)
      (ECDSA.r sig1 * y share * (ECDSA.s sig2 - ECDSA.s sig1))
      (ECDSA.s sig1 * (int_from_bytes_big (sha256 message2) mod prime self)
       - ECDSA.s sig2 * (int_from_bytes_big (sha256 message1) mod prime self)).
Proof.
  intros H1 H2.
  unfold ECDSA.create_partial_signature in H1, H2.
  destruct (get_private_share self party_id) as [share|e]; [|discriminate].
  destruct (x_mod (ec_mul (randbelow1 + 1) generator) (prime self)) as [r|e]
    eqn:Hr; cbn [bind] in H1; [|discriminate].
  destruct (Crypto.inverse (randbelow1 + 1) (prime self)) as [k_inv|e] eqn:Hk;
    cbn [bind] in H1; [|discriminate].
  injection H1 as <- <-.
  rewrite Hr in H2. cbn [bind] in H2. rewrite Hk in H2. cbn [bind] in H2.
  injection H2 as <- <-.
  cbn [ECDSA.r ECDSA.s]. repeat split.
  exists share. split; [reflexivity|].
  rewrite !cong_mod. cong_ring.
Qed.

Lemma signing_loop_nonce
  (self : ECDSA.ThresholdSignature ec_affine) (randbelow : Z)
  (message : list byte) :
  forall signers shared_k partial_sigs shared_k',
    signing_loop self shared_k randbelow message signers
    = (Ok partial_sigs, shared_k') ->
    (forall a, In a partial_sigs ->
       x_mod (ec_mul (nonce shared_k randbelow) generator) (prime self)
       = Ok (ECDSA.r a)) /\
    (partial_sigs <> [] -> shared_k' = Some (nonce shared_k randbelow)).
Proof.
  induction signers as [|id signers IH];
    intros shared_k partial_sigs shared_k' H; cbn [ECDSA.signing_loop] in H.
  - injection H as <- <-. split; [intros a []|]. intros Hne. contradiction.
  - destruct (create_partial_signature self shared_k randbelow id message None)
      as [[sig|e] st1] eqn:Hc; [|discriminate].
    destruct (create_cached_outcome self shared_k randbelow id message sig st1 Hc)
      as (-> & share & k_inv & _ & Hr & _).
    destruct (signing_loop self (Some (nonce shared_k randbelow)) randbelow
                message signers) as [[rest|e] st2] eqn:Hl; [|discriminate].
    injection H as <- <-.
    destruct (IH _ _ _ Hl) as [IH1 IH2]. cbn beta iota in IH1, IH2.
    split.
    + intros a [<-|Ha]; [exact Hr|]. apply IH1. exact Ha.
    + intros _. destruct rest as [|b rest].
      * destruct signers as [|id' signers]; cbn [ECDSA.signing_loop] in Hl.
        -- injection Hl as <-. reflexivity.
        -- destruct (create_partial_signature self _ randbelow id' message None)
             as [[sig'|e] st3]; [|discriminate].
           destruct (signing_loop self st3 randbelow message signers)
             as [[rest'|e] st4]; discriminate.
      * apply IH2. discriminate.
Qed.

(** X12.  Nonce consistency of a round: the partial signatures the loop of
    [simulate_signing_process] collects all carry the [r] of one nonce (the
    cached one, or the one drawn for the first signer), which is what
    [_shared_k] holds afterwards. *)
Theorem ecdsa_round_partials_share_r
  (self : ECDSA.ThresholdSignature ec_affine) (shared_k : option Z)
  (randbelow : Z) (message : list byte) (signers : list Z)
  (partial_sigs : list ECDSA.PartialSignature) (shared_k' : option Z) :
  signing_loop self shared_k randbelow message signers
  = (Ok partial_sigs, shared_k') ->
  (forall a b, In a partial_sigs -> In b partial_sigs -> ECDSA.r a = ECDSA.r b) /\
  (forall a, In a partial_sigs ->
     x_mod (ec_mul (nonce shared_k randbelow) generator) (prime self)
     = Ok (ECDSA.r a)) /\
  (partial_sigs <> [] -> shared_k' = Some (nonce shared_k randbelow)).
Proof.
  intros H.
  destruct (signing_loop_nonce self randbelow message signers shared_k
              partial_sigs shared_k' H) as [Hr Hs].
  split; [|split; assumption].
  intros a b Ha Hb. pose proof (Hr a Ha) as Hra. rewrite (Hr b Hb) in Hra.
  injection Hra as Hra. symmetry. exact Hra.
Qed.

End ECDSARound.

(** ** The ECDSA scheme on the context [__init__] builds *)

Lemma len_set_constant (l : list Z) (c : Z) :
  l <> [] -> (forall a, In a l -> a = c) -> len_set l = 1.
Proof.
  intros Hne Hc. unfold len_set, len.
  assert (H : nodup Z.eq_dec l = [c]).
  { destruct l as [|a l]; [contradiction|]. clear Hne.
    assert (Ha : a = c) by (apply Hc; left; reflexivity). subst a.
    assert (Hl : forall b, In b l -> b = c) by (intros b Hb; apply Hc; right; exact Hb).
    clear Hc. induction l as [|b l IH]; [reflexivity|].
    assert (Hb : b = c) by (apply Hl; left; reflexivity). subst b.
    cbn [nodup]. destruct (in_dec Z.eq_dec c (c :: l)) as [_|n];
      [|exfalso; apply n; left; reflexivity].
    cbn [nodup] in IH. apply IH. intros b Hb. apply Hl. right. exact Hb. }
  rewrite H. reflexivity.
Qed.

Section ECDSAScheme.

Import Shamir.

Variable ec_affine : Type.
Variable affine_x : ec_affine -> Z.
Variable ec_add : option ec_affine -> option ec_affine -> option ec_affine.
Variable ec_mul : Z -> option ec_affine -> option ec_affine.
Variable generator : option ec_affine.
Variable sha256 : list byte -> list byte.

Variable p : Z.
Hypothesis p_prime : Z.prime p.

Variables threshold num_parties private_key_int : Z.
Variable draws : nat -> Z.

Local Abbreviation self :=
  (ECDSA.init ec_affine ec_mul generator p threshold num_parties
     private_key_int draws).
Local Abbreviation create_partial_signature :=
  (ECDSA.create_partial_signature ec_affine affine_x ec_mul generator sha256).
Local Abbreviation combine_signatures := (ECDSA.combine_signatures ec_affine).
Local Abbreviation verify_signature :=
  (ECDSA.verify_signature ec_affine affine_x ec_add ec_mul generator sha256).
Local Abbreviation signing_loop :=
  (ECDSA.signing_loop ec_affine affine_x ec_mul generator sha256).
Local Abbreviation simulate_signing_process :=
  (ECDSA.simulate_signing_process ec_affine affine_x ec_add ec_mul generator
     sha256).
Local Abbreviation hash_int :=
  (fun message : list byte => int_from_bytes_big (sha256 message) mod p).
Local Abbreviation share_value :=
  (evaluate_polynomial p (generate_polynomial threshold draws private_key_int)).

(** The partial signature of a party for the nonce with inverse [k_inv] and
    x-coordinate [r]. *)
Local Abbreviation partial_of :=
  (fun (k_inv r e id : Z) =>
     ECDSA.mkPartial id r ((k_inv * (e + r * share_value id)) mod p)).

Lemma create_partial_signature_nonce
  (shared_k : option Z) (randbelow party_id : Z) (message : list byte)
  (k : option Z) (nonce k_inv : Z) (P : ec_affine) :
  1 <= party_id <= num_parties ->
  nonce = match k with
          | Some k => k
          | None => match shared_k with
                    | Some k => k
                    | None => randbelow + 1
                    end
          end ->
  ec_mul nonce generator = Some P ->
  Crypto.inverse nonce p = Ok k_inv ->
  create_partial_signature self shared_k randbelow party_id message k
  = (Ok (partial_of k_inv (affine_x P mod p) (hash_int message) party_id),
     match k with
     | Some _ => shared_k
     | None => Some nonce
     end).
Proof.
  intros Hid -> HP Hinv. unfold ECDSA.create_partial_signature.
  rewrite (ecdsa_get_private_share_init ec_affine ec_mul generator) by exact Hid.
  cbn [ECDSA.prime ECDSA.init y].
  destruct k as [k|]; [|destruct shared_k as [k|]];
    rewrite HP; cbn [ECDSA.x_mod bind]; rewrite Hinv; reflexivity.
Qed.

Lemma signing_loop_round (randbelow : Z) (message : list byte)
  (k_inv : Z) (P : ec_affine) :
  forall signers shared_k,
    (forall id, In id signers -> 1 <= id <= num_parties) ->
    ec_mul (match shared_k with Some k => k | None => randbelow + 1 end)
      generator = Some P ->
    Crypto.inverse (match shared_k with Some k => k | None => randbelow + 1 end)
      p = Ok k_inv ->
    signing_loop self shared_k randbelow message signers
    = (Ok (map (partial_of k_inv (affine_x P mod p) (hash_int message)) signers),
       match signers with
       | [] => shared_k
       | _ :: _ =>
           Some (match shared_k with Some k => k | None => randbelow + 1 end)
       end).
Proof.
  induction signers as [|id signers IH]; intros shared_k Hids HP Hinv;
    [reflexivity|].
  cbn [ECDSA.signing_loop map].
  rewrite (create_partial_signature_nonce shared_k randbelow id message None
             _ k_inv P) by (auto; apply Hids; left; reflexivity).
  rewrite IH; [|intros z Hz; apply Hids; right; exact Hz|exact HP|exact Hinv].
  destruct signers; reflexivity.
Qed.

Lemma combine_round (k_inv r e : Z) (signers : list Z) (message : list byte) :
  1 <= threshold <= num_parties -> num_parties < p ->
  NoDup signers ->
  (forall id, In id signers -> 1 <= id <= num_parties) ->
  threshold <= len signers ->
  combine_signatures self (map (partial_of k_inv r e) signers) message
  = Ok (r, (k_inv * (e + r * private_key_int)) mod p).
Proof.
  intros Ht Hn Hnd Hids Hlen.
  unfold ECDSA.combine_signatures. cbn [ECDSA.threshold ECDSA.init].
  assert (Hl : len (map (partial_of k_inv r e) signers) = len signers)
    by (unfold len; rewrite length_map; reflexivity).
  rewrite Hl. destruct (Z.ltb_spec (len signers) threshold); [lia|].
  rewrite map_map. cbn [ECDSA.r].
  destruct signers as [|id0 rest] eqn:Hsig; [unfold len in Hlen; cbn in Hlen; lia|].
  rewrite <- Hsig in *.
  rewrite (len_set_constant _ r);
    [|rewrite Hsig; discriminate
     |intros a Ha; apply in_map_iff in Ha; destruct Ha as (z & <- & _);
      reflexivity].
  rewrite Z.eqb_refl. cbn [negb].
  assert (H0 : getitem (map (partial_of k_inv r e) signers) 0
               = Ok (partial_of k_inv r e id0)).
  { rewrite Hsig. cbn [map]. apply (getitem_split [] _ _). }
  rewrite H0. cbn [bind ECDSA.r].
  rewrite slice_to_firstn by lia. rewrite firstn_map, map_map.
  cbn [ECDSA.signer_id ECDSA.s].
  set (first := firstn (Z.to_nat threshold) signers).
  set (cs := generate_polynomial threshold draws private_key_int).
  unfold ECDSA.reconstruct_secret, reconstruct_secret.
  cbn [ECDSA.threshold ECDSA.prime ECDSA.init].
  assert (Hf : len first = threshold).
  { unfold len, first. rewrite length_firstn. unfold len in Hlen. lia. }
  assert (Hm : len (map (fun id => mkShare id
                  ((k_inv * (e + r * evaluate_polynomial p cs id)) mod p)) first)
               = threshold)
    by (unfold len in *; rewrite length_map; exact Hf).
  rewrite Hm. rewrite Z.ltb_irrefl. rewrite (slice_to_len _ _ Hm).
  rewrite (reconstruct_shares p p_prime Crypto.inverse
             (inverse_inverts p p_prime) _
             (padd [k_inv * e] (pscale (k_inv * r) cs))).
  - cbn [bind]. do 2 f_equal. rewrite peval_padd, peval_pscale.
    unfold cs, generate_polynomial. cbn [peval].
    apply (f_equal (fun t => t mod p)). ring.
  - rewrite map_map. cbn [x]. rewrite map_id.
    apply distinct_mod_range; [apply NoDup_firstn; exact Hnd|].
    intros z Hz. apply In_firstn in Hz. specialize (Hids z Hz). lia.
  - rewrite length_padd. unfold pscale, cs, generate_polynomial.
    rewrite length_map. cbn [length]. rewrite !length_map, length_seq.
    unfold len in Hf. lia.
  - intros b Hb. apply in_map_iff in Hb. destruct Hb as (z & <- & _).
    cbn [x y]. rewrite peval_padd, peval_pscale. cbn [peval].
    rewrite (evaluate_polynomial_spec p p_prime).
    rewrite cong_mod. rewrite (cong_mod p (peval cs z)).
    cong_ring.
Qed.

Lemma produced_round (shared_k : option Z) (randbelow : Z)
  (message : list byte) (k k_inv : Z) (P : ec_affine) :
  ec_mul k generator = Some P ->
  Crypto.inverse k p = Ok k_inv ->
  forall signers partial_sigs,
    (forall id, In id signers -> 1 <= id <= num_parties) ->
    Forall2 (fun id sig =>
               fst (create_partial_signature self shared_k randbelow id message
                      (Some k)) = Ok sig)
      signers partial_sigs ->
    partial_sigs
    = map (partial_of k_inv (affine_x P mod p) (hash_int message)) signers.
Proof.
  intros HP Hinv. induction signers as [|id signers IH];
    intros partial_sigs Hids HF; inversion HF as [|? sig ? rest Hc HF']; subst;
    [reflexivity|].
  cbn [map].
  rewrite (create_partial_signature_nonce shared_k randbelow id message (Some k)
             k k_inv P) in Hc by (auto; apply Hids; left; reflexivity).
  cbn [fst] in Hc. injection Hc as <-. f_equal.
  apply IH; [intros z Hz; apply Hids; right; exact Hz|exact HF'].
Qed.

(** X13.  The aggregate of a committee satisfies the ECDSA signing equation
    of the master key: when [threshold] or more distinct parties sign one
    message with the same nonce [k] (not zero modulo the prime order, [k*G]
    not the point at infinity), [combine_signatures] returns [(r, s)] with
    [r] the x-coordinate of [k*G] modulo the order and
    [k * s = hash + r * private_key] modulo the order, whichever committee
    signed. *)
Theorem ecdsa_aggregate_signing_equation
  (shared_k : option Z) (randbelow : Z) (message : list byte) (k : Z)
  (P : ec_affine) (signers : list Z)
  (partial_sigs : list ECDSA.PartialSignature) :
  1 <= threshold <= num_parties -> num_parties < p ->
  1 <= k < p ->
  ec_mul k generator = Some P ->
  NoDup signers ->
  (forall id, In id signers -> 1 <= id <= num_parties) ->
  threshold <= len signers ->
  Forall2 (fun id sig =>
             fst (create_partial_signature self shared_k randbelow id message
                    (Some k)) = Ok sig)
    signers partial_sigs ->
  exists s,
    combine_signatures self partial_sigs message
    = Ok (affine_x P mod p, s) /\
    0 <= s < p /\
    cong p (k * s) (hash_int message + (affine_x P mod p) * private_key_int).
Proof.
  intros Ht Hn Hk HP Hnd Hids Hlen HF.
  pose proof (prime_gt_1 p p_prime) as Hp.
  destruct (inverse_spec k p Hp (prime_small_gcd p k p_prime Hk))
    as (k_inv & Hinv & _ & Hki).
  rewrite (produced_round shared_k randbelow message k k_inv P HP Hinv
             signers partial_sigs Hids HF).
  rewrite combine_round by assumption.
  eexists. split; [reflexivity|]. split; [apply Z.mod_pos_bound; lia|].
  set (e := hash_int message). set (r := affine_x P mod p). clearbody e r.
  rewrite cong_mod.
  transitivity ((k_inv * k) * (e + r * private_key_int)); [cong_ring|].
  rewrite Hki. cong_ring.
Qed.

Lemma signing_loop_unknown_party (randbelow : Z) (message : list byte)
  (k_inv : Z) (P : ec_affine) (bad : Z) (rest : list Z) :
  bad < 1 \/ num_parties < bad ->
  forall known shared_k,
    (forall id, In id known -> 1 <= id <= num_parties) ->
    ec_mul (match shared_k with Some k => k | None => randbelow + 1 end)
      generator = Some P ->
    Crypto.inverse (match shared_k with Some k => k | None => randbelow + 1 end)
      p = Ok k_inv ->
    signing_loop self shared_k randbelow message (known ++ bad :: rest)
    = (Raise (UnknownParty num_parties),
       match known with
       | [] => shared_k
       | _ :: _ =>
           Some (match shared_k with Some k => k | None => randbelow + 1 end)
       end).
Proof.
  intros Hbad. induction known as [|id known IH]; intros shared_k Hids HP Hinv;
    cbn [app ECDSA.signing_loop].
  - unfold ECDSA.create_partial_signature, ECDSA.get_private_share.
    cbn [ECDSA.num_parties ECDSA.init].
    destruct (Z.ltb_spec bad 1); [reflexivity|].
    destruct (Z.ltb_spec num_parties bad); [reflexivity|lia].
  - rewrite (create_partial_signature_nonce shared_k randbelow id message None
               _ k_inv P) by (auto; apply Hids; left; reflexivity).
    rewrite IH; [|intros z Hz; apply Hids; right; exact Hz|exact HP|exact Hinv].
    destruct known; reflexivity.
Qed.

(** X17.  How a round of the ECDSA scheme fails: with fewer signers than the
    threshold [simulate_signing_process] returns [False] and leaves the
    cached nonce as it was; with enough signers, an identifier outside
    [1..num_parties] makes it raise the [ValueError] of [get_private_share]
    instead of returning [False], and the nonce drawn for an earlier signer
    of the round stays in [_shared_k]. *)
Theorem ecdsa_simulate_signing_process_failures
  (shared_k : option Z) (randbelow : Z) (message : list byte)
  (signers : list Z) :
  (len signers < threshold ->
   simulate_signing_process self shared_k randbelow message signers
   = (Ok false, shared_k)) /\
  (forall known bad rest P,
     threshold <= len signers ->
     signers = known ++ bad :: rest ->
     (forall id, In id known -> 1 <= id <= num_parties) ->
     bad < 1 \/ num_parties < bad ->
     0 <= randbelow < p - 1 ->
     ec_mul (randbelow + 1) generator = Some P ->
     simulate_signing_process self shared_k randbelow message signers
     = (Raise (UnknownParty num_parties),
        match known with
        | [] => None
        | _ :: _ => Some (randbelow + 1)
        end)).
Proof.
  split.
  - intros Hlen. unfold ECDSA.simulate_signing_process.
    cbn [ECDSA.threshold ECDSA.init].
    destruct (Z.ltb_spec (len signers) threshold); [reflexivity|lia].
  - intros known bad rest P Hlen -> Hids Hbad Hrb HP.
    pose proof (prime_gt_1 p p_prime) as Hp.
    destruct (inverse_spec (randbelow + 1) p Hp
                (prime_small_gcd p (randbelow + 1) p_prime ltac:(lia)))
      as (k_inv & Hinv & _ & _).
    unfold ECDSA.simulate_signing_process.
    cbn [ECDSA.threshold ECDSA.init].
    destruct (Z.ltb_spec (len (known ++ bad :: rest)) threshold); [lia|].
    rewrite (signing_loop_unknown_party randbelow message k_inv P bad rest Hbad
               known None Hids HP Hinv).
    reflexivity.
Qed.

Lemma verify_signature_out_of_range (context : ECDSA.ThresholdSignature ec_affine)
  (r s : Z) (message : list byte) :
  r <= 0 \/ s <= 0 ->
  verify_signature context (r, s) message = Ok false.
Proof.
  intros H. unfold ECDSA.verify_signature, ECDSA.verify_signature_try.
  destruct (Z.leb_spec r 0); [reflexivity|].
  destruct (Z.leb_spec s 0); [|lia].
  cbn [orb]. rewrite orb_true_r. reflexivity.
Qed.

Section Curve.

Hypothesis ec_ok : ec_laws ec_add ec_mul p.

Lemma verification_point (e k r s w : Z) :
  0 <= private_key_int ->
  0 <= k < p ->
  0 <= w -> cong p (w * s) 1 ->
  cong p (k * s) (e + r * private_key_int) ->
  ec_add (ec_mul ((e * w) mod p) generator)
    (ec_mul ((r * w) mod p) (ec_mul private_key_int generator))
  = ec_mul k generator.
Proof.
  intros Hd Hk Hw Hws Heq.
  pose proof (prime_gt_1 p p_prime) as Hp.
  set (u1 := (e * w) mod p).
  set (u2 := (r * w) mod p).
  assert (Hu1 : 0 <= u1) by (apply Z.mod_pos_bound; lia).
  assert (Hu2 : 0 <= u2) by (apply Z.mod_pos_bound; lia).
  rewrite (ec_mul_mul _ _ _ ec_ok) by assumption.
  rewrite (ec_mul_add _ _ _ ec_ok)
    by (try assumption; apply Z.mul_nonneg_nonneg; assumption).
  rewrite <- (ec_mul_mod _ _ _ ec_ok)
    by (apply Z.add_nonneg_nonneg; [|apply Z.mul_nonneg_nonneg]; assumption).
  f_equal.
  rewrite <- (Z.mod_small k p) by exact Hk.
  change (cong p (u1 + u2 * private_key_int) k).
  unfold u1, u2. clear u1 u2 Hu1 Hu2.
  rewrite !cong_mod.
  transitivity (w * (e + r * private_key_int)); [cong_ring|].
  rewrite <- Heq.
  transitivity ((w * s) * k); [cong_ring|].
  rewrite Hws. cong_ring.
Qed.

(** X14.  Completeness of ECDSA verification for the master key: on a curve
    group of prime order [p] = [self.prime], [verify_signature] accepts
    every pair [(r, s)] with [0 < r], [0 < s < p] in which [r] is the
    x-coordinate modulo [p] of [k*G] for a nonce [k] that satisfies the
    signing equation [k * s = hash + r * private_key] modulo [p]. *)
Theorem ecdsa_verify_signature_complete (message : list byte) (k r s : Z)
  (P : ec_affine) :
  0 <= private_key_int ->
  0 <= k < p ->
  ec_mul k generator = Some P ->
  r = affine_x P mod p ->
  0 < r -> 0 < s < p ->
  cong p (k * s) (hash_int message + r * private_key_int) ->
  verify_signature self (r, s) message = Ok true.
Proof.
  intros Hd Hk HP Hr Hr0 Hs Heq.
  pose proof (prime_gt_1 p p_prime) as Hp.
  assert (Hrp : r < p) by (subst r; apply Z.mod_pos_bound; lia).
  unfold ECDSA.verify_signature, ECDSA.verify_signature_try.
  cbn [ECDSA.prime ECDSA.public_key_point ECDSA.init].
  destruct (Z.leb_spec r 0); [lia|].
  destruct (Z.leb_spec p r); [lia|].
  destruct (Z.leb_spec s 0); [lia|].
  destruct (Z.leb_spec p s); [lia|].
  cbn [orb].
  destruct (inverse_spec s p Hp (prime_small_gcd p s p_prime ltac:(lia)))
    as (w & -> & Hw & Hws).
  cbn [bind].
  rewrite (verification_point _ k r s w Hd Hk Hw Hws Heq), HP.
  cbn [ECDSA.x_mod bind try_except].
  rewrite <- Hr, Z.eqb_refl. reflexivity.
Qed.

(** X15.  A signing round of a committee: for [threshold] or more distinct
    registered signers, and a drawn nonce [k = randbelow + 1] whose multiple
    of the generator is not the point at infinity,
    [simulate_signing_process] returns [True] exactly when neither [r] nor
    the combined [s] is zero, never raises, forgets the nonce cached before
    the round and leaves [k] in [_shared_k]. *)
Theorem ecdsa_simulate_signing_process_outcome
  (shared_k : option Z) (randbelow : Z) (message : list byte)
  (signers : list Z) (P : ec_affine) :
  1 <= threshold <= num_parties -> num_parties < p ->
  0 <= private_key_int ->
  0 <= randbelow < p - 1 ->
  ec_mul (randbelow + 1) generator = Some P ->
  NoDup signers ->
  (forall id, In id signers -> 1 <= id <= num_parties) ->
  threshold <= len signers ->
  exists s,
    0 <= s < p /\
    cong p ((randbelow + 1) * s)
      (hash_int message + (affine_x P mod p) * private_key_int) /\
    simulate_signing_process self shared_k randbelow message signers
    = (Ok ((0 <? affine_x P mod p) && (0 <? s)), Some (randbelow + 1)).
Proof.
  intros Ht Hn Hd Hrb HP Hnd Hids Hlen.
  pose proof (prime_gt_1 p p_prime) as Hp.
  destruct (inverse_spec (randbelow + 1) p Hp
              (prime_small_gcd p (randbelow + 1) p_prime ltac:(lia)))
    as (k_inv & Hinv & _ & Hki).
  set (r := affine_x P mod p).
  set (s := (k_inv * (hash_int message + r * private_key_int)) mod p).
  assert (Hs : 0 <= s < p) by (apply Z.mod_pos_bound; lia).
  assert (Heq : cong p ((randbelow + 1) * s)
                  (hash_int message + r * private_key_int)).
  { unfold s. set (e := hash_int message). clearbody e r.
    rewrite cong_mod.
    transitivity ((k_inv * (randbelow + 1)) * (e + r * private_key_int));
      [cong_ring|].
    rewrite Hki. cong_ring. }
  exists s. split; [exact Hs|]. split; [exact Heq|].
  unfold ECDSA.simulate_signing_process. cbn [ECDSA.threshold ECDSA.init].
  destruct (Z.ltb_spec (len signers) threshold); [lia|].
  rewrite (signing_loop_round randbelow message k_inv P signers None Hids HP Hinv).
  fold r. rewrite combine_round by assumption. fold s.
  assert (Hsig : match signers with
                 | [] => None
                 | _ :: _ => Some (randbelow + 1)
                 end = Some (randbelow + 1)).
  { destruct signers; [unfold len in Hlen; cbn in Hlen; lia|reflexivity]. }
  rewrite Hsig. f_equal.
  destruct (Z.ltb_spec 0 r) as [Hr|Hr]; [destruct (Z.ltb_spec 0 s) as [Hs0|Hs0]|].
  - assert (Hrp : r < p) by (apply Z.mod_pos_bound; lia).
    unfold ECDSA.verify_signature, ECDSA.verify_signature_try.
    cbn [ECDSA.prime ECDSA.public_key_point ECDSA.init].
    destruct (Z.leb_spec r 0); [lia|].
    destruct (Z.leb_spec p r); [lia|].
    destruct (Z.leb_spec s 0); [lia|].
    destruct (Z.leb_spec p s); [lia|].
    cbn [orb].
    destruct (inverse_spec s p Hp (prime_small_gcd p s p_prime ltac:(lia)))
      as (w & -> & Hw & Hws).
    cbn [bind].
    rewrite (verification_point _ (randbelow + 1) r s w Hd ltac:(lia) Hw Hws
               Heq), HP.
    cbn [ECDSA.x_mod bind try_except].
    fold r. rewrite Z.eqb_refl. reflexivity.
  - apply verify_signature_out_of_range. right. exact Hs0.
  - apply verify_signature_out_of_range. left. exact Hr.
Qed.

End Curve.

End ECDSAScheme.

Section ECDSADuplicates.

Import Shamir.

Variable ec_affine : Type.

(** X16.  [combine_signatures] of the ECDSA scheme does not accept a signer
    twice: when two of the first [threshold] partial signatures have the
    same [signer_id] (and all have the same [r], so that the nonce check
    passes), the [ValueError] of [Crypto.Util.number.inverse] for the zero
    denominator of the Lagrange coefficient comes out of it. *)
Theorem ecdsa_combine_duplicate_signers
  (self : ECDSA.ThresholdSignature ec_affine)
  (partial_sigs before between after : list ECDSA.PartialSignature)
  (a b : ECDSA.PartialSignature) (message : list byte) :
  1 < ECDSA.prime ec_affine self ->
  0 <= ECDSA.threshold ec_affine self <= len partial_sigs ->
  (forall c, In c partial_sigs -> ECDSA.r c = ECDSA.r a) ->
  slice_to partial_sigs (ECDSA.threshold ec_affine self)
  = before ++ a :: between ++ b :: after ->
  ECDSA.signer_id a = ECDSA.signer_id b ->
  ECDSA.combine_signatures ec_affine self partial_sigs message
  = Raise (ValueError NoInverse).
Proof.
  intros Hp Ht Hr Hsl Hab.
  unfold ECDSA.combine_signatures.
  destruct (Z.ltb_spec (len partial_sigs) (ECDSA.threshold ec_affine self));
    [lia|].
  assert (Hne : partial_sigs <> []).
  { intros ->. rewrite slice_to_firstn in Hsl by lia.
    rewrite firstn_nil in Hsl. destruct before; discriminate. }
  rewrite (len_set_constant _ (ECDSA.r a));
    [|destruct partial_sigs; [contradiction|discriminate]
     |intros z Hz; apply in_map_iff in Hz; destruct Hz as (c & <- & Hc);
      apply Hr; exact Hc].
  rewrite Z.eqb_refl. cbn [negb].
  destruct partial_sigs as [|sig0 rest] eqn:Hsig; [contradiction|].
  rewrite (getitem_split [] rest sig0 : getitem (sig0 :: rest) 0 = Ok sig0).
  cbn [bind]. rewrite <- Hsig in *. rewrite Hsl.
  set (share_of := fun sig => mkShare (ECDSA.signer_id sig) (ECDSA.s sig)).
  unfold ECDSA.reconstruct_secret, reconstruct_secret.
  assert (Hm : len (map share_of (before ++ a :: between ++ b :: after))
               = ECDSA.threshold ec_affine self).
  { rewrite <- Hsl. unfold len. rewrite length_map.
    apply (len_slice_to partial_sigs). exact Ht. }
  rewrite Hm, Z.ltb_irrefl. rewrite (slice_to_len _ _ Hm).
  rewrite map_app. cbn [map]. rewrite map_app. cbn [map].
  assert (Hdup : exists c,
            In c ([] ++ map share_of before
                  ++ map share_of between ++ share_of b :: map share_of after)
            /\ x c = x (share_of a)).
  { exists (share_of b). split.
    - cbn [app]. apply in_or_app. right. apply in_or_app. right. left.
      reflexivity.
    - unfold share_of. cbn [x]. symmetry. exact Hab. }
  pose proof (reconstruct_loop_duplicate (ECDSA.prime ec_affine self) Hp
                (map share_of before) [] (share_of a)
                (map share_of between ++ share_of b :: map share_of after) 0
                Hdup) as Hloop.
  cbn [app length] in Hloop. rewrite Hloop. reflexivity.
Qed.

End ECDSADuplicates.

(** ** The two copies of [ShamirSecretSharing] *)

Lemma slice_to_map {A B : Type} (f : A -> B) (l : list A) (k : Z) :
  slice_to (map f l) k = map f (slice_to l k).
Proof.
  unfold slice_to, len. rewrite length_map.
  destruct (k <? 0); apply firstn_map.
Qed.

Section ShamirAlgebra.

Import Shamir.

Variable p : Z.
Variable field_inv : Z -> Z -> result Z.

Lemma lagrange_loop_positions (xi : Z) (i : nat) :
  forall s1 s2 j numerator denominator,
    map x s1 = map x s2 ->
    lagrange_loop p xi i j s1 numerator denominator
    = lagrange_loop p xi i j s2 numerator denominator.
Proof.
  induction s1 as [|a s1 IH]; intros [|b s2] j num den H; try discriminate;
    [reflexivity|].
  cbn [map] in H. injection H as Hab H. cbn [lagrange_loop]. rewrite Hab.
  destruct (Nat.eqb i j); apply IH; exact H.
Qed.

Lemma lagrange_coefficient_positions (s1 s2 : list SecretShare) (i : nat) :
  map x s1 = map x s2 ->
  lagrange_coefficient p field_inv s1 i = lagrange_coefficient p field_inv s2 i.
Proof.
  intros H. unfold lagrange_coefficient, getitem, len.
  assert (Hl : length s1 = length s2)
    by (rewrite <- (length_map x s1), H; apply length_map).
  rewrite Hl. cbv zeta.
  assert (Hi : (Z.of_nat i <? 0) = false) by (apply Z.ltb_ge; lia).
  rewrite !Hi.
  pose proof (f_equal (fun l => nth_error l (Z.to_nat (Z.of_nat i))) H) as Hn.
  cbn beta in Hn. rewrite !nth_error_map in Hn.
  destruct (nth_error s1 _) as [a|], (nth_error s2 _) as [b|];
    try discriminate; [|reflexivity].
  injection Hn as Hn. cbn [bind]. rewrite Hn.
  rewrite (lagrange_loop_positions (x b) i s1 s2 0 1 1 H). reflexivity.
Qed.

(** Shares of two secrets at the same positions, and the shares of a linear
    combination of the secrets. *)
Local Abbreviation first_of :=
  (fun t : Z * (Z * Z) => mkShare (fst t) (fst (snd t))).
Local Abbreviation second_of :=
  (fun t : Z * (Z * Z) => mkShare (fst t) (snd (snd t))).
Local Abbreviation combined_of :=
  (fun (u v : Z) (t : Z * (Z * Z)) =>
     mkShare (fst t) ((u * fst (snd t) + v * snd (snd t)) mod p)).

Lemma reconstruct_loop_linear (u v : Z) :
  forall rest sel1 sel2 sel i secret1 secret2 v1 v2,
    map x sel1 = map x sel -> map x sel2 = map x sel ->
    reconstruct_loop p field_inv sel1 i (map first_of rest) secret1 = Ok v1 ->
    reconstruct_loop p field_inv sel2 i (map second_of rest) secret2 = Ok v2 ->
    reconstruct_loop p field_inv sel i (map (combined_of u v) rest)
      ((u * secret1 + v * secret2) mod p)
    = Ok ((u * v1 + v * v2) mod p).
Proof.
  induction rest as [|t rest IH];
    intros sel1 sel2 sel i secret1 secret2 v1 v2 H1 H2 R1 R2;
    cbn [map reconstruct_loop] in *.
  - injection R1 as <-. injection R2 as <-. reflexivity.
  - rewrite (lagrange_coefficient_positions sel1 sel i H1) in R1.
    rewrite (lagrange_coefficient_positions sel2 sel i H2) in R2.
    destruct (lagrange_coefficient p field_inv sel i) as [c|e];
      cbn [bind] in *; [|discriminate].
    cbn [y] in *.
    rewrite <- (IH sel1 sel2 sel (S i) _ _ v1 v2 H1 H2 R1 R2).
    f_equal.
    change (cong p ((u * secret1 + v * secret2) mod p
                    + (u * fst (snd t) + v * snd (snd t)) mod p * c)
                   (u * ((secret1 + fst (snd t) * c) mod p)
                    + v * ((secret2 + snd (snd t) * c) mod p))).
    rewrite !cong_mod. cong_ring.
Qed.

(** X18.  [reconstruct_secret] is linear in the share values: when the
    shares of two secrets at the same positions both reconstruct, the shares
    [u * y1 + v * y2] (modulo the prime) at those positions reconstruct to
    [u] times the first result plus [v] times the second, modulo the prime.
    This holds with either modular inverse, for any positive modulus. *)
Theorem reconstruct_secret_linear (threshold u v : Z)
  (shares : list (Z * (Z * Z))) (v1 v2 : Z) :
  0 < p ->
  reconstruct_secret p field_inv threshold (map first_of shares) = Ok v1 ->
  reconstruct_secret p field_inv threshold (map second_of shares) = Ok v2 ->
  reconstruct_secret p field_inv threshold (map (combined_of u v) shares)
  = Ok ((u * v1 + v * v2) mod p).
Proof.
  intros Hp. unfold reconstruct_secret, len. rewrite !length_map.
  destruct (Z.of_nat (length shares) <? threshold); [discriminate|].
  rewrite !slice_to_map. intros R1 R2.
  rewrite <- (reconstruct_loop_linear u v (slice_to shares threshold)
                (map first_of (slice_to shares threshold))
                (map second_of (slice_to shares threshold))
                (map (combined_of u v) (slice_to shares threshold)) 0 0 0
                v1 v2); try assumption.
  - rewrite !Z.mul_0_r. reflexivity.
  - rewrite !map_map. reflexivity.
  - rewrite !map_map. reflexivity.
Qed.

End ShamirAlgebra.

Section ShamirCopies.

Import Shamir.

Variable ec_affine : Type.
Variable p : Z.
Hypothesis p_prime : Z.prime p.

(** X19.  The two files' copies of [lagrange_coefficient] agree on positions
    that are distinct modulo the prime: [py_ecc]'s [prime_field_inv] and
    [Crypto.Util.number.inverse] then give the same coefficient [c], the one
    with [c * prod (x_i - x_j) = prod (- x_j)] modulo the prime. *)
Theorem lagrange_coefficient_copies_agree
  (self : ECDSA.ThresholdSignature ec_affine)
  (pre post : list SecretShare) (a : SecretShare) :
  ECDSA.prime ec_affine self = p ->
  distinct_mod p (map x (pre ++ a :: post)) ->
  exists c,
    BLS.lagrange_coefficient p (pre ++ a :: post) (length pre) = Ok c /\
    ECDSA.lagrange_coefficient ec_affine self (pre ++ a :: post) (length pre)
    = Ok c /\
    0 <= c < p /\
    cong p (c * basis_den a pre post) (basis_num pre post).
Proof.
  intros Hself Hd. pose proof (prime_gt_1 p p_prime) as Hp.
  unfold BLS.lagrange_coefficient, ECDSA.lagrange_coefficient. rewrite Hself.
  destruct (lagrange_coefficient_spec p p_prime _
              (prime_field_inv_inverts p p_prime) pre post a Hd)
    as (c1 & Hc1 & Hr1 & Hb1).
  destruct (lagrange_coefficient_spec p p_prime _
              (inverse_inverts p p_prime) pre post a Hd)
    as (c2 & Hc2 & Hr2 & Hb2).
  exists c1. split; [exact Hc1|]. split; [|split; assumption].
  rewrite Hc2. f_equal.
  assert (Hden : ~ (p | basis_den a pre post)).
  { unfold basis_den. apply (prodl_not_divide p p_prime). intros b Hb.
    apply (distinct_split p p_prime _ pre post a b Hd eq_refl Hb). }
  destruct (inverse_inverts p p_prime _ Hden) as (w & _ & Hw).
  rewrite <- (Z.mod_small c1 p Hr1), <- (Z.mod_small c2 p Hr2).
  change (cong p c2 c1).
  transitivity (c2 * (w * basis_den a pre post)); [rewrite Hw; cong_ring|].
  transitivity (w * (c2 * basis_den a pre post)); [cong_ring|].
  rewrite Hb2, <- Hb1.
  transitivity (c1 * (w * basis_den a pre post)); [cong_ring|].
  rewrite Hw. cong_ring.
Qed.

End ShamirCopies.

(** ** The properties above on the toy instances *)

Lemma create_shares_positions_witness :
  map Shamir.x (Shamir.create_shares 7 3 5 Toy.draws 3) = range 1 (5 + 1) /\
  len (Shamir.create_shares 7 3 5 Toy.draws 3) = Z.max 0 5 /\
  forall b, In b (Shamir.create_shares 7 3 5 Toy.draws 3) ->
            0 <= Shamir.y b < 7.
Proof.
  apply (create_shares_positions 7 3 5 Toy.draws 3). lia.
Defined.

Lemma create_shares_constant_polynomial_witness :
  Shamir.generate_polynomial 1 Toy.draws 3 = [3] /\
  forall b, In b (Shamir.create_shares 7 1 5 Toy.draws 3) ->
            Shamir.y b = 3 mod 7.
Proof.
  apply (create_shares_constant_polynomial 7 1 5 Toy.draws 3); lia.
Defined.

Lemma shares_reconstruct_secret_witness :
  Shamir.reconstruct_secret 7 Crypto.inverse 3
    [Shamir.mkShare 5 5; Shamir.mkShare 1 3; Shamir.mkShare 3 5]
  = Ok 3.
Proof.
  apply (shares_reconstruct_secret 7 3 5 Toy.draws 3 [5; 1; 3]
           [Shamir.mkShare 5 5; Shamir.mkShare 1 3; Shamir.mkShare 3 5]
           prime_7).
  - lia.
  - lia.
  - lia.
  - repeat constructor; cbn; intuition lia.
  - intros id [<-|[<-|[<-|[]]]]; lia.
  - reflexivity.
  - repeat constructor.
Defined.

Lemma reconstruct_secret_duplicate_positions_witness :
  Shamir.reconstruct_secret 7 Crypto.inverse 3
    [Shamir.mkShare 1 3; Shamir.mkShare 2 6; Shamir.mkShare 1 5;
     Shamir.mkShare 4 0]
  = Raise (ValueError NoInverse).
Proof.
  apply (reconstruct_secret_duplicate_positions 7 3
           [Shamir.mkShare 1 3; Shamir.mkShare 2 6; Shamir.mkShare 1 5;
            Shamir.mkShare 4 0]
           [] [Shamir.mkShare 2 6] [] (Shamir.mkShare 1 3) (Shamir.mkShare 1 5)).
  - lia.
  - vm_compute. split; discriminate.
  - reflexivity.
  - reflexivity.
Defined.

Lemma bls_key_share_lookup_witness :
  (BLS.get_private_share Toy.affine Toy.bls 2 = Ok (Shamir.mkShare 2 6) /\
   BLS.get_public_key_share Toy.affine Toy.bls 2 = Ok (Some Toy.P6)) /\
  (BLS.get_private_share Toy.affine Toy.bls 9 = Raise (UnknownParty 5) /\
   BLS.get_public_key_share Toy.affine Toy.bls 9 = Raise (UnknownParty 5)).
Proof.
  split.
  - apply (bls_key_share_lookup Toy.affine Toy.multiply Toy.G 7 3 5 3
             Toy.draws 2). lia.
  - apply (bls_key_share_lookup Toy.affine Toy.multiply Toy.G 7 3 5 3
             Toy.draws 9). lia.
Defined.

Lemma bls_partial_signature_verifies_witness :
  exists partial_sig,
    Toy.create_partial_signature 2 Toy.message = Ok partial_sig /\
    ToyBLS.verify_partial_signature partial_sig Toy.message = Ok true.
Proof.
  apply (bls_partial_signature_verifies Toy.affine Toy.affine Z Toy.multiply
           Toy.multiply Toy.pairing Z.eqb Toy.G Toy.G 7 Toy.sha256 3 5 3
           Toy.draws Toy.message 2).
  - lia.
  - exact toy_pairing_laws.
  - lia.
Defined.

Lemma bls_verify_partial_unknown_signer_witness :
  ToyBLS.verify_partial_signature (BLS.mkPartial Toy.affine 9 (Some Toy.P3))
    Toy.message
  = Ok false.
Proof.
  apply (bls_verify_partial_unknown_signer Toy.affine Toy.affine Z
           Toy.multiply Toy.pairing Z.eqb Toy.G Toy.G 7 Toy.sha256 Toy.bls
           (BLS.mkPartial Toy.affine 9 (Some Toy.P3)) Toy.message).
  right. vm_compute. reflexivity.
Defined.

Lemma bls_aggregate_verifies_witness :
  exists sigma,
    Toy.combine_signatures
      [BLS.mkPartial Toy.affine 2 (Some Toy.P6);
       BLS.mkPartial Toy.affine 4 None;
       BLS.mkPartial Toy.affine 5 (Some Toy.P5)]
    = Ok sigma /\
    ToyBLS.verify_signature sigma Toy.message = Ok true.
Proof.
  apply (bls_aggregate_verifies Toy.affine Toy.affine Z Toy.add Toy.multiply
           Toy.multiply Toy.pairing Z.eqb Toy.G Toy.G 7 Toy.sha256 3 5 3
           Toy.draws prime_7 toy_add_laws toy_multiply_laws toy_pairing_laws
           Toy.message [2; 4; 5]).
  - lia.
  - lia.
  - lia.
  - repeat constructor; cbn; intuition lia.
  - intros id [<-|[<-|[<-|[]]]]; lia.
  - reflexivity.
  - repeat constructor.
Defined.

Lemma bls_simulate_signing_process_succeeds_witness :
  ToyBLS.simulate_signing_process Toy.message [1; 3; 5] = Ok true.
Proof.
  apply (bls_simulate_signing_process_succeeds Toy.affine Toy.affine Z Toy.add
           Toy.multiply Toy.multiply Toy.pairing Z.eqb Toy.G Toy.G 7
           Toy.sha256 3 5 3 Toy.draws prime_7 toy_add_laws toy_multiply_laws
           toy_pairing_laws Toy.message [1; 3; 5]).
  - lia.
  - lia.
  - lia.
  - repeat constructor; cbn; intuition lia.
  - intros id [<-|[<-|[<-|[]]]]; lia.
  - reflexivity.
Defined.

Lemma bls_simulate_signing_process_failures_witness :
  ToyBLS.simulate_signing_process Toy.message [1; 2] = Ok false /\
  ToyBLS.simulate_signing_process Toy.message [1; 2; 9]
  = Raise (UnknownParty 5).
Proof.
  split.
  - apply (bls_simulate_signing_process_failures Toy.affine Toy.affine Z
             Toy.add Toy.multiply Toy.multiply Toy.pairing Z.eqb Toy.G Toy.G 7
             Toy.sha256 3 5 3 Toy.draws Toy.message [1; 2]).
    reflexivity.
  - apply (bls_simulate_signing_process_failures Toy.affine Toy.affine Z
             Toy.add Toy.multiply Toy.multiply Toy.pairing Z.eqb Toy.G Toy.G 7
             Toy.sha256 3 5 3 Toy.draws Toy.message [1; 2; 9]).
    + vm_compute. discriminate.
    + exists 9. split; [cbn; tauto|lia].
Defined.

Lemma ecdsa_reused_nonce_reveals_share_witness :
  let sig1 := ECDSA.mkPartial 1 4 3 in
  let sig2 := ECDSA.mkPartial 1 4 0 in
  Some 2 = Some (1 + 1) /\
  Some 2 = Some 2 /\
  ECDSA.r sig1 = ECDSA.r sig2 /\
  exists share,
    ECDSA.get_private_share Toy.affine ToyCurve.ecdsa 1 = Ok share /\
    cong (ECDSA.prime Toy.affine ToyCurve.ecdsa)
      (ECDSA.r sig1 * Shamir.y share * (ECDSA.s sig2 - ECDSA.s sig1))
      (ECDSA.s sig1
       * (int_from_bytes_big (Toy.sha256 [x48])
          mod ECDSA.prime Toy.affine ToyCurve.ecdsa)
       - ECDSA.s sig2
         * (int_from_bytes_big (Toy.sha256 Toy.message)
            mod ECDSA.prime Toy.affine ToyCurve.ecdsa)).
Proof.
  apply (ecdsa_reused_nonce_reveals_share Toy.affine ToyCurve.affine_x
           ToyCurve.ec_mul Toy.G Toy.sha256 ToyCurve.ecdsa 1 6 1 Toy.message
           [x48] (ECDSA.mkPartial 1 4 3) (ECDSA.mkPartial 1 4 0)
           (Some 2) (Some 2)).
  - reflexivity.
  - reflexivity.
Defined.

Lemma ecdsa_round_partials_share_r_witness :
  let partial_sigs :=
    [ECDSA.mkPartial 1 4 3; ECDSA.mkPartial 3 4 0; ECDSA.mkPartial 5 4 0] in
  (forall a b, In a partial_sigs -> In b partial_sigs ->
               ECDSA.r a = ECDSA.r b) /\
  (forall a, In a partial_sigs ->
     ECDSA.x_mod Toy.affine ToyCurve.affine_x
       (ToyCurve.ec_mul (1 + 1) Toy.G)
       (ECDSA.prime Toy.affine ToyCurve.ecdsa)
     = Ok (ECDSA.r a)) /\
  (partial_sigs <> [] -> Some 2 = Some (1 + 1)).
Proof.
  apply (ecdsa_round_partials_share_r Toy.affine ToyCurve.affine_x
           ToyCurve.ec_mul Toy.G Toy.sha256 ToyCurve.ecdsa None 1 Toy.message
           [1; 3; 5]
           [ECDSA.mkPartial 1 4 3; ECDSA.mkPartial 3 4 0; ECDSA.mkPartial 5 4 0]
           (Some 2)).
  reflexivity.
Defined.

Lemma ecdsa_aggregate_signing_equation_witness :
  exists s,
    ECDSA.combine_signatures Toy.affine ToyCurve.ecdsa
      [ECDSA.mkPartial 1 4 3; ECDSA.mkPartial 3 4 0; ECDSA.mkPartial 5 4 0]
      Toy.message
    = Ok (11 mod 7, s) /\
    0 <= s < 7 /\
    cong 7 (2 * s)
      (int_from_bytes_big (Toy.sha256 Toy.message) mod 7 + 11 mod 7 * 3).
Proof.
  apply (ecdsa_aggregate_signing_equation Toy.affine ToyCurve.affine_x
           ToyCurve.ec_mul Toy.G Toy.sha256 7 prime_7 3 5 3 Toy.draws None 0
           Toy.message 2 Toy.P2 [1; 3; 5]).
  - lia.
  - lia.
  - lia.
  - reflexivity.
  - repeat constructor; cbn; intuition lia.
  - intros id [<-|[<-|[<-|[]]]]; lia.
  - reflexivity.
  - repeat constructor.
Defined.

Lemma ecdsa_verify_signature_complete_witness :
  ToyCurve.verify_signature (1, 4) Toy.message = Ok true.
Proof.
  apply (ecdsa_verify_signature_complete Toy.affine ToyCurve.affine_x Toy.add
           ToyCurve.ec_mul Toy.G Toy.sha256 7 prime_7 3 5 3 Toy.draws
           toy_ec_laws Toy.message 1 1 4 Toy.P1).
  - lia.
  - lia.
  - reflexivity.
  - reflexivity.
  - lia.
  - lia.
  - reflexivity.
Defined.

Lemma ecdsa_simulate_signing_process_outcome_witness :
  exists s,
    0 <= s < 7 /\
    cong 7 ((0 + 1) * s)
      (int_from_bytes_big (Toy.sha256 Toy.message) mod 7 + 8 mod 7 * 3) /\
    ToyCurve.simulate_signing_process (Some 4) 0 Toy.message [1; 3; 5]
    = (Ok ((0 <? 8 mod 7) && (0 <? s)), Some (0 + 1)).
Proof.
  apply (ecdsa_simulate_signing_process_outcome Toy.affine ToyCurve.affine_x
           Toy.add ToyCurve.ec_mul Toy.G Toy.sha256 7 prime_7 3 5 3 Toy.draws
           toy_ec_laws (Some 4) 0 Toy.message [1; 3; 5] Toy.P1).
  - lia.
  - lia.
  - lia.
  - lia.
  - reflexivity.
  - repeat constructor; cbn; intuition lia.
  - intros id [<-|[<-|[<-|[]]]]; lia.
  - reflexivity.
Defined.

Lemma ecdsa_combine_duplicate_signers_witness :
  ECDSA.combine_signatures Toy.affine ToyCurve.ecdsa
    [ECDSA.mkPartial 1 4 3; ECDSA.mkPartial 1 4 3; ECDSA.mkPartial 3 4 0]
    Toy.message
  = Raise (ValueError NoInverse).
Proof.
  apply (ecdsa_combine_duplicate_signers Toy.affine ToyCurve.ecdsa
           [ECDSA.mkPartial 1 4 3; ECDSA.mkPartial 1 4 3; ECDSA.mkPartial 3 4 0]
           [] [] [ECDSA.mkPartial 3 4 0]
           (ECDSA.mkPartial 1 4 3) (ECDSA.mkPartial 1 4 3) Toy.message).
  - reflexivity.
  - vm_compute. split; discriminate.
  - intros c [<-|[<-|[<-|[]]]]; reflexivity.
  - reflexivity.
  - reflexivity.
Defined.

Lemma ecdsa_simulate_signing_process_failures_witness :
  ToyCurve.simulate_signing_process (Some 4) 0 Toy.message [1; 3]
  = (Ok false, Some 4) /\
  ToyCurve.simulate_signing_process (Some 4) 0 Toy.message [1; 8; 3]
  = (Raise (UnknownParty 5), Some (0 + 1)).
Proof.
  split.
  - apply (ecdsa_simulate_signing_process_failures Toy.affine
             ToyCurve.affine_x Toy.add ToyCurve.ec_mul Toy.G Toy.sha256 7
             prime_7 3 5 3 Toy.draws (Some 4) 0 Toy.message [1; 3]).
    reflexivity.
  - apply (proj2 (ecdsa_simulate_signing_process_failures Toy.affine
                    ToyCurve.affine_x Toy.add ToyCurve.ec_mul Toy.G Toy.sha256
                    7 prime_7 3 5 3 Toy.draws (Some 4) 0 Toy.message [1; 8; 3])
             [1] 8 [3] Toy.P1).
    + vm_compute. discriminate.
    + reflexivity.
    + intros id [<-|[]]; lia.
    + lia.
    + lia.
    + reflexivity.
Defined.

Lemma reconstruct_secret_linear_witness :
  Shamir.reconstruct_secret 7 Crypto.inverse 3
    [Shamir.mkShare 1 ((2 * 3 + 3 * 1) mod 7);
     Shamir.mkShare 3 ((2 * 5 + 3 * 2) mod 7);
     Shamir.mkShare 5 ((2 * 5 + 3 * 4) mod 7)]
  = Ok ((2 * 3 + 3 * 0) mod 7).
Proof.
  apply (reconstruct_secret_linear 7 Crypto.inverse 3 2 3
           [(1, (3, 1)); (3, (5, 2)); (5, (5, 4))] 3 0).
  - lia.
  - reflexivity.
  - reflexivity.
Defined.

Lemma lagrange_coefficient_copies_agree_witness :
  exists c,
    BLS.lagrange_coefficient 7
      ([Shamir.mkShare 1 3] ++ Shamir.mkShare 3 5 :: [Shamir.mkShare 5 5])
      (length [Shamir.mkShare 1 3])
    = Ok c /\
    ECDSA.lagrange_coefficient Toy.affine ToyCurve.ecdsa
      ([Shamir.mkShare 1 3] ++ Shamir.mkShare 3 5 :: [Shamir.mkShare 5 5])
      (length [Shamir.mkShare 1 3])
    = Ok c /\
    0 <= c < 7 /\
    cong 7
      (c * basis_den (Shamir.mkShare 3 5) [Shamir.mkShare 1 3]
             [Shamir.mkShare 5 5])
      (basis_num [Shamir.mkShare 1 3] [Shamir.mkShare 5 5]).
Proof.
  apply (lagrange_coefficient_copies_agree Toy.affine 7 prime_7 ToyCurve.ecdsa
           [Shamir.mkShare 1 3] [Shamir.mkShare 5 5] (Shamir.mkShare 3 5)).
  - reflexivity.
  - unfold distinct_mod. cbn. repeat constructor; cbn; intuition lia.
Defined.
